(** * A red-black tree map with parent pointers (package [rbmap])

    The Go package keeps its nodes on the heap and links them with
    [left], [right] and [parent] pointers; sentinel leaves are ordinary
    nodes whose two child pointers are nil.  The embedding keeps that
    shape: a store maps locations to [Node] records, a pointer is an
    optional location, and every method runs in a small state-and-error
    monad whose failure [Panic] is Go's nil-pointer dereference.
    Recursive methods take a fuel argument. *)

From Stdlib Require Import ZArith Lia.
From stdpp Require Import gmap list.

Module rbmap.

(** ** Results of running a method *)

Inductive res (A : Type) : Type :=
  | Ok (a : A)
  | Panic
  | OutOfFuel.
Arguments Ok {A} a.
Arguments Panic {A}.
Arguments OutOfFuel {A}.

(** Locations of heap-allocated nodes; [None] is the nil pointer. *)
Definition loc := positive.
Definition ptr := option loc.

(** Go's [int] on a 64-bit platform. *)
Definition wrap_int (z : Z) : Z := ((z + 2 ^ 63) `mod` 2 ^ 64 - 2 ^ 63)%Z.

(** [errors.New] values of the package. *)
Inductive error := ErrNodeAlreadyExists | ErrNodeNotExists.

Definition RED : bool := true.
Definition BLACK : bool := false.

Section Rbmap.

(** [keyItem] and [valItem] are [interface{}]; each has a nil value. *)
Context {keyItem valItem : Type}.
Variable nilKey : keyItem.
Variable nilVal : valItem.

(** [CompareFunc]: 0 for a == b, 1 for a < b, 2 for a > b (a [uint8]). *)
Definition CompareFunc := keyItem -> keyItem -> N.

Record Node := mkNode {
  key : keyItem;
  val : valItem;
  left : ptr;
  right : ptr;
  parent : ptr;
  color : bool
}.

Record Map := mkMap {
  root : ptr;
  size : Z;
  compareFunc : CompareFunc
}.

Record Pair := mkPair { Key : keyItem; Val : valItem }.

(** The receiver [m *Map] together with the nodes it can reach. *)
Record store := mkStore {
  mp : Map;
  nodes : gmap loc Node
}.

Definition M (A : Type) : Type := store -> res (A * store).

Definition ret {A} (a : A) : M A := fun s => Ok (a, s).

Definition bind {A B} (c : M A) (k : A -> M B) : M B :=
  fun s => match c s with
           | Ok (a, s') => k a s'
           | Panic => Panic
           | OutOfFuel => OutOfFuel
           end.

Definition out_of_fuel {A} : M A := fun _ => OutOfFuel.

Notation "x <- c ; k" := (bind c (fun x => k))
  (at level 20, c at level 100, k at level 200, only parsing).
Notation "c ;;; k" := (bind c (fun _ => k))
  (at level 100, k at level 200, only parsing, right associativity).

(** Reading through a pointer; nil (or a dangling location) panics. *)
Definition load (p : ptr) : M Node :=
  fun s => match p with
           | None => Panic
           | Some l => match nodes s !! l with
                       | Some n => Ok (n, s)
                       | None => Panic
                       end
           end.

(** Writing one field through a pointer. *)
Definition modify (p : ptr) (f : Node -> Node) : M unit :=
  fun s => match p with
           | None => Panic
           | Some l => match nodes s !! l with
                       | Some n => Ok (tt, mkStore (mp s) (<[l := f n]> (nodes s)))
                       | None => Panic
                       end
           end.

(** [&Node{...}] *)
Definition alloc (n : Node) : M ptr :=
  fun s => let l := fresh (dom (nodes s)) in
           Ok (Some l, mkStore (mp s) (<[l := n]> (nodes s))).

Definition with_key (k : keyItem) (n : Node) : Node :=
  mkNode k (val n) (left n) (right n) (parent n) (color n).
Definition with_val (v : valItem) (n : Node) : Node :=
  mkNode (key n) v (left n) (right n) (parent n) (color n).
Definition with_left (p : ptr) (n : Node) : Node :=
  mkNode (key n) (val n) p (right n) (parent n) (color n).
Definition with_right (p : ptr) (n : Node) : Node :=
  mkNode (key n) (val n) (left n) p (parent n) (color n).
Definition with_parent (p : ptr) (n : Node) : Node :=
  mkNode (key n) (val n) (left n) (right n) p (color n).
Definition with_color (c : bool) (n : Node) : Node :=
  mkNode (key n) (val n) (left n) (right n) (parent n) c.

Definition get_key (p : ptr) : M keyItem := n <- load p ; ret (key n).
Definition get_val (p : ptr) : M valItem := n <- load p ; ret (val n).
Definition get_left (p : ptr) : M ptr := n <- load p ; ret (left n).
Definition get_right (p : ptr) : M ptr := n <- load p ; ret (right n).
Definition get_parent (p : ptr) : M ptr := n <- load p ; ret (parent n).
Definition get_color (p : ptr) : M bool := n <- load p ; ret (color n).

Definition set_key (p : ptr) (k : keyItem) : M unit := modify p (with_key k).
Definition set_val (p : ptr) (v : valItem) : M unit := modify p (with_val v).
Definition set_left (p q : ptr) : M unit := modify p (with_left q).
Definition set_right (p q : ptr) : M unit := modify p (with_right q).
Definition set_parent (p q : ptr) : M unit := modify p (with_parent q).
Definition set_color (p : ptr) (c : bool) : M unit := modify p (with_color c).

Definition get_root : M ptr := fun s => Ok (root (mp s), s).
Definition set_root (p : ptr) : M unit :=
  fun s => Ok (tt, mkStore (mkMap p (size (mp s)) (compareFunc (mp s))) (nodes s)).
Definition get_size : M Z := fun s => Ok (size (mp s), s).
Definition set_size (z : Z) : M unit :=
  fun s => Ok (tt, mkStore (mkMap (root (mp s)) z (compareFunc (mp s))) (nodes s)).
Definition compare (a b : keyItem) : M N :=
  fun s => Ok (compareFunc (mp s) a b, s).

(** ** Node methods *)

Definition newLeaf : M ptr :=
  alloc (mkNode nilKey nilVal None None None BLACK).

Definition newNode (k : keyItem) (v : valItem) : M ptr :=
  alloc (mkNode k v None None None RED).

Definition isLeaf (n : ptr) : M bool :=
  l <- get_left n ;
  if bool_decide (l = None) then
    r <- get_right n ; ret (bool_decide (r = None))
  else ret false.

Definition isRoot (n : ptr) : M bool :=
  p <- get_parent n ; ret (bool_decide (p = None)).

Definition isRed (n : ptr) : M bool := get_color n.

Definition isBlack (n : ptr) : M bool := c <- get_color n ; ret (negb c).

Definition isLeft (n : ptr) : M bool :=
  p <- get_parent n ; l <- get_left p ; ret (bool_decide (n = l)).

Definition isRight (n : ptr) : M bool :=
  p <- get_parent n ; r <- get_right p ; ret (bool_decide (n = r)).

Definition getGrandParent (n : ptr) : M ptr :=
  p <- get_parent n ; get_parent p.

Definition getSibling (n : ptr) : M ptr :=
  il <- isLeft n ;
  p <- get_parent n ;
  if il then get_right p else get_left p.

Definition getUncle (n : ptr) : M ptr :=
  p <- get_parent n ; getSibling p.

(** ** Rotations *)

Definition rotateLeft (node : ptr) : M unit :=
  rightChild <- get_right node ;
  parent <- get_parent node ;
  (if bool_decide (parent = None) then set_root rightChild
   else
     il <- isLeft node ;
     if il then set_left parent rightChild else set_right parent rightChild) ;;;
  set_parent rightChild parent ;;;
  set_parent node rightChild ;;;
  rl <- get_left rightChild ;
  set_right node rl ;;;
  nr <- get_right node ;
  set_parent nr node ;;;
  set_left rightChild node.

Definition rotateRight (node : ptr) : M unit :=
  leftChild <- get_left node ;
  parent <- get_parent node ;
  (if bool_decide (parent = None) then set_root leftChild
   else
     il <- isLeft node ;
     if il then set_left parent leftChild else set_right parent leftChild) ;;;
  set_parent leftChild parent ;;;
  set_parent node leftChild ;;;
  lr <- get_right leftChild ;
  set_left node lr ;;;
  nl <- get_left node ;
  set_parent nl node ;;;
  set_right leftChild node.

(** ** Lookup *)

Fixpoint findNode (fuel : nat) (node : ptr) (k : keyItem) : M ptr :=
  match fuel with
  | O => out_of_fuel
  | S fuel' =>
      leaf <- isLeaf node ;
      if leaf then ret node
      else
        nk <- get_key node ;
        c <- compare k nk ;
        if (c =? 1)%N then
          l <- get_left node ; findNode fuel' l k
        else if (c =? 2)%N then
          r <- get_right node ; findNode fuel' r k
        else ret node
  end.

(** ** Insertion *)

(** One activation of [insertSort].  Its only recursive call,
    [m.insertSort(node.getGrandParent())], is a tail call: the body
    returns [Some g] for it and [None] when the method returns. *)
Definition insertSort_body (node : ptr) : M (option ptr) :=
  ir <- isRoot node ;
  if ir then
    set_root node ;;;
    set_color node BLACK ;;;
    ret None
  else
    p <- get_parent node ;
    pr <- isRed p ;
    if pr then
      u <- getUncle node ;
      ur <- isRed u ;
      if ur then
        u' <- getUncle node ;
        p' <- get_parent node ;
        set_color u' BLACK ;;;
        set_color p' BLACK ;;;
        g <- getGrandParent node ;
        set_color g RED ;;;
        g' <- getGrandParent node ;
        ret (Some g')
      else
        isL <- isLeft node ;
        p0 <- get_parent node ;
        isParentLeft <- isLeft p0 ;
        grandParent <- getGrandParent node ;
        (if isL && isParentLeft then
           p1 <- get_parent node ;
           set_color p1 BLACK ;;;
           set_color grandParent RED ;;;
           rotateRight grandParent
         else if isL && negb isParentLeft then
           set_color node BLACK ;;;
           set_color grandParent RED ;;;
           p1 <- get_parent node ;
           rotateRight p1 ;;;
           rotateLeft grandParent
         else if negb isL && isParentLeft then
           set_color node BLACK ;;;
           set_color grandParent RED ;;;
           p1 <- get_parent node ;
           rotateLeft p1 ;;;
           rotateRight grandParent
         else
           p1 <- get_parent node ;
           set_color p1 BLACK ;;;
           set_color grandParent RED ;;;
           rotateLeft grandParent) ;;;
        ret None
    else ret None.

Fixpoint insertSort (fuel : nat) (node : ptr) : M unit :=
  match fuel with
  | O => out_of_fuel
  | S fuel' =>
      r <- insertSort_body node ;
      match r with
      | Some g => insertSort fuel' g
      | None => ret tt
      end
  end.

Definition insertNode (fuel : nat) (node : ptr) (k : keyItem) (v : valItem) : M unit :=
  set_key node k ;;;
  set_val node v ;;;
  set_color node RED ;;;
  l <- newLeaf ;
  set_left node l ;;;
  r <- newLeaf ;
  set_right node r ;;;
  nl <- get_left node ;
  set_parent nl node ;;;
  nr <- get_right node ;
  set_parent nr node ;;;
  insertSort fuel node.

(** ** Deletion *)

(** One activation of [eraseSort]; both recursive calls are tail calls
    and are returned as [Some n]. *)
Definition eraseSort_body (node : ptr) : M (option ptr) :=
  ir <- isRoot node ;
  if ir then
    set_color node BLACK ;;;
    set_root node ;;;
    ret None
  else
    nr <- isRed node ;
    if nr then
      set_color node BLACK ;;;
      ret None
    else
      sibling <- getSibling node ;
      sr <- isRed sibling ;
      if sr then
        set_color sibling BLACK ;;;
        p <- get_parent node ;
        set_color p RED ;;;
        il <- isLeft node ;
        (if il then p' <- get_parent node ; rotateLeft p'
         else p' <- get_parent node ; rotateRight p') ;;;
        ret (Some node)
      else
        sl <- get_left sibling ;
        slb <- isBlack sl ;
        both <- (if slb then sr' <- get_right sibling ; isBlack sr'
                 else ret false) ;
        if both then
          set_color sibling RED ;;;
          p <- get_parent node ;
          ret (Some p)
        else
          il <- isLeft node ;
          c1 <- (if il then sr' <- get_right sibling ; isBlack sr'
                 else ret false) ;
          sibling1 <-
            (if c1 then
               sl' <- get_left sibling ;
               set_color sibling RED ;;;
               set_color sl' BLACK ;;;
               rotateRight sibling ;;;
               getSibling node
             else ret sibling) ;
          irt <- isRight node ;
          c2 <- (if irt then sl' <- get_left sibling1 ; isBlack sl'
                 else ret false) ;
          sibling2 <-
            (if c2 then
               sr' <- get_right sibling1 ;
               set_color sibling1 RED ;;;
               set_color sr' BLACK ;;;
               rotateLeft sibling1 ;;;
               getSibling node
             else ret sibling1) ;
          p <- get_parent node ;
          pc <- get_color p ;
          set_color sibling2 pc ;;;
          set_color p BLACK ;;;
          il' <- isLeft node ;
          (if il' then
             sr' <- get_right sibling2 ;
             set_color sr' BLACK ;;;
             p' <- get_parent node ;
             rotateLeft p'
           else
             sl' <- get_left sibling2 ;
             set_color sl' BLACK ;;;
             p' <- get_parent node ;
             rotateRight p') ;;;
          ret None.

Fixpoint eraseSort (fuel : nat) (node : ptr) : M unit :=
  match fuel with
  | O => out_of_fuel
  | S fuel' =>
      r <- eraseSort_body node ;
      match r with
      | Some n => eraseSort fuel' n
      | None => ret tt
      end
  end.

(** The [for] loop of [getLeftMostChild]. *)
Fixpoint getLeftMostChild_loop (fuel : nat) (leftChild : ptr) : M ptr :=
  match fuel with
  | O => out_of_fuel
  | S fuel' =>
      leaf <- isLeaf leftChild ;
      if leaf then ret leftChild
      else r <- get_right leftChild ; getLeftMostChild_loop fuel' r
  end.

Definition getLeftMostChild (fuel : nat) (node : ptr) : M ptr :=
  leftChild <- get_left node ;
  leftChild' <- getLeftMostChild_loop fuel leftChild ;
  get_parent leftChild'.

(** The part of [eraseNode] before its fix-up: the node is spliced out
    and the result is [Some c] when the method goes on with
    [m.eraseSort(c)] (a BLACK node was removed), [None] otherwise. *)
Fixpoint eraseNode_splice (fuel : nat) (node : ptr) : M (option ptr) :=
  match fuel with
  | O => out_of_fuel
  | S fuel' =>
      l <- get_left node ;
      ll <- isLeaf l ;
      if ll then
        rightChild <- get_right node ;
        parent <- get_parent node ;
        set_parent rightChild parent ;;;
        (if bool_decide (parent <> None) then
           il <- isLeft node ;
           if il then set_left parent rightChild
           else set_right parent rightChild
         else ret tt) ;;;
        nb <- isBlack node ;
        if nb then ret (Some rightChild) else ret None
      else
        r <- get_right node ;
        rl <- isLeaf r ;
        if rl then
          leftChild <- get_left node ;
          parent <- get_parent node ;
          set_parent leftChild parent ;;;
          (if bool_decide (parent <> None) then
             il <- isLeft node ;
             if il then set_left parent leftChild
             else set_right parent leftChild
           else ret tt) ;;;
          nb <- isBlack node ;
          if nb then ret (Some leftChild) else ret None
        else
          leftMostChild <- getLeftMostChild fuel' node ;
          k <- get_key leftMostChild ;
          v <- get_val leftMostChild ;
          set_key node k ;;;
          set_val node v ;;;
          eraseNode_splice fuel' leftMostChild
  end.

Definition eraseNode (fuel : nat) (node : ptr) : M unit :=
  r <- eraseNode_splice fuel node ;
  match r with
  | Some c => eraseSort fuel c
  | None => ret tt
  end.

(** ** Traversal: the pairs sent on the channel, in order *)

Fixpoint ran (fuel : nat) (node : ptr) : M (list Pair) :=
  match fuel with
  | O => out_of_fuel
  | S fuel' =>
      leaf <- isLeaf node ;
      if negb leaf then
        l <- get_left node ;
        before <- ran fuel' l ;
        k <- get_key node ;
        v <- get_val node ;
        r <- get_right node ;
        after <- ran fuel' r ;
        ret (before ++ mkPair k v :: after)
      else ret []
  end.

(** ** Public methods *)

Definition NewMap (cmp : CompareFunc) : store :=
  let l := fresh (dom (∅ : gmap loc Node)) in
  mkStore (mkMap (Some l) 0 cmp)
          {[ l := mkNode nilKey nilVal None None None BLACK ]}.

Definition Range (fuel : nat) : M (list Pair) :=
  r <- get_root ; ran fuel r.

Definition Len : M Z := get_size.

Definition Add (fuel : nat) (k : keyItem) (v : valItem) : M (option error) :=
  r <- get_root ;
  node <- findNode fuel r k ;
  leaf <- isLeaf node ;
  if leaf then
    insertNode fuel node k v ;;;
    sz <- get_size ;
    set_size (wrap_int (sz + 1)) ;;;
    ret None
  else
    set_val node v ;;;
    ret (Some ErrNodeAlreadyExists).

Definition Delete (fuel : nat) (k : keyItem) : M (option error) :=
  r <- get_root ;
  node <- findNode fuel r k ;
  leaf <- isLeaf node ;
  if leaf then ret (Some ErrNodeNotExists)
  else
    eraseNode fuel node ;;;
    ret None.

Definition Set_ (fuel : nat) (k : keyItem) (v : valItem) : M bool :=
  r <- get_root ;
  node <- findNode fuel r k ;
  leaf <- isLeaf node ;
  if leaf then ret false
  else
    set_val node v ;;;
    ret true.

Definition Get (fuel : nat) (k : keyItem) : M (bool * valItem) :=
  r <- get_root ;
  node <- findNode fuel r k ;
  leaf <- isLeaf node ;
  if leaf then ret (false, nilVal)
  else
    v <- get_val node ;
    ret (true, v).

(* Proof scripts unfold the methods by name. *)
Arguments bind : simpl never.
Arguments ret : simpl never.
Arguments load : simpl never.
Arguments modify : simpl never.
Arguments alloc : simpl never.
Arguments get_key : simpl never.
Arguments get_val : simpl never.
Arguments get_left : simpl never.
Arguments get_right : simpl never.
Arguments get_parent : simpl never.
Arguments get_color : simpl never.
Arguments set_key : simpl never.
Arguments set_val : simpl never.
Arguments set_left : simpl never.
Arguments set_right : simpl never.
Arguments set_parent : simpl never.
Arguments set_color : simpl never.
Arguments get_root : simpl never.
Arguments set_root : simpl never.
Arguments get_size : simpl never.
Arguments set_size : simpl never.
Arguments compare : simpl never.
Arguments newLeaf : simpl never.
Arguments isLeaf : simpl never.
Arguments isRoot : simpl never.
Arguments isRed : simpl never.
Arguments isBlack : simpl never.
Arguments isLeft : simpl never.
Arguments isRight : simpl never.
Arguments getGrandParent : simpl never.
Arguments getSibling : simpl never.
Arguments getUncle : simpl never.
Arguments rotateLeft : simpl never.
Arguments rotateRight : simpl never.
Arguments insertSort_body : simpl never.
Arguments eraseSort_body : simpl never.
Arguments insertNode : simpl never.
Arguments getLeftMostChild : simpl never.
Arguments eraseNode : simpl never.
Arguments Range : simpl never.
Arguments Len : simpl never.
Arguments Add : simpl never.
Arguments Delete : simpl never.
Arguments Set_ : simpl never.
Arguments Get : simpl never.

(** * Abstraction: the tree a store holds

    A [ptree] is a binary tree whose nodes are labelled with the
    location they live at.  [rep h par t] says that the heap [h] holds
    [t] below a node whose parent pointer is [par].  A position in a
    tree is a zipper: the subtree in focus and the frames above it,
    innermost first. *)

Inductive ptree :=
  | PLeaf (a : loc) (c : bool)
  | PNode (a : loc) (c : bool) (l : ptree) (k : keyItem) (v : valItem) (r : ptree).

Definition addr (t : ptree) : loc :=
  match t with PLeaf a _ => a | PNode a _ _ _ _ _ => a end.

Definition color_of (t : ptree) : bool :=
  match t with PLeaf _ c => c | PNode _ c _ _ _ _ => c end.

Definition is_leaf (t : ptree) : bool :=
  match t with PLeaf _ _ => true | PNode _ _ _ _ _ _ => false end.

Definition left_ptr (t : ptree) : ptr :=
  match t with PLeaf _ _ => None | PNode _ _ l _ _ _ => Some (addr l) end.

Definition right_ptr (t : ptree) : ptr :=
  match t with PLeaf _ _ => None | PNode _ _ _ _ _ r => Some (addr r) end.

Definition key_of (t : ptree) : keyItem :=
  match t with PLeaf _ _ => nilKey | PNode _ _ _ k _ _ => k end.

Definition val_of (t : ptree) : valItem :=
  match t with PLeaf _ _ => nilVal | PNode _ _ _ _ v _ => v end.

Definition recolor (c : bool) (t : ptree) : ptree :=
  match t with
  | PLeaf a _ => PLeaf a c
  | PNode a _ l k v r => PNode a c l k v r
  end.

Fixpoint addrs (t : ptree) : list loc :=
  match t with
  | PLeaf a _ => [a]
  | PNode a _ l _ _ r => a :: addrs l ++ addrs r
  end.

(** The record stored at the root of [t] when its parent is [par]. *)
Definition cell (par : ptr) (t : ptree) : Node :=
  mkNode (key_of t) (val_of t) (left_ptr t) (right_ptr t) par (color_of t).

Fixpoint rep (h : gmap loc Node) (par : ptr) (t : ptree) : Prop :=
  h !! addr t = Some (cell par t) /\
  match t with
  | PLeaf _ _ => True
  | PNode a _ l _ _ r => rep h (Some a) l /\ rep h (Some a) r
  end.

(** A frame: a node with a hole for one child; [f_isLeft] tells that the
    hole is the left child. *)
Record frame := Frame {
  f_isLeft : bool;
  f_addr : loc;
  f_color : bool;
  f_key : keyItem;
  f_val : valItem;
  f_sib : ptree
}.

Definition plug1 (f : frame) (t : ptree) : ptree :=
  if f_isLeft f then PNode (f_addr f) (f_color f) t (f_key f) (f_val f) (f_sib f)
  else PNode (f_addr f) (f_color f) (f_sib f) (f_key f) (f_val f) t.

Fixpoint plug (ctx : list frame) (t : ptree) : ptree :=
  match ctx with
  | [] => t
  | f :: ctx' => plug ctx' (plug1 f t)
  end.

Definition fcol (c : bool) (f : frame) : frame :=
  Frame (f_isLeft f) (f_addr f) c (f_key f) (f_val f) (f_sib f).

Definition fsib (t : ptree) (f : frame) : frame :=
  Frame (f_isLeft f) (f_addr f) (f_color f) (f_key f) (f_val f) t.

(** The frame seen from the sibling of the hole. *)
Definition fflip (t : ptree) (f : frame) : frame :=
  Frame (negb (f_isLeft f)) (f_addr f) (f_color f) (f_key f) (f_val f) t.

Definition ctx_ptr (ctx : list frame) : ptr :=
  match ctx with [] => None | f :: _ => Some (f_addr f) end.

Definition frame_addrs (f : frame) : list loc := f_addr f :: addrs (f_sib f).

Fixpoint ctx_addrs (ctx : list frame) : list loc :=
  match ctx with
  | [] => []
  | f :: ctx' => frame_addrs f ++ ctx_addrs ctx'
  end.

Definition frame_cell (child : loc) (par : ptr) (f : frame) : Node :=
  if f_isLeft f
  then mkNode (f_key f) (f_val f) (Some child) (Some (addr (f_sib f))) par (f_color f)
  else mkNode (f_key f) (f_val f) (Some (addr (f_sib f))) (Some child) par (f_color f).

Fixpoint rep_ctx (h : gmap loc Node) (child : loc) (ctx : list frame) : Prop :=
  match ctx with
  | [] => True
  | f :: ctx' =>
      h !! f_addr f = Some (frame_cell child (ctx_ptr ctx') f) /\
      rep h (Some (f_addr f)) (f_sib f) /\
      rep_ctx h (f_addr f) ctx'
  end.

Fixpoint top_addr (ctx : list frame) (t : ptree) : loc :=
  match ctx with
  | [] => addr t
  | f :: ctx' => top_addr ctx' (plug1 f t)
  end.

(** The nodes of the store hold the tree [plug ctx t], and nothing is
    shared. *)
Record rep_at (s : store) (ctx : list frame) (t : ptree) : Prop := RepAt {
  ra_tree : rep (nodes s) (ctx_ptr ctx) t;
  ra_ctx : rep_ctx (nodes s) (addr t) ctx;
  ra_nodup : NoDup (addrs t ++ ctx_addrs ctx)
}.

(** The map holds the tree [t]: its root pointer leads to it. *)
Definition rep_store (s : store) (t : ptree) : Prop :=
  root (mp s) = Some (addr t) /\ rep_at s [] t.

(** The fields of the [Map] that the tree operations leave alone. *)
Definition same_meta (s s' : store) : Prop :=
  size (mp s') = size (mp s) /\ compareFunc (mp s') = compareFunc (mp s).

(** ** Rotations of a tree *)

Definition rotL (t : ptree) : option ptree :=
  match t with
  | PNode a c l k v (PNode b cb rl kb vb rr) =>
      Some (PNode b cb (PNode a c l k v rl) kb vb rr)
  | _ => None
  end.

Definition rotR (t : ptree) : option ptree :=
  match t with
  | PNode a c (PNode b cb ll kb vb lr) k v r =>
      Some (PNode b cb ll kb vb (PNode a c lr k v r))
  | _ => None
  end.

(** ** Basic facts *)

Lemma bind_ok {A B} (c : M A) (k : A -> M B) s a s' :
  c s = Ok (a, s') -> bind c k s = k a s'.
Proof. intros H. unfold bind. by rewrite H. Qed.

Lemma addr_in_addrs t : addr t ∈ addrs t.
Proof. destruct t; simpl; set_solver. Qed.

Lemma addr_recolor c t : addr (recolor c t) = addr t.
Proof. by destruct t. Qed.

Lemma addrs_recolor c t : addrs (recolor c t) = addrs t.
Proof. by destruct t. Qed.

Lemma addr_plug1 f t : addr (plug1 f t) = f_addr f.
Proof. unfold plug1. by destruct (f_isLeft f). Qed.

Lemma rep_insert_ne h par t a n :
  a ∉ addrs t -> rep h par t -> rep (<[a := n]> h) par t.
Proof.
  revert par. induction t as [b c|b c l IHl k v r IHr]; intros par Ha [Hc Hk]; simpl in *.
  - split; [|done]. rewrite lookup_insert_ne; [done|set_solver].
  - destruct Hk as [Hl Hr]. split; [|split].
    + rewrite lookup_insert_ne; [done|set_solver].
    + apply IHl; [set_solver|done].
    + apply IHr; [set_solver|done].
Qed.

Lemma rep_ctx_insert_ne h child ctx a n :
  a ∉ ctx_addrs ctx -> rep_ctx h child ctx -> rep_ctx (<[a := n]> h) child ctx.
Proof.
  revert child. induction ctx as [|f ctx IH]; intros child Ha H; simpl in *; [done|].
  destruct H as (Hc & Hs & Hr). unfold frame_addrs in Ha. split; [|split].
  - rewrite lookup_insert_ne; [done|set_solver].
  - apply rep_insert_ne; [set_solver|done].
  - apply IH; [set_solver|done].
Qed.

Lemma rep_root_cell h par t : rep h par t -> h !! addr t = Some (cell par t).
Proof. destruct t; simpl; tauto. Qed.

Lemma top_addr_same ctx t t' : addr t = addr t' -> top_addr ctx t = top_addr ctx t'.
Proof.
  revert t t'. induction ctx as [|f ctx IH]; intros t t' E; simpl; [done|].
  apply IH. by rewrite !addr_plug1.
Qed.

Lemma top_addr_plug ctx t : top_addr ctx t = addr (plug ctx t).
Proof. revert t. induction ctx as [|f ctx IH]; intros t; simpl; [done|apply IH]. Qed.

Ltac split_nodup :=
  repeat match goal with
  | Hnd : NoDup (_ :: _) |- _ => apply NoDup_cons in Hnd as [? ?]
  | Hnd : NoDup (_ ++ _) |- _ => apply NoDup_app in Hnd as (? & ? & ?)
  | Hnd : NoDup [] |- _ => clear Hnd
  end.

(** Moving the focus one node up or down changes nothing in the store. *)
Lemma rep_at_up s f ctx t :
  rep_at s (f :: ctx) t <-> rep_at s ctx (plug1 f t).
Proof.
  split.
  - intros [Ht Hc Hn]. simpl in *. destruct Hc as (Hf & Hs & Hc).
    split.
    + unfold plug1, frame_cell in *. destruct (f_isLeft f); simpl; unfold cell; simpl; tauto.
    + by rewrite addr_plug1.
    + unfold frame_addrs, plug1 in *. destruct (f_isLeft f); simpl.
      * eapply NoDup_Permutation_proper; [|exact Hn]. solve_Permutation.
      * eapply NoDup_Permutation_proper; [|exact Hn]. solve_Permutation.
  - intros [Ht Hc Hn]. rewrite addr_plug1 in Hc.
    split; simpl.
    + unfold plug1 in Ht. destruct (f_isLeft f); simpl in Ht; tauto.
    + unfold plug1, frame_cell in *.
      destruct (f_isLeft f); simpl in Ht; unfold cell in Ht; simpl in Ht; tauto.
    + unfold frame_addrs, plug1 in *. destruct (f_isLeft f); simpl in Hn.
      * eapply NoDup_Permutation_proper; [|exact Hn]. solve_Permutation.
      * eapply NoDup_Permutation_proper; [|exact Hn]. solve_Permutation.
Qed.

Lemma rep_at_plug s ctx t : rep_at s ctx t <-> rep_at s [] (plug ctx t).
Proof.
  revert t. induction ctx as [|f ctx IH]; intros t; simpl; [done|].
  by rewrite rep_at_up, IH.
Qed.

(** The sibling of the focus, seen as the focus. *)
Lemma rep_at_sibling s f ctx t :
  rep_at s (f :: ctx) t <-> rep_at s (fflip t f :: ctx) (f_sib f).
Proof.
  rewrite !rep_at_up. unfold plug1, fflip. simpl. by destruct (f_isLeft f).
Qed.

(** ** Reading at the focus *)

Lemma load_focus s ctx t :
  rep_at s ctx t -> load (Some (addr t)) s = Ok (cell (ctx_ptr ctx) t, s).
Proof. intros V. unfold load. by rewrite (rep_root_cell _ _ _ (ra_tree _ _ _ V)). Qed.

Lemma get_parent_focus s ctx t :
  rep_at s ctx t -> get_parent (Some (addr t)) s = Ok (ctx_ptr ctx, s).
Proof. intros V. unfold get_parent. by rewrite (bind_ok _ _ _ _ _ (load_focus _ _ _ V)). Qed.

Lemma get_color_focus s ctx t :
  rep_at s ctx t -> get_color (Some (addr t)) s = Ok (color_of t, s).
Proof. intros V. unfold get_color. by rewrite (bind_ok _ _ _ _ _ (load_focus _ _ _ V)). Qed.

Lemma get_left_focus s ctx t :
  rep_at s ctx t -> get_left (Some (addr t)) s = Ok (left_ptr t, s).
Proof. intros V. unfold get_left. by rewrite (bind_ok _ _ _ _ _ (load_focus _ _ _ V)). Qed.

Lemma get_right_focus s ctx t :
  rep_at s ctx t -> get_right (Some (addr t)) s = Ok (right_ptr t, s).
Proof. intros V. unfold get_right. by rewrite (bind_ok _ _ _ _ _ (load_focus _ _ _ V)). Qed.

Lemma get_key_focus s ctx t :
  rep_at s ctx t -> get_key (Some (addr t)) s = Ok (key_of t, s).
Proof. intros V. unfold get_key. by rewrite (bind_ok _ _ _ _ _ (load_focus _ _ _ V)). Qed.

Lemma get_val_focus s ctx t :
  rep_at s ctx t -> get_val (Some (addr t)) s = Ok (val_of t, s).
Proof. intros V. unfold get_val. by rewrite (bind_ok _ _ _ _ _ (load_focus _ _ _ V)). Qed.

Lemma isRed_focus s ctx t :
  rep_at s ctx t -> isRed (Some (addr t)) s = Ok (color_of t, s).
Proof. apply get_color_focus. Qed.

Lemma isBlack_focus s ctx t :
  rep_at s ctx t -> isBlack (Some (addr t)) s = Ok (negb (color_of t), s).
Proof. intros V. unfold isBlack. by rewrite (bind_ok _ _ _ _ _ (get_color_focus _ _ _ V)). Qed.

Lemma isLeaf_focus s ctx t :
  rep_at s ctx t -> isLeaf (Some (addr t)) s = Ok (is_leaf t, s).
Proof.
  intros V. unfold isLeaf. rewrite (bind_ok _ _ _ _ _ (get_left_focus _ _ _ V)).
  pose proof (get_right_focus _ _ _ V) as E.
  destruct t; simpl in *; [|done].
  by rewrite (bind_ok _ _ _ _ _ E).
Qed.

Lemma isRoot_focus s ctx t :
  rep_at s ctx t -> isRoot (Some (addr t)) s = Ok (bool_decide (ctx = []), s).
Proof.
  intros V. unfold isRoot. rewrite (bind_ok _ _ _ _ _ (get_parent_focus _ _ _ V)).
  by destruct ctx.
Qed.

Lemma sibling_addr_ne s f ctx t :
  rep_at s (f :: ctx) t -> addr t <> addr (f_sib f).
Proof.
  intros V. pose proof (ra_nodup _ _ _ V) as Hn. simpl in Hn. unfold frame_addrs in Hn.
  apply NoDup_app in Hn as (_ & Hn & _). intros E.
  apply (Hn (addr t) (addr_in_addrs t)). rewrite E.
  apply elem_of_cons. right. apply elem_of_app. left. apply addr_in_addrs.
Qed.

Lemma isLeft_focus s f ctx t :
  rep_at s (f :: ctx) t -> isLeft (Some (addr t)) s = Ok (f_isLeft f, s).
Proof.
  intros V. unfold isLeft. rewrite (bind_ok _ _ _ _ _ (get_parent_focus _ _ _ V)). simpl.
  pose proof (sibling_addr_ne _ _ _ _ V) as Hne.
  apply rep_at_up in V. rewrite <- (addr_plug1 f t).
  rewrite (bind_ok _ _ _ _ _ (get_left_focus _ _ _ V)).
  unfold plug1, ret. destruct (f_isLeft f); simpl.
  - by rewrite bool_decide_eq_true_2.
  - rewrite bool_decide_eq_false_2; [done|congruence].
Qed.

Lemma isRight_focus s f ctx t :
  rep_at s (f :: ctx) t -> isRight (Some (addr t)) s = Ok (negb (f_isLeft f), s).
Proof.
  intros V. unfold isRight. rewrite (bind_ok _ _ _ _ _ (get_parent_focus _ _ _ V)). simpl.
  pose proof (sibling_addr_ne _ _ _ _ V) as Hne.
  apply rep_at_up in V. rewrite <- (addr_plug1 f t).
  rewrite (bind_ok _ _ _ _ _ (get_right_focus _ _ _ V)).
  unfold plug1, ret. destruct (f_isLeft f); simpl.
  - rewrite bool_decide_eq_false_2; [done|congruence].
  - by rewrite bool_decide_eq_true_2.
Qed.

Lemma getSibling_focus s f ctx t :
  rep_at s (f :: ctx) t ->
  getSibling (Some (addr t)) s = Ok (Some (addr (f_sib f)), s).
Proof.
  intros V. unfold getSibling.
  rewrite (bind_ok _ _ _ _ _ (isLeft_focus _ _ _ _ V)).
  rewrite (bind_ok _ _ _ _ _ (get_parent_focus _ _ _ V)). simpl.
  apply rep_at_up in V. rewrite <- (addr_plug1 f t).
  unfold plug1 in *. destruct (f_isLeft f).
  - by rewrite (get_right_focus _ _ _ V).
  - by rewrite (get_left_focus _ _ _ V).
Qed.


(** ** Writing at the focus *)

Definition kids (t : ptree) : option (ptree * ptree) :=
  match t with
  | PLeaf _ _ => None
  | PNode _ _ l _ _ r => Some (l, r)
  end.

Lemma addrs_same_kids t t' : addr t' = addr t -> kids t' = kids t -> addrs t' = addrs t.
Proof. destruct t, t'; simpl; intros E1 E2; by simplify_eq. Qed.

Lemma nodup_root_kids a l r :
  NoDup (a :: addrs l ++ addrs r) -> (a ∉ addrs l) /\ (a ∉ addrs r).
Proof. intros Hn. apply NoDup_cons in Hn as [Ha _]. by apply not_elem_of_app in Ha. Qed.

Lemma rep_kids_insert h a n par par' t t' :
  addr t' = addr t -> kids t' = kids t -> NoDup (addrs t) -> a = addr t ->
  rep h par t -> n = cell par' t' -> rep (<[a := n]> h) par' t'.
Proof.
  intros E1 E2 Hn -> Hr ->. destruct t, t'; simpl in *; simplify_eq.
  - split; [|done]. apply lookup_insert_eq.
  - destruct Hr as (_ & Hl & Hr). apply nodup_root_kids in Hn as [? ?].
    split; [apply lookup_insert_eq|]. split; by apply rep_insert_ne.
Qed.

Lemma modify_focus s ctx t t' g :
  rep_at s ctx t -> addr t' = addr t -> kids t' = kids t ->
  g (cell (ctx_ptr ctx) t) = cell (ctx_ptr ctx) t' ->
  exists s', modify (Some (addr t)) g s = Ok (tt, s') /\
             rep_at s' ctx t' /\ mp s' = mp s.
Proof.
  intros V E1 E2 Eg. destruct V as [Ht Hc Hn].
  eexists. split.
  { unfold modify. rewrite (rep_root_cell _ _ _ Ht), Eg. reflexivity. }
  split; [|reflexivity].
  apply NoDup_app in Hn as (Hn1 & Hn2 & Hn3).
  split; simpl.
  - eapply rep_kids_insert; eauto.
  - rewrite E1. apply rep_ctx_insert_ne; [|done].
    apply Hn2, addr_in_addrs.
  - rewrite (addrs_same_kids _ _ E1 E2). apply NoDup_app; eauto.
Qed.

Lemma set_color_focus s ctx t c :
  rep_at s ctx t ->
  exists s', set_color (Some (addr t)) c s = Ok (tt, s') /\
             rep_at s' ctx (recolor c t) /\ mp s' = mp s.
Proof. intros V. apply modify_focus; [done|by destruct t..]. Qed.

Lemma set_val_focus s ctx a c l k v r v' :
  rep_at s ctx (PNode a c l k v r) ->
  exists s', set_val (Some a) v' s = Ok (tt, s') /\
             rep_at s' ctx (PNode a c l k v' r) /\ mp s' = mp s.
Proof. intros V. by apply (modify_focus _ _ _ (PNode a c l k v' r) _ V). Qed.

Lemma set_key_focus s ctx a c l k v r k' :
  rep_at s ctx (PNode a c l k v r) ->
  exists s', set_key (Some a) k' s = Ok (tt, s') /\
             rep_at s' ctx (PNode a c l k' v r) /\ mp s' = mp s.
Proof. intros V. by apply (modify_focus _ _ _ (PNode a c l k' v r) _ V). Qed.

(** ** Heaps that differ on a few locations *)

Definition agree_off (D : list loc) (h h' : gmap loc Node) : Prop :=
  forall x, x ∉ D -> h' !! x = h !! x.

Lemma agree_off_refl D h : agree_off D h h.
Proof. by intros x _. Qed.

Lemma agree_off_insert D h h' a n :
  a ∈ D -> agree_off D h h' -> agree_off D h (<[a := n]> h').
Proof.
  intros Ha Hag x Hx. rewrite lookup_insert_ne; [by apply Hag|].
  intros ->. by apply Hx.
Qed.

Lemma rep_agree D h h' par t :
  agree_off D h h' -> (forall x, x ∈ D -> x ∉ addrs t) ->
  rep h par t -> rep h' par t.
Proof.
  intros Hag. revert par.
  induction t as [b c|b c l IHl k v r IHr]; intros par Hd [Hc Hk]; simpl in *.
  - split; [|done]. rewrite Hag; [done|]. intros Hb. apply (Hd _ Hb). set_solver.
  - destruct Hk as [Hl Hr]. split; [|split].
    + rewrite Hag; [done|]. intros Hb. apply (Hd _ Hb). set_solver.
    + apply IHl; [|done]. intros x Hx. specialize (Hd x Hx). set_solver.
    + apply IHr; [|done]. intros x Hx. specialize (Hd x Hx). set_solver.
Qed.

Lemma rep_ctx_agree D h h' child ctx :
  agree_off D h h' -> (forall x, x ∈ D -> x ∉ ctx_addrs ctx) ->
  rep_ctx h child ctx -> rep_ctx h' child ctx.
Proof.
  intros Hag. revert child.
  induction ctx as [|f ctx IH]; intros child Hd Hc; simpl in *; [done|].
  destruct Hc as (Hf & Hs & Hc). unfold frame_addrs in Hd. split; [|split].
  - rewrite Hag; [done|]. intros Hb. apply (Hd _ Hb). set_solver.
  - eapply rep_agree; [done| |done]. intros x Hx. specialize (Hd x Hx). set_solver.
  - apply IH; [|done]. intros x Hx. specialize (Hd x Hx). set_solver.
Qed.

(** The children of a node whose own record was rewritten. *)
Lemma rep_kids_agree D h h' par t :
  agree_off D h h' -> (forall x, x ∈ D -> x = addr t \/ x ∉ addrs t) ->
  NoDup (addrs t) -> rep h par t ->
  match t with
  | PLeaf _ _ => True
  | PNode a _ l _ _ r => rep h' (Some a) l /\ rep h' (Some a) r
  end.
Proof.
  intros Hag Hd Hn Hr. destruct t as [b c|b c l k v r]; simpl in *; [done|].
  destruct Hr as (_ & Hl & Hr). apply nodup_root_kids in Hn as [Hbl Hbr].
  split; (eapply rep_agree; [done| |done]); intros x Hx;
    (destruct (Hd x Hx) as [->|Hd']; [done|set_solver]).
Qed.

Lemma top_addr_cons f ctx t t' : top_addr (f :: ctx) t = top_addr (f :: ctx) t'.
Proof. simpl. apply top_addr_same. by rewrite !addr_plug1. Qed.

Lemma rep_reroot D h h' par par' t :
  agree_off D h h' -> (forall x, x ∈ D -> x = addr t \/ x ∉ addrs t) ->
  NoDup (addrs t) -> rep h par t -> h' !! addr t = Some (cell par' t) ->
  rep h' par' t.
Proof.
  intros Hag Hd Hn Hr Hc. pose proof (rep_kids_agree _ _ _ _ _ Hag Hd Hn Hr).
  by destruct t.
Qed.

Lemma bind_assoc {A B C} (c : M A) (k1 : A -> M B) (k2 : B -> M C) s :
  bind (bind c k1) k2 s = bind c (fun x => bind (k1 x) k2) s.
Proof. unfold bind. by destruct (c s) as [[? ?]| |]. Qed.

(** *** Separation facts out of [NoDup] *)

Definition kept (P : Prop) : Prop := P.

Definition disj (l1 l2 : list loc) : Prop := forall x, x ∈ l1 -> x ∉ l2.

Lemma nodup_app_disj (l1 l2 : list loc) :
  NoDup (l1 ++ l2) -> NoDup l1 /\ disj l1 l2 /\ NoDup l2.
Proof. apply NoDup_app. Qed.

Lemma disj_cons_l x l1 l2 : disj (x :: l1) l2 -> (x ∉ l2) /\ disj l1 l2.
Proof. unfold disj. intros Hd. split; [apply Hd; left|]. intros y Hy. apply Hd. by right. Qed.

Lemma disj_app_l l1 l1' l2 : disj (l1 ++ l1') l2 -> disj l1 l2 /\ disj l1' l2.
Proof.
  unfold disj. intros Hd. split; intros y Hy; apply Hd, elem_of_app; [by left|by right].
Qed.

Lemma disj_cons_r x l1 l2 : disj l1 (x :: l2) -> (x ∉ l1) /\ disj l1 l2.
Proof.
  unfold disj. intros Hd. split.
  - intros Hx. apply (Hd _ Hx). left.
  - intros y Hy Hy2. apply (Hd _ Hy). by right.
Qed.

Lemma disj_app_r l1 l2 l2' : disj l1 (l2 ++ l2') -> disj l1 l2 /\ disj l1 l2'.
Proof.
  unfold disj. intros Hd.
  split; intros y Hy Hy2; apply (Hd _ Hy), elem_of_app; [by left|by right].
Qed.

Lemma disj_addrs_l t l2 : disj (addrs t) l2 -> addr t ∉ l2.
Proof. intros Hd. apply Hd, addr_in_addrs. Qed.

Lemma disj_addrs_r l1 t : disj l1 (addrs t) -> addr t ∉ l1.
Proof. intros Hd Hx. apply (Hd _ Hx), addr_in_addrs. Qed.

Lemma not_elem_of_cons_inv (x y : loc) l : x ∉ y :: l -> x <> y /\ (x ∉ l).
Proof. apply not_elem_of_cons. Qed.

Lemma not_elem_of_app_inv (x : loc) l1 l2 : x ∉ l1 ++ l2 -> (x ∉ l1) /\ (x ∉ l2).
Proof. apply not_elem_of_app. Qed.

Ltac sep_facts :=
  repeat match goal with
  | Hnd : NoDup (_ :: _) |- _ => apply NoDup_cons in Hnd as [? ?]
  | Hnd : NoDup (_ ++ _) |- _ => apply nodup_app_disj in Hnd as (? & ? & ?)
  | Hnd : NoDup [] |- _ => clear Hnd
  | Hnd : NoDup (addrs (PLeaf _ _)) |- _ => simpl in Hnd
  | Hnd : NoDup (addrs (PNode _ _ _ _ _ _)) |- _ => simpl in Hnd
  | Hd : disj (_ :: _) _ |- _ => apply disj_cons_l in Hd as [? ?]
  | Hd : disj (_ ++ _) _ |- _ => apply disj_app_l in Hd as [? ?]
  | Hd : disj [] _ |- _ => clear Hd
  | Hd : disj _ (_ :: _) |- _ => apply disj_cons_r in Hd as [? ?]
  | Hd : disj _ (_ ++ _) |- _ => apply disj_app_r in Hd as [? ?]
  | Hd : disj _ [] |- _ => clear Hd
  | Hx : _ ∉ _ :: _ |- _ => apply not_elem_of_cons_inv in Hx as [? ?]
  | Hx : _ ∉ _ ++ _ |- _ => apply not_elem_of_app_inv in Hx as [? ?]
  | Hx : _ ∉ [] |- _ => clear Hx
  end;
  repeat match goal with
  | Hd : disj (addrs ?t) ?l |- _ =>
      lazymatch goal with
      | _ : addr t ∉ l |- _ => fail
      | _ => pose proof (disj_addrs_l _ _ Hd)
      end
  | Hd : disj ?l (addrs ?t) |- _ =>
      lazymatch goal with
      | _ : addr t ∉ l |- _ => fail
      | _ => pose proof (disj_addrs_r _ _ Hd)
      end
  end.

Lemma not_elem_addrs_ne x t : x ∉ addrs t -> x <> addr t.
Proof. intros Hx ->. apply Hx, addr_in_addrs. Qed.

Ltac sep :=
  first [ assumption
        | apply not_eq_sym; assumption
        | apply not_elem_addrs_ne; assumption
        | apply not_eq_sym, not_elem_addrs_ne; assumption
        | congruence ].

Ltac heap_run :=
  repeat first
    [ rewrite lookup_insert_eq
    | rewrite lookup_insert_ne by sep
    | progress simpl ].

Lemma color_plug1 f t : color_of (plug1 f t) = f_color f.
Proof. unfold plug1. by destruct (f_isLeft f). Qed.

Lemma recolor_plug1 c f t : recolor c (plug1 f t) = plug1 (fcol c f) t.
Proof. unfold plug1. simpl. by destruct (f_isLeft f). Qed.

(** Running one more call of a method whose result is known. *)
Ltac exec E :=
  let Hx := fresh in
  pose proof E as Hx; simpl in Hx;
  rewrite ?addr_plug1, ?color_plug1, ?addr_recolor in Hx;
  rewrite ?bind_assoc; rewrite (bind_ok _ _ _ _ _ Hx); clear Hx; cbv beta.

Ltac exec_mod E s' V' :=
  let Hx := fresh in let Hm := fresh "Hm" in
  destruct E as (s' & Hx & V' & Hm);
  simpl in Hx; rewrite ?addr_plug1, ?color_plug1, ?addr_recolor in Hx;
  rewrite ?bind_assoc; rewrite (bind_ok _ _ _ _ _ Hx); clear Hx; cbv beta.

Ltac agree_tac :=
  repeat (apply agree_off_insert; [repeat first [apply list_elem_of_here | apply list_elem_of_further]|]);
  apply agree_off_refl.

Ltac in_D tac :=
  apply Forall_forall; repeat (apply Forall_cons_2; [tac|]); apply Forall_nil_2.

Lemma rotateLeft_focus s ctx t t' :
  rep_at s ctx t -> rotL t = Some t' ->
  exists s', rotateLeft (Some (addr t)) s = Ok (tt, s') /\
             rep_at s' ctx t' /\
             root (mp s') = match ctx with
                            | [] => Some (addr t')
                            | _ :: _ => root (mp s)
                            end /\
             same_meta s s'.
Proof.
  intros V Hrot.
  destruct t as [|a c l k v [|b cb rl kb vb rr]]; simplify_eq/=.
  unfold rotateLeft.
  exec (get_right_focus _ _ _ V).
  exec (get_parent_focus _ _ _ V).
  destruct ctx as [|f ctx].
  - simpl. destruct V as [Ht Hc Hn]. simpl in *.
    destruct Ht as (Ha & Hl & Hb & Hrl & Hrr).
    pose proof (rep_root_cell _ _ _ Hrl) as Hx.
    unfold cell in *; simpl in *.
    rewrite app_nil_r in Hn. assert (kept (NoDup _)) as Hn' by exact Hn. sep_facts.
    unfold set_root, set_parent, set_right, set_left, get_left, get_right, modify, load, bind, ret.
    heap_run. rewrite Hb. heap_run. rewrite Ha. heap_run. rewrite Hx. heap_run.
    eexists. split; [reflexivity|]. split; [|done].
    match goal with |- rep_at (mkStore _ ?h') _ _ =>
      assert (agree_off [a; b; addr rl] (nodes s) h') as Hag by agree_tac end.
    split; simpl.
    + heap_run. unfold cell; simpl. split; [done|]. split; [split; [done|split]|].
      * eapply rep_agree; [exact Hag| |done]. in_D sep.
      * eapply rep_reroot; [exact Hag| | |exact Hrl|by heap_run].
        -- in_D ltac:(first [by left|right; sep]).
        -- done.
      * eapply rep_agree; [exact Hag| |done]. in_D sep.
    + done.
    + rewrite app_nil_r. eapply NoDup_Permutation_proper; [|exact Hn']. solve_Permutation.
  - pose proof (isLeft_focus _ _ _ _ V) as HisL. simpl in HisL.
    destruct V as [Ht Hc Hn]. simpl in *.
    destruct Ht as (Ha & Hl & Hb & Hrl & Hrr). destruct Hc as (Hf & Hs & Hc).
    pose proof (rep_root_cell _ _ _ Hrl) as Hx.
    unfold cell, frame_addrs in *; simpl in *.
    assert (kept (NoDup _)) as Hn' by exact Hn. sep_facts.
    rewrite bind_assoc, (bind_ok _ _ _ _ _ HisL).
    unfold frame_cell in Hf.
    unfold set_root, set_parent, set_right, set_left, get_left, get_right, modify, load, bind, ret.
    destruct (f_isLeft f) eqn:EL.
    all: heap_run; rewrite Hf; heap_run; rewrite Hb; heap_run; rewrite Ha; heap_run;
      rewrite Hx; heap_run.
    all: eexists; (split; [reflexivity|]); (split; [|done]).
    all: match goal with |- rep_at (mkStore _ ?h') _ _ =>
      assert (agree_off [f_addr f; a; b; addr rl] (nodes s) h') as Hag by agree_tac end.
    all: split; simpl.
    all: try (eapply NoDup_Permutation_proper; [|exact Hn']; solve_Permutation).
    all: try (heap_run; unfold cell; simpl; split; [done|]; split; [split; [done|split]|];
      [ eapply rep_agree; [exact Hag| |done]; in_D sep
      | eapply rep_reroot; [exact Hag| |done|exact Hrl|by heap_run];
        in_D ltac:(first [by left|right; sep])
      | eapply rep_agree; [exact Hag| |done]; in_D sep ]).
    all: heap_run; unfold frame_cell; rewrite EL; (split; [done|]); split;
      [ eapply rep_agree; [exact Hag| |done]; in_D sep
      | eapply rep_ctx_agree; [exact Hag| |done]; in_D sep ].
Qed.

Lemma rotateRight_focus s ctx t t' :
  rep_at s ctx t -> rotR t = Some t' ->
  exists s', rotateRight (Some (addr t)) s = Ok (tt, s') /\
             rep_at s' ctx t' /\
             root (mp s') = match ctx with
                            | [] => Some (addr t')
                            | _ :: _ => root (mp s)
                            end /\
             same_meta s s'.
Proof.
  intros V Hrot.
  destruct t as [|a c [|b cb ll kb vb lr] k v r]; simplify_eq/=.
  unfold rotateRight.
  exec (get_left_focus _ _ _ V).
  exec (get_parent_focus _ _ _ V).
  destruct ctx as [|f ctx].
  - simpl. destruct V as [Ht Hc Hn]. simpl in *.
    destruct Ht as (Ha & (Hb & Hll & Hlr) & Hrr).
    pose proof (rep_root_cell _ _ _ Hlr) as Hx.
    unfold cell in *; simpl in *.
    rewrite app_nil_r in Hn. assert (kept (NoDup _)) as Hn' by exact Hn. sep_facts.
    unfold set_root, set_parent, set_right, set_left, get_left, get_right, modify, load, bind, ret.
    heap_run. rewrite Hb. heap_run. rewrite Ha. heap_run. rewrite Hx. heap_run.
    eexists. split; [reflexivity|]. split; [|done].
    match goal with |- rep_at (mkStore _ ?h') _ _ =>
      assert (agree_off [a; b; addr lr] (nodes s) h') as Hag by agree_tac end.
    split; simpl.
    + heap_run. unfold cell; simpl. split; [done|]. split; [|split; [done|split]].
      * eapply rep_agree; [exact Hag| |done]. in_D sep.
      * eapply rep_reroot; [exact Hag| | |exact Hlr|by heap_run].
        -- in_D ltac:(first [by left|right; sep]).
        -- done.
      * eapply rep_agree; [exact Hag| |done]. in_D sep.
    + done.
    + rewrite app_nil_r. eapply NoDup_Permutation_proper; [|exact Hn']. solve_Permutation.
  - pose proof (isLeft_focus _ _ _ _ V) as HisL. simpl in HisL.
    destruct V as [Ht Hc Hn]. simpl in *.
    destruct Ht as (Ha & (Hb & Hll & Hlr) & Hrr). destruct Hc as (Hf & Hs & Hc).
    pose proof (rep_root_cell _ _ _ Hlr) as Hx.
    unfold cell, frame_addrs in *; simpl in *.
    assert (kept (NoDup _)) as Hn' by exact Hn. sep_facts.
    rewrite bind_assoc, (bind_ok _ _ _ _ _ HisL).
    unfold frame_cell in Hf.
    unfold set_root, set_parent, set_right, set_left, get_left, get_right, modify, load, bind, ret.
    destruct (f_isLeft f) eqn:EL.
    all: heap_run; rewrite Hf; heap_run; rewrite Hb; heap_run; rewrite Ha; heap_run;
      rewrite Hx; heap_run.
    all: eexists; (split; [reflexivity|]); (split; [|done]).
    all: match goal with |- rep_at (mkStore _ ?h') _ _ =>
      assert (agree_off [f_addr f; a; b; addr lr] (nodes s) h') as Hag by agree_tac end.
    all: split; simpl.
    all: try (eapply NoDup_Permutation_proper; [|exact Hn']; solve_Permutation).
    all: try (heap_run; unfold cell; simpl; split; [done|]; split; [|split; [done|split]];
      [ eapply rep_agree; [exact Hag| |done]; in_D sep
      | eapply rep_reroot; [exact Hag| |done|exact Hlr|by heap_run];
        in_D ltac:(first [by left|right; sep])
      | eapply rep_agree; [exact Hag| |done]; in_D sep ]).
    all: heap_run; unfold frame_cell; rewrite EL; (split; [done|]); split;
      [ eapply rep_agree; [exact Hag| |done]; in_D sep
      | eapply rep_ctx_agree; [exact Hag| |done]; in_D sep ].
Qed.

(** * The methods as functions on zippers

    Each function below says what the method of the same name does to
    the tree, the focus being the node the method is called on.  A
    result [None] stands for a run that dereferences nil. *)

Definition zipper : Type := list frame * ptree.

(** The result of one activation of a fix-up: the new zipper, and
    whether the method calls itself on the new focus. *)
Definition z_insertSort_body (ctx : list frame) (t : ptree)
    : option (list frame * ptree * bool) :=
  match ctx with
  | [] => Some ([], recolor BLACK t, false)
  | f1 :: ctx1 =>
      if f_color f1 then
        match ctx1 with
        | [] => None
        | f2 :: ctx2 =>
            let u := f_sib f2 in
            if color_of u then
              Some (ctx2,
                    plug1 (fcol RED (fsib (recolor BLACK u) f2))
                          (plug1 (fcol BLACK f1) t),
                    true)
            else
              match
                (if f_isLeft f1 && f_isLeft f2 then
                   rotR (plug1 (fcol RED f2) (plug1 (fcol BLACK f1) t))
                 else if f_isLeft f1 && negb (f_isLeft f2) then
                   match rotR (plug1 f1 (recolor BLACK t)) with
                   | Some p' => rotL (plug1 (fcol RED f2) p')
                   | None => None
                   end
                 else if negb (f_isLeft f1) && f_isLeft f2 then
                   match rotL (plug1 f1 (recolor BLACK t)) with
                   | Some p' => rotR (plug1 (fcol RED f2) p')
                   | None => None
                   end
                 else
                   rotL (plug1 (fcol RED f2) (plug1 (fcol BLACK f1) t)))
              with
              | Some g' => Some (ctx2, g', false)
              | None => None
              end
        end
      else Some (ctx, t, false)
  end.

Definition with_root (p : ptr) (s : store) : store :=
  mkStore (mkMap p (size (mp s)) (compareFunc (mp s))) (nodes s).

Lemma rep_at_nodes s s' ctx t : nodes s' = nodes s -> rep_at s ctx t -> rep_at s' ctx t.
Proof. destruct s, s'; simpl; intros ->; intros [? ? ?]; by split. Qed.

Lemma set_root_ok p s : set_root p s = Ok (tt, with_root p s).
Proof. done. Qed.

Lemma with_root_id s : with_root (root (mp s)) s = s.
Proof. by destruct s as [[] ?]. Qed.

Lemma getUncle_focus s f1 f2 ctx t :
  rep_at s (f1 :: f2 :: ctx) t ->
  getUncle (Some (addr t)) s = Ok (Some (addr (f_sib f2)), s).
Proof.
  intros V. unfold getUncle. exec (get_parent_focus _ _ _ V).
  apply rep_at_up in V. pose proof (getSibling_focus _ _ _ _ V) as E.
  by rewrite addr_plug1 in E.
Qed.

Lemma getGrandParent_focus s f1 ctx t :
  rep_at s (f1 :: ctx) t ->
  getGrandParent (Some (addr t)) s = Ok (ctx_ptr ctx, s).
Proof.
  intros V. unfold getGrandParent. exec (get_parent_focus _ _ _ V).
  apply rep_at_up in V. pose proof (get_parent_focus _ _ _ V) as E.
  by rewrite addr_plug1 in E.
Qed.

(** Writes to the parent, the sibling and the grandparent of the focus. *)
Lemma set_color_parent s f ctx t c :
  rep_at s (f :: ctx) t ->
  exists s', set_color (Some (f_addr f)) c s = Ok (tt, s') /\
             rep_at s' (fcol c f :: ctx) t /\ mp s' = mp s.
Proof.
  intros V. apply rep_at_up in V.
  destruct (set_color_focus _ _ _ c V) as (s' & E & V' & Hm).
  rewrite addr_plug1 in E. rewrite recolor_plug1 in V'.
  exists s'. split; [done|]. split; [|done]. by apply rep_at_up.
Qed.

Lemma set_color_sibling s f ctx t c :
  rep_at s (f :: ctx) t ->
  exists s', set_color (Some (addr (f_sib f))) c s = Ok (tt, s') /\
             rep_at s' (fsib (recolor c (f_sib f)) f :: ctx) t /\ mp s' = mp s.
Proof.
  intros V. apply rep_at_sibling in V.
  destruct (set_color_focus _ _ _ c V) as (s' & E & V' & Hm).
  exists s'. split; [done|]. split; [|done].
  apply rep_at_sibling. exact V'.
Qed.

Lemma rep_at_go_up s f ctx t :
  rep_at s (f :: ctx) t -> rep_at s ctx (plug1 f t).
Proof. apply rep_at_up. Qed.

Lemma rep_at_go_down s f ctx t :
  rep_at s ctx (plug1 f t) -> rep_at s (f :: ctx) t.
Proof. apply rep_at_up. Qed.

Lemma root_after_rotate ctx g g' r r' :
  (ctx <> [] -> r = Some (top_addr ctx g)) ->
  r' = match ctx with [] => Some (addr g') | _ :: _ => r end ->
  r' = Some (top_addr ctx g').
Proof.
  intros Hr ->. destruct ctx as [|f ctx]; [done|].
  rewrite Hr by done. f_equal. apply top_addr_cons.
Qed.

Lemma same_meta_mp s s' : mp s' = mp s -> same_meta s s'.
Proof. intros E. unfold same_meta. by rewrite E. Qed.

Lemma same_meta_trans s1 s2 s3 : same_meta s1 s2 -> same_meta s2 s3 -> same_meta s1 s3.
Proof. unfold same_meta. intros [? ?] [? ?]. split; congruence. Qed.

Lemma insertSort_body_spec s ctx t ctx' t' b :
  rep_at s ctx t ->
  (ctx <> [] -> root (mp s) = Some (top_addr ctx t)) ->
  z_insertSort_body ctx t = Some (ctx', t', b) ->
  exists s',
    insertSort_body (Some (addr t)) s
      = Ok (if b then Some (Some (addr t')) else None, s') /\
    rep_at s' ctx' t' /\
    root (mp s') = Some (top_addr ctx' t') /\
    same_meta s s'.
Proof.
  intros V Hroot Hz. unfold insertSort_body.
  exec (isRoot_focus _ _ _ V).
  destruct ctx as [|f1 ctx1]; simpl in Hz.
  - simplify_eq. rewrite bool_decide_eq_true_2 by done.
    exec (set_root_ok (Some (addr t)) s).
    apply (rep_at_nodes _ (with_root (Some (addr t)) s)) in V; [|done].
    exec_mod (set_color_focus _ _ _ BLACK V) s1 V1.
    exists s1. split; [done|]. split; [done|]. split.
    + rewrite Hm. simpl. by rewrite addr_recolor.
    + apply same_meta_mp in Hm. by destruct Hm.
  - rewrite bool_decide_eq_false_2 by done.
    exec (get_parent_focus _ _ _ V).
    pose proof V as Vp. apply rep_at_up in Vp.
    exec (isRed_focus _ _ _ Vp).
    destruct (f_color f1) eqn:Ec1; cycle 1.
    { simplify_eq. exists s. split; [done|]. split; [done|]. split; [by apply Hroot|done]. }
    destruct ctx1 as [|f2 ctx2]; [done|].
    exec (getUncle_focus _ _ _ _ _ V).
    pose proof Vp as Vu. apply rep_at_sibling in Vu.
    exec (isRed_focus _ _ _ Vu).
    destruct (color_of (f_sib f2)) eqn:Ecu.
    + simplify_eq.
      exec (getUncle_focus _ _ _ _ _ V).
      exec (get_parent_focus _ _ _ V).
      exec_mod (set_color_sibling _ _ _ _ BLACK Vp) s1 Vp1.
      exec_mod (set_color_focus _ _ _ BLACK Vp1) s2 Vp2.
      rewrite recolor_plug1 in Vp2.
      pose proof Vp2 as V2. apply rep_at_up in V2.
      exec (getGrandParent_focus _ _ _ _ V2).
      exec_mod (set_color_parent _ _ _ _ RED Vp2) s3 Vp3.
      pose proof Vp3 as V3. apply rep_at_up in V3.
      exec (getGrandParent_focus _ _ _ _ V3).
      exists s3. split; [by rewrite addr_plug1|]. split; [by apply rep_at_up|].
      split.
      * rewrite Hm1, Hm0, Hm, Hroot by done. f_equal. simpl.
        apply top_addr_same. by rewrite !addr_plug1.
      * apply same_meta_mp. congruence.
    + exec (isLeft_focus _ _ _ _ V).
      exec (get_parent_focus _ _ _ V).
      exec (isLeft_focus _ _ _ _ Vp).
      exec (getGrandParent_focus _ _ _ _ V).
      assert (forall r, r = root (mp s) -> ctx2 <> [] ->
                r = Some (top_addr ctx2 (plug1 f2 (plug1 f1 t)))) as Hroot2.
      { intros r -> _. by rewrite Hroot. }
      destruct (f_isLeft f1) eqn:EL1, (f_isLeft f2) eqn:EL2; simpl in Hz |- *.
      * destruct (rotR _) as [g'|] eqn:Erot; simplify_eq.
        exec (get_parent_focus _ _ _ V).
        exec_mod (set_color_parent _ _ _ _ BLACK V) s1 V1.
        apply rep_at_go_up in V1.
        exec_mod (set_color_parent _ _ _ _ RED V1) s2 V2.
        apply rep_at_go_up in V2.
        destruct (rotateRight_focus _ _ _ _ V2 Erot) as (s3 & E3 & V3 & Hr3 & Hm3).
        rewrite addr_plug1 in E3. simpl in E3. exec E3.
        exists s3. split; [done|]. split; [done|]. split.
        -- eapply root_after_rotate; [|exact Hr3]. apply Hroot2. congruence.
        -- eapply same_meta_trans; [|exact Hm3]. apply same_meta_mp. congruence.
      * destruct (rotR _) as [p'|] eqn:Erot1; [|done].
        destruct (rotL _) as [g'|] eqn:Erot2; simplify_eq.
        exec_mod (set_color_focus _ _ _ BLACK V) s1 V1.
        apply rep_at_go_up in V1.
        exec_mod (set_color_parent _ _ _ _ RED V1) s2 V2.
        pose proof (rep_at_go_down _ _ _ _ V2) as Vn.
        exec (get_parent_focus _ _ _ Vn).
        destruct (rotateRight_focus _ _ _ _ V2 Erot1) as (s3 & E3 & V3 & Hr3 & Hm3).
        rewrite addr_plug1 in E3. exec E3.
        apply rep_at_go_up in V3.
        destruct (rotateLeft_focus _ _ _ _ V3 Erot2) as (s4 & E4 & V4 & Hr4 & Hm4).
        rewrite addr_plug1 in E4. simpl in E4. exec E4.
        exists s4. split; [done|]. split; [done|]. split.
        -- eapply root_after_rotate; [|exact Hr4]. apply Hroot2. simpl in Hr3. congruence.
        -- eapply same_meta_trans; [|exact Hm4]. eapply same_meta_trans; [|exact Hm3].
           apply same_meta_mp. congruence.
      * destruct (rotL _) as [p'|] eqn:Erot1; [|done].
        destruct (rotR _) as [g'|] eqn:Erot2; simplify_eq.
        exec_mod (set_color_focus _ _ _ BLACK V) s1 V1.
        apply rep_at_go_up in V1.
        exec_mod (set_color_parent _ _ _ _ RED V1) s2 V2.
        pose proof (rep_at_go_down _ _ _ _ V2) as Vn.
        exec (get_parent_focus _ _ _ Vn).
        destruct (rotateLeft_focus _ _ _ _ V2 Erot1) as (s3 & E3 & V3 & Hr3 & Hm3).
        rewrite addr_plug1 in E3. exec E3.
        apply rep_at_go_up in V3.
        destruct (rotateRight_focus _ _ _ _ V3 Erot2) as (s4 & E4 & V4 & Hr4 & Hm4).
        rewrite addr_plug1 in E4. simpl in E4. exec E4.
        exists s4. split; [done|]. split; [done|]. split.
        -- eapply root_after_rotate; [|exact Hr4]. apply Hroot2. simpl in Hr3. congruence.
        -- eapply same_meta_trans; [|exact Hm4]. eapply same_meta_trans; [|exact Hm3].
           apply same_meta_mp. congruence.
      * destruct (rotL _) as [g'|] eqn:Erot; simplify_eq.
        exec (get_parent_focus _ _ _ V).
        exec_mod (set_color_parent _ _ _ _ BLACK V) s1 V1.
        apply rep_at_go_up in V1.
        exec_mod (set_color_parent _ _ _ _ RED V1) s2 V2.
        apply rep_at_go_up in V2.
        destruct (rotateLeft_focus _ _ _ _ V2 Erot) as (s3 & E3 & V3 & Hr3 & Hm3).
        rewrite addr_plug1 in E3. simpl in E3. exec E3.
        exists s3. split; [done|]. split; [done|]. split.
        -- eapply root_after_rotate; [|exact Hr3]. apply Hroot2. congruence.
        -- eapply same_meta_trans; [|exact Hm3]. apply same_meta_mp. congruence.
Qed.

Definition z_eraseSort_body (ctx : list frame) (t : ptree)
    : option (list frame * ptree * bool) :=
  match ctx with
  | [] => Some ([], recolor BLACK t, false)
  | f :: ctx1 =>
      if color_of t then Some (ctx, recolor BLACK t, false)
      else
        match f_sib f with
        | PLeaf _ _ => None
        | PNode sa sc sl sk sv sr =>
            if sc then
              (* the sibling is RED: it becomes the grandparent *)
              if f_isLeft f then
                Some (Frame true (f_addr f) RED (f_key f) (f_val f) sl
                        :: Frame true sa BLACK sk sv sr :: ctx1, t, true)
              else
                Some (Frame false (f_addr f) RED (f_key f) (f_val f) sr
                        :: Frame false sa BLACK sk sv sl :: ctx1, t, true)
            else if negb (color_of sl) && negb (color_of sr) then
              Some (ctx1, plug1 (fsib (PNode sa RED sl sk sv sr) f) t, true)
            else if f_isLeft f then
              match (if negb (color_of sr)
                     then rotR (PNode sa RED (recolor BLACK sl) sk sv sr)
                     else Some (PNode sa sc sl sk sv sr)) with
              | Some (PNode a2 _ l2 k2 v2 r2) =>
                  match rotL (PNode (f_addr f) BLACK t (f_key f) (f_val f)
                                (PNode a2 (f_color f) l2 k2 v2 (recolor BLACK r2))) with
                  | Some g => Some (ctx1, g, false)
                  | None => None
                  end
              | _ => None
              end
            else
              match (if negb (color_of sl)
                     then rotL (PNode sa RED sl sk sv (recolor BLACK sr))
                     else Some (PNode sa sc sl sk sv sr)) with
              | Some (PNode a2 _ l2 k2 v2 r2) =>
                  match rotR (PNode (f_addr f) BLACK
                                (PNode a2 (f_color f) (recolor BLACK l2) k2 v2 r2)
                                (f_key f) (f_val f) t) with
                  | Some g => Some (ctx1, g, false)
                  | None => None
                  end
              | _ => None
              end
        end
  end.

Lemma ret_ok {A} (a : A) s : ret a s = Ok (a, s).
Proof. done. Qed.

Lemma rep_at_to_sibling s f ctx t :
  rep_at s (f :: ctx) t -> rep_at s (fflip t f :: ctx) (f_sib f).
Proof. apply rep_at_sibling. Qed.

(** The last step of [eraseSort]: the far child of the sibling is RED. *)
Lemma erase_far_left s pa pc pk pv a2 c2 l2 k2 v2 r2 ctx1 t :
  rep_at s (Frame true pa pc pk pv (PNode a2 c2 l2 k2 v2 r2) :: ctx1) t ->
  exists s',
    (p <- get_parent (Some (addr t)) ;
     pc <- get_color p ;
     set_color (Some a2) pc ;;;
     set_color p BLACK ;;;
     il' <- isLeft (Some (addr t)) ;
     (if il' then
        sr' <- get_right (Some a2) ;
        set_color sr' BLACK ;;;
        p' <- get_parent (Some (addr t)) ;
        rotateLeft p'
      else
        sl' <- get_left (Some a2) ;
        set_color sl' BLACK ;;;
        p' <- get_parent (Some (addr t)) ;
        rotateRight p') ;;;
     ret None) s = Ok (@None ptr, s') /\
    rep_at s' ctx1 (PNode a2 pc (PNode pa BLACK t pk pv l2) k2 v2 (recolor BLACK r2)) /\
    root (mp s') = match ctx1 with [] => Some a2 | _ :: _ => root (mp s) end /\
    same_meta s s'.
Proof.
  intros V.
  exec (get_parent_focus _ _ _ V).
  pose proof (rep_at_go_up _ _ _ _ V) as Vp.
  exec (get_color_focus _ _ _ Vp).
  exec_mod (set_color_sibling _ _ _ _ pc V) s1 V1. unfold fsib in V1; simpl in V1.
  exec_mod (set_color_parent _ _ _ _ BLACK V1) s2 V2. unfold fcol in V2; simpl in V2.
  exec (isLeft_focus _ _ _ _ V2). simpl.
  pose proof (rep_at_to_sibling _ _ _ _ V2) as Vs2. unfold fflip in Vs2; simpl in Vs2.
  exec (get_right_focus _ _ _ Vs2).
  apply (rep_at_go_down _ (Frame false a2 pc k2 v2 l2)) in Vs2.
  exec_mod (set_color_focus _ _ _ BLACK Vs2) s3 Vr3.
  apply rep_at_go_up, rep_at_to_sibling in Vr3. unfold plug1, fflip in Vr3; simpl in Vr3.
  exec (get_parent_focus _ _ _ Vr3).
  apply rep_at_go_up in Vr3. unfold plug1 in Vr3; simpl in Vr3.
  destruct (rotateLeft_focus _ _ _ _ Vr3 eq_refl) as (s4 & E4 & V4 & Hr4 & Hm4).
  simpl in E4. exec E4.
  exists s4. split; [done|]. split; [done|]. split.
  - rewrite Hr4. destruct ctx1; [done|]. congruence.
  - eapply same_meta_trans; [|exact Hm4]. apply same_meta_mp. congruence.
Qed.

Lemma erase_far_right s pa pc pk pv a2 c2 l2 k2 v2 r2 ctx1 t :
  rep_at s (Frame false pa pc pk pv (PNode a2 c2 l2 k2 v2 r2) :: ctx1) t ->
  exists s',
    (p <- get_parent (Some (addr t)) ;
     pc <- get_color p ;
     set_color (Some a2) pc ;;;
     set_color p BLACK ;;;
     il' <- isLeft (Some (addr t)) ;
     (if il' then
        sr' <- get_right (Some a2) ;
        set_color sr' BLACK ;;;
        p' <- get_parent (Some (addr t)) ;
        rotateLeft p'
      else
        sl' <- get_left (Some a2) ;
        set_color sl' BLACK ;;;
        p' <- get_parent (Some (addr t)) ;
        rotateRight p') ;;;
     ret None) s = Ok (@None ptr, s') /\
    rep_at s' ctx1 (PNode a2 pc (recolor BLACK l2) k2 v2 (PNode pa BLACK r2 pk pv t)) /\
    root (mp s') = match ctx1 with [] => Some a2 | _ :: _ => root (mp s) end /\
    same_meta s s'.
Proof.
  intros V.
  exec (get_parent_focus _ _ _ V).
  pose proof (rep_at_go_up _ _ _ _ V) as Vp.
  exec (get_color_focus _ _ _ Vp).
  exec_mod (set_color_sibling _ _ _ _ pc V) s1 V1. unfold fsib in V1; simpl in V1.
  exec_mod (set_color_parent _ _ _ _ BLACK V1) s2 V2. unfold fcol in V2; simpl in V2.
  exec (isLeft_focus _ _ _ _ V2). simpl.
  pose proof (rep_at_to_sibling _ _ _ _ V2) as Vs2. unfold fflip in Vs2; simpl in Vs2.
  exec (get_left_focus _ _ _ Vs2).
  apply (rep_at_go_down _ (Frame true a2 pc k2 v2 r2)) in Vs2.
  exec_mod (set_color_focus _ _ _ BLACK Vs2) s3 Vr3.
  apply rep_at_go_up, rep_at_to_sibling in Vr3. unfold plug1, fflip in Vr3; simpl in Vr3.
  exec (get_parent_focus _ _ _ Vr3).
  apply rep_at_go_up in Vr3. unfold plug1 in Vr3; simpl in Vr3.
  destruct (rotateRight_focus _ _ _ _ Vr3 eq_refl) as (s4 & E4 & V4 & Hr4 & Hm4).
  simpl in E4. exec E4.
  exists s4. split; [done|]. split; [done|]. split.
  - rewrite Hr4. destruct ctx1; [done|]. congruence.
  - eapply same_meta_trans; [|exact Hm4]. apply same_meta_mp. congruence.
Qed.

Lemma eraseSort_body_spec s ctx t ctx' t' b :
  rep_at s ctx t ->
  (ctx <> [] -> root (mp s) = Some (top_addr ctx t)) ->
  z_eraseSort_body ctx t = Some (ctx', t', b) ->
  exists s',
    eraseSort_body (Some (addr t)) s
      = Ok (if b then Some (Some (addr t')) else None, s') /\
    rep_at s' ctx' t' /\
    root (mp s') = Some (top_addr ctx' t') /\
    same_meta s s'.
Proof.
  intros V Hroot Hz. unfold eraseSort_body.
  exec (isRoot_focus _ _ _ V).
  destruct ctx as [|f ctx1]; simpl in Hz.
  - simplify_eq. rewrite bool_decide_eq_true_2 by done.
    exec_mod (set_color_focus _ _ _ BLACK V) s1 V1.
    exec (set_root_ok (Some (addr t)) s1).
    exists (with_root (Some (addr t)) s1). split; [done|]. split.
    { by apply (rep_at_nodes s1). } split.
    + simpl. by rewrite addr_recolor.
    + apply same_meta_mp in Hm. by destruct Hm.
  - rewrite bool_decide_eq_false_2 by done.
    exec (isRed_focus _ _ _ V).
    destruct (color_of t) eqn:Ect.
    { simplify_eq. exec_mod (set_color_focus _ _ _ BLACK V) s1 V1.
      exists s1. split; [done|]. split; [done|]. split.
      - rewrite Hm, Hroot by done. f_equal. apply top_addr_cons.
      - by apply same_meta_mp. }
    exec (getSibling_focus _ _ _ _ V).
    assert (root (mp s) = Some (top_addr ctx1 (plug1 f t))) as Hroot1.
    { by rewrite Hroot. }
    clear Hroot.
    destruct f as [il pa pc pk pv sib]. simpl in *.
    destruct sib as [|sa sc sl sk sv sr]; [done|].
    pose proof V as Vs. apply rep_at_to_sibling in Vs. unfold fflip in Vs; simpl in Vs.
    exec (isRed_focus _ _ _ Vs).
    destruct il; simpl in *.
    + (* the node is a left child *)
      destruct sc.
      * (* sibling RED *)
        simplify_eq.
        exec_mod (set_color_focus _ _ _ BLACK Vs) s1 Vs1.
        apply rep_at_to_sibling in Vs1. unfold fflip in Vs1; simpl in Vs1.
        exec (get_parent_focus _ _ _ Vs1).
        exec_mod (set_color_parent _ _ _ _ RED Vs1) s2 V2.
        unfold fcol in V2; simpl in V2.
        exec (isLeft_focus _ _ _ _ V2). simpl.
        exec (get_parent_focus _ _ _ V2).
        apply rep_at_go_up in V2. unfold plug1 in V2; simpl in V2.
        destruct (rotateLeft_focus _ _ _ _ V2 eq_refl) as (s3 & E3 & V3 & Hr3 & Hm3).
        simpl in E3. exec E3.
        exists s3. split; [done|]. split.
        { apply rep_at_go_down. apply rep_at_go_down. exact V3. }
        split.
        -- simpl. eapply root_after_rotate; [|exact Hr3]. intros _. rewrite <- Hroot1. congruence.
        -- eapply same_meta_trans; [|exact Hm3]. apply same_meta_mp. congruence.
      * exec (get_left_focus _ _ _ Vs).
        pose proof (rep_at_go_down _ (Frame true sa false sk sv sr) _ _ Vs) as Vsl.
        pose proof (rep_at_go_down _ (Frame false sa false sk sv sl) _ _ Vs) as Vsr.
        exec (isBlack_focus _ _ _ Vsl).
        lazymatch goal with
        | |- exists s', bind _ ?K s = _ /\ _ => set (Kboth := K)
        end.
        assert (negb (color_of sl) && negb (color_of sr) = false ->
                exists s', Kboth false s
                  = Ok (if b then Some (Some (addr t')) else None, s') /\
                  rep_at s' ctx' t' /\
                  root (mp s') = Some (top_addr ctx' t') /\ same_meta s s') as Hfar.
        { intros Hnb. rewrite Hnb in Hz. unfold Kboth. simpl.
          exec (isLeft_focus _ _ _ _ V). simpl.
          exec (get_right_focus _ _ _ Vs).
          exec (isBlack_focus _ _ _ Vsr).
          destruct (color_of sr) eqn:Ecr; simpl in *.
          - exec (ret_ok (Some sa) s).
            exec (isRight_focus _ _ _ _ V). simpl.
            exec (ret_ok false s). exec (ret_ok (Some sa) s).
            simplify_eq.
            destruct (erase_far_left _ _ _ _ _ _ _ _ _ _ _ _ _ V)
              as (s1 & E1 & V1 & Hr1 & Hm1).
            exists s1. split; [exact E1|]. split; [done|]. split; [|done].
            eapply root_after_rotate; [|exact Hr1]. intros _. exact Hroot1.
          - rewrite andb_true_r in Hnb. apply negb_false_iff in Hnb.
            destruct sl as [|la lc ll lk lv lr]; [done|]. simpl in *. simplify_eq.
            exec (get_left_focus _ _ _ Vs).
            exec_mod (set_color_focus _ _ _ RED Vs) s1 Vs1. simpl in Vs1.
            apply (rep_at_go_down _ (Frame true sa RED sk sv sr)) in Vs1.
            exec_mod (set_color_focus _ _ _ BLACK Vs1) s2 Vs2. simpl in Vs2.
            apply rep_at_go_up in Vs2. unfold plug1 in Vs2; simpl in Vs2.
            destruct (rotateRight_focus _ _ _ _ Vs2 eq_refl) as (s3 & E3 & V3 & Hr3 & Hm3).
            simpl in E3. exec E3.
            apply rep_at_to_sibling in V3. unfold fflip in V3; simpl in V3.
            exec (getSibling_focus _ _ _ _ V3). simpl.
            exec (isRight_focus _ _ _ _ V3). simpl.
            exec (ret_ok false s3). exec (ret_ok (Some la) s3).
            destruct (erase_far_left _ _ _ _ _ _ _ _ _ _ _ _ _ V3)
              as (s4 & E4 & V4 & Hr4 & Hm4).
            exists s4. split; [exact E4|]. split; [done|]. split.
            + eapply root_after_rotate; [|exact Hr4]. intros _.
              rewrite <- Hroot1. simpl in Hr3. congruence.
            + eapply same_meta_trans; [|exact Hm4].
              eapply same_meta_trans; [|exact Hm3]. apply same_meta_mp. congruence. }
        destruct (color_of sl) eqn:Ecl; simpl.
        { exec (ret_ok false s). by apply Hfar. }
        exec (get_right_focus _ _ _ Vs).
        exec (isBlack_focus _ _ _ Vsr).
        destruct (color_of sr) eqn:Ecr; simpl.
        { by apply Hfar. }
        clear Hfar. unfold Kboth. simpl in *. simplify_eq.
        exec_mod (set_color_focus _ _ _ RED Vs) s1 Vs1. simpl in Vs1.
        apply rep_at_to_sibling in Vs1. unfold fflip in Vs1; simpl in Vs1.
        exec (get_parent_focus _ _ _ Vs1).
        exists s1. split; [done|]. split; [by apply rep_at_go_up in Vs1|].
        split; [|by apply same_meta_mp].
        rewrite Hm, Hroot1. f_equal. by apply top_addr_same.
    + (* the node is a right child *)
      destruct sc.
      * simplify_eq.
        exec_mod (set_color_focus _ _ _ BLACK Vs) s1 Vs1.
        apply rep_at_to_sibling in Vs1. unfold fflip in Vs1; simpl in Vs1.
        exec (get_parent_focus _ _ _ Vs1).
        exec_mod (set_color_parent _ _ _ _ RED Vs1) s2 V2.
        unfold fcol in V2; simpl in V2.
        exec (isLeft_focus _ _ _ _ V2). simpl.
        exec (get_parent_focus _ _ _ V2).
        apply rep_at_go_up in V2. unfold plug1 in V2; simpl in V2.
        destruct (rotateRight_focus _ _ _ _ V2 eq_refl) as (s3 & E3 & V3 & Hr3 & Hm3).
        simpl in E3. exec E3.
        exists s3. split; [done|]. split.
        { apply rep_at_go_down. apply rep_at_go_down. exact V3. }
        split.
        -- simpl. eapply root_after_rotate; [|exact Hr3]. intros _. rewrite <- Hroot1. congruence.
        -- eapply same_meta_trans; [|exact Hm3]. apply same_meta_mp. congruence.
      * exec (get_left_focus _ _ _ Vs).
        pose proof (rep_at_go_down _ (Frame true sa false sk sv sr) _ _ Vs) as Vsl.
        pose proof (rep_at_go_down _ (Frame false sa false sk sv sl) _ _ Vs) as Vsr.
        exec (isBlack_focus _ _ _ Vsl).
        lazymatch goal with
        | |- exists s', bind _ ?K s = _ /\ _ => set (Kboth := K)
        end.
        assert (negb (color_of sl) && negb (color_of sr) = false ->
                exists s', Kboth false s
                  = Ok (if b then Some (Some (addr t')) else None, s') /\
                  rep_at s' ctx' t' /\
                  root (mp s') = Some (top_addr ctx' t') /\ same_meta s s') as Hfar.
        { intros Hnb. rewrite Hnb in Hz. unfold Kboth. simpl.
          exec (isLeft_focus _ _ _ _ V). simpl.
          exec (ret_ok false s). exec (ret_ok (Some sa) s).
          exec (isRight_focus _ _ _ _ V). simpl.
          exec (get_left_focus _ _ _ Vs).
          exec (isBlack_focus _ _ _ Vsl).
          destruct (color_of sl) eqn:Ecl; simpl in *.
          - exec (ret_ok (Some sa) s).
            simplify_eq.
            destruct (erase_far_right _ _ _ _ _ _ _ _ _ _ _ _ _ V)
              as (s1 & E1 & V1 & Hr1 & Hm1).
            exists s1. split; [exact E1|]. split; [done|]. split; [|done].
            eapply root_after_rotate; [|exact Hr1]. intros _. exact Hroot1.
          - apply negb_false_iff in Hnb.
            destruct sr as [|ra rc rl rk rv rr]; [done|]. simpl in *. simplify_eq.
            exec (get_right_focus _ _ _ Vs).
            exec_mod (set_color_focus _ _ _ RED Vs) s1 Vs1. simpl in Vs1.
            apply (rep_at_go_down _ (Frame false sa RED sk sv sl)) in Vs1.
            exec_mod (set_color_focus _ _ _ BLACK Vs1) s2 Vs2. simpl in Vs2.
            apply rep_at_go_up in Vs2. unfold plug1 in Vs2; simpl in Vs2.
            destruct (rotateLeft_focus _ _ _ _ Vs2 eq_refl) as (s3 & E3 & V3 & Hr3 & Hm3).
            simpl in E3. exec E3.
            apply rep_at_to_sibling in V3. unfold fflip in V3; simpl in V3.
            exec (getSibling_focus _ _ _ _ V3). simpl.
            destruct (erase_far_right _ _ _ _ _ _ _ _ _ _ _ _ _ V3)
              as (s4 & E4 & V4 & Hr4 & Hm4).
            exists s4. split; [exact E4|]. split; [done|]. split.
            + eapply root_after_rotate; [|exact Hr4]. intros _.
              rewrite <- Hroot1. simpl in Hr3. congruence.
            + eapply same_meta_trans; [|exact Hm4].
              eapply same_meta_trans; [|exact Hm3]. apply same_meta_mp. congruence. }
        destruct (color_of sl) eqn:Ecl; simpl.
        { exec (ret_ok false s). by apply Hfar. }
        exec (get_right_focus _ _ _ Vs).
        exec (isBlack_focus _ _ _ Vsr).
        destruct (color_of sr) eqn:Ecr; simpl.
        { by apply Hfar. }
        clear Hfar. unfold Kboth. simpl in *. simplify_eq.
        exec_mod (set_color_focus _ _ _ RED Vs) s1 Vs1. simpl in Vs1.
        apply rep_at_to_sibling in Vs1. unfold fflip in Vs1; simpl in Vs1.
        exec (get_parent_focus _ _ _ Vs1).
        exists s1. split; [done|]. split; [by apply rep_at_go_up in Vs1|].
        split; [|by apply same_meta_mp].
        rewrite Hm, Hroot1. f_equal. by apply top_addr_same.
Qed.

(** The fix-ups, run to completion. *)
Fixpoint z_insertSort (fuel : nat) (ctx : list frame) (t : ptree)
    : option (list frame * ptree) :=
  match fuel with
  | O => None
  | S fuel' =>
      match z_insertSort_body ctx t with
      | Some (ctx', t', true) => z_insertSort fuel' ctx' t'
      | Some (ctx', t', false) => Some (ctx', t')
      | None => None
      end
  end.

Fixpoint z_eraseSort (fuel : nat) (ctx : list frame) (t : ptree)
    : option (list frame * ptree) :=
  match fuel with
  | O => None
  | S fuel' =>
      match z_eraseSort_body ctx t with
      | Some (ctx', t', true) => z_eraseSort fuel' ctx' t'
      | Some (ctx', t', false) => Some (ctx', t')
      | None => None
      end
  end.

Lemma insertSort_spec fuel s ctx t ctx' t' :
  rep_at s ctx t ->
  (ctx <> [] -> root (mp s) = Some (top_addr ctx t)) ->
  z_insertSort fuel ctx t = Some (ctx', t') ->
  exists s',
    insertSort fuel (Some (addr t)) s = Ok (tt, s') /\
    rep_at s' ctx' t' /\
    root (mp s') = Some (top_addr ctx' t') /\
    same_meta s s'.
Proof.
  revert s ctx t. induction fuel as [|fuel IH]; intros s ctx t V Hroot Hz; [done|].
  simpl in Hz. destruct (z_insertSort_body ctx t) as [[[ctx1 t1] b]|] eqn:Ez; [|done].
  destruct (insertSort_body_spec _ _ _ _ _ _ V Hroot Ez) as (s1 & E1 & V1 & Hr1 & Hm1).
  simpl. exec E1. destruct b.
  - destruct (IH _ _ _ V1 (fun _ => Hr1) Hz) as (s2 & E2 & V2 & Hr2 & Hm2).
    exists s2. split; [done|]. split; [done|]. split; [done|].
    by eapply same_meta_trans.
  - simplify_eq. by exists s1.
Qed.

Lemma eraseSort_spec fuel s ctx t ctx' t' :
  rep_at s ctx t ->
  (ctx <> [] -> root (mp s) = Some (top_addr ctx t)) ->
  z_eraseSort fuel ctx t = Some (ctx', t') ->
  exists s',
    eraseSort fuel (Some (addr t)) s = Ok (tt, s') /\
    rep_at s' ctx' t' /\
    root (mp s') = Some (top_addr ctx' t') /\
    same_meta s s'.
Proof.
  revert s ctx t. induction fuel as [|fuel IH]; intros s ctx t V Hroot Hz; [done|].
  simpl in Hz. destruct (z_eraseSort_body ctx t) as [[[ctx1 t1] b]|] eqn:Ez; [|done].
  destruct (eraseSort_body_spec _ _ _ _ _ _ V Hroot Ez) as (s1 & E1 & V1 & Hr1 & Hm1).
  simpl. exec E1. destruct b.
  - destruct (IH _ _ _ V1 (fun _ => Hr1) Hz) as (s2 & E2 & V2 & Hr2 & Hm2).
    exists s2. split; [done|]. split; [done|]. split; [done|].
    by eapply same_meta_trans.
  - simplify_eq. by exists s1.
Qed.

(** ** Lookup and traversal *)

Fixpoint height (t : ptree) : nat :=
  match t with
  | PLeaf _ _ => 0
  | PNode _ _ l _ _ r => S (Nat.max (height l) (height r))
  end.

Fixpoint z_findNode (cmp : CompareFunc) (k : keyItem) (ctx : list frame) (t : ptree)
    : list frame * ptree :=
  match t with
  | PLeaf _ _ => (ctx, t)
  | PNode a c l k' v r =>
      if (cmp k k' =? 1)%N then z_findNode cmp k (Frame true a c k' v r :: ctx) l
      else if (cmp k k' =? 2)%N then z_findNode cmp k (Frame false a c k' v l :: ctx) r
      else (ctx, t)
  end.

Fixpoint inorder (t : ptree) : list Pair :=
  match t with
  | PLeaf _ _ => []
  | PNode _ _ l k v r => inorder l ++ mkPair k v :: inorder r
  end.

Lemma findNode_spec fuel s ctx t k :
  rep_at s ctx t -> height t < fuel ->
  findNode fuel (Some (addr t)) k s
    = Ok (Some (addr (z_findNode (compareFunc (mp s)) k ctx t).2), s) /\
  rep_at s (z_findNode (compareFunc (mp s)) k ctx t).1
           (z_findNode (compareFunc (mp s)) k ctx t).2.
Proof.
  revert ctx t. induction fuel as [|fuel IH]; intros ctx t V Hf; [lia|].
  simpl. exec (isLeaf_focus _ _ _ V).
  destruct t as [a c|a c l k' v r]; simpl in *; [done|].
  exec (get_key_focus _ _ _ V).
  unfold compare at 1. unfold bind at 1.
  destruct (compareFunc (mp s) k k' =? 1)%N.
  { exec (get_left_focus _ _ _ V).
    apply (IH (Frame true a c k' v r :: ctx) l); [by apply rep_at_go_down|lia]. }
  destruct (compareFunc (mp s) k k' =? 2)%N.
  { exec (get_right_focus _ _ _ V).
    apply (IH (Frame false a c k' v l :: ctx) r); [by apply rep_at_go_down|lia]. }
  done.
Qed.

Lemma ran_spec fuel s ctx t :
  rep_at s ctx t -> height t < fuel ->
  ran fuel (Some (addr t)) s = Ok (inorder t, s).
Proof.
  revert ctx t. induction fuel as [|fuel IH]; intros ctx t V Hf; [lia|].
  simpl. exec (isLeaf_focus _ _ _ V).
  destruct t as [a c|a c l k v r]; simpl in *; [done|].
  exec (get_left_focus _ _ _ V).
  rewrite (bind_ok _ _ _ _ _ (IH (Frame true a c k v r :: ctx) l
             ltac:(by apply rep_at_go_down) ltac:(lia))).
  exec (get_key_focus _ _ _ V). exec (get_val_focus _ _ _ V).
  exec (get_right_focus _ _ _ V).
  rewrite (bind_ok _ _ _ _ _ (IH (Frame false a c k v l :: ctx) r
             ltac:(by apply rep_at_go_down) ltac:(lia))).
  done.
Qed.

(** ** Allocation *)

Lemma alloc_ok n s :
  exists l, nodes s !! l = None /\
            alloc n s = Ok (Some l, mkStore (mp s) (<[l := n]> (nodes s))).
Proof.
  exists (fresh (dom (nodes s))). split; [|done].
  apply not_elem_of_dom. apply is_fresh.
Qed.

Lemma rep_allocated h par t x : rep h par t -> x ∈ addrs t -> is_Some (h !! x).
Proof.
  revert par. induction t as [b c|b c l IHl k v r IHr]; intros par Hr Hx; simpl in *.
  - apply list_elem_of_singleton in Hx as ->. destruct Hr as [-> _]. eauto.
  - destruct Hr as (Hb & Hl & Hr).
    apply elem_of_cons in Hx as [->|Hx]; [eauto|].
    apply elem_of_app in Hx as [Hx|Hx]; eauto.
Qed.

Lemma rep_ctx_allocated h child ctx x :
  rep_ctx h child ctx -> x ∈ ctx_addrs ctx -> is_Some (h !! x).
Proof.
  revert child. induction ctx as [|f ctx IH]; intros child Hc Hx; simpl in *.
  - by apply elem_of_nil in Hx.
  - destruct Hc as (Hf & Hs & Hc). unfold frame_addrs in Hx.
    apply elem_of_cons in Hx as [->|Hx]; [eauto|].
    apply elem_of_app in Hx as [Hx|Hx]; [|eauto].
    eapply rep_allocated; eauto.
Qed.

Lemma fresh_not_in_tree h par t x : rep h par t -> h !! x = None -> x ∉ addrs t.
Proof.
  intros Hr Hx Hin. destruct (rep_allocated _ _ _ _ Hr Hin) as [n Hn]. congruence.
Qed.

Lemma fresh_not_in_ctx h child ctx x :
  rep_ctx h child ctx -> h !! x = None -> x ∉ ctx_addrs ctx.
Proof.
  intros Hr Hx Hin. destruct (rep_ctx_allocated _ _ _ _ Hr Hin) as [n Hn]. congruence.
Qed.

(** The part of [insertNode] before the fix-up turns the sentinel in
    focus into a RED node with two fresh sentinels. *)
Lemma insertNode_prefix s ctx a c k v (K : M unit) :
  rep_at s ctx (PLeaf a c) ->
  exists l r s1,
    rep_at s1 ctx (PNode a RED (PLeaf l BLACK) k v (PLeaf r BLACK)) /\
    mp s1 = mp s /\
    (set_key (Some a) k ;;;
     set_val (Some a) v ;;;
     set_color (Some a) RED ;;;
     l <- newLeaf ;
     set_left (Some a) l ;;;
     r <- newLeaf ;
     set_right (Some a) r ;;;
     nl <- get_left (Some a) ;
     set_parent nl (Some a) ;;;
     nr <- get_right (Some a) ;
     set_parent nr (Some a) ;;;
     K) s = K s1.
Proof.
  intros [Ht Hc Hn]. simpl in *. destruct Ht as [Ha _]. unfold cell in Ha; simpl in Ha.
  unfold set_key, set_val, set_color, set_left, set_right, set_parent,
    get_left, get_right, newLeaf.
  unfold modify at 1. unfold bind at 1. rewrite Ha. simpl.
  unfold modify at 1. unfold bind at 1. simpl. rewrite lookup_insert_eq. simpl.
  unfold modify at 1. unfold bind at 1. simpl. rewrite lookup_insert_eq. simpl.
  match goal with |- context [bind (alloc ?n) _ ?s0] =>
    destruct (alloc_ok n s0) as (l & Hl & El) end.
  rewrite (bind_ok _ _ _ _ _ El). simpl in Hl.
  rewrite !lookup_insert_None in Hl. destruct Hl as (((Hl & Hl1) & _) & _).
  unfold modify at 1. unfold bind at 1. simpl.
  rewrite lookup_insert_ne by done. rewrite lookup_insert_eq. simpl.
  match goal with |- context [bind (alloc ?n) _ ?s0] =>
    destruct (alloc_ok n s0) as (r & Hr & Er) end.
  rewrite (bind_ok _ _ _ _ _ Er). simpl in Hr.
  rewrite !lookup_insert_None in Hr. destruct Hr as (((((Hr & Hr1) & _) & _) & Hr2) & _).
  unfold modify, load, bind, ret. simpl.
  assert (a <> l) by done. assert (a <> r) by done. assert (l <> r) by done.
  heap_run.
  eexists l, r, _. split; [|split; [|reflexivity]]; [|done].
  match goal with |- rep_at (mkStore _ ?h') _ _ =>
    assert (agree_off [a; l; r] (nodes s) h') as Hag by agree_tac end.
  pose proof (fresh_not_in_ctx _ _ _ _ Hc Hl) as Hlc.
  pose proof (fresh_not_in_ctx _ _ _ _ Hc Hr) as Hrc.
  apply NoDup_cons in Hn as [Hac Hn].
  split; simpl.
  - unfold cell. simpl. heap_run. done.
  - eapply rep_ctx_agree; [exact Hag| |done]. in_D sep.
  - apply NoDup_cons. split.
    { rewrite !elem_of_cons. intros [?|[?|?]]; done. }
    apply NoDup_cons. split.
    { rewrite !elem_of_cons. intros [?|?]; done. }
    apply NoDup_cons. split; done.
Qed.

(** ** Splicing a node out *)

Lemma nodup_right_kid a l r c :
  NoDup ((a :: addrs l ++ addrs r) ++ c) -> NoDup (addrs r ++ c).
Proof.
  intros Hn. eapply sublist_NoDup; [exact Hn|].
  apply sublist_app; [|done]. apply sublist_cons. by apply sublist_inserts_l.
Qed.

Lemma nodup_left_kid a l r c :
  NoDup ((a :: addrs l ++ addrs r) ++ c) -> NoDup (addrs l ++ c).
Proof.
  intros Hn. eapply sublist_NoDup; [exact Hn|].
  apply sublist_app; [|done]. apply sublist_cons. by apply sublist_inserts_r.
Qed.

(** The node in focus is replaced by its right child.  The root pointer
    of the map is not touched: when the node was the root it is stale
    until the fix-up writes it. *)
Lemma splice_right s ctx a c l k v r :
  rep_at s ctx (PNode a c l k v r) ->
  exists s1,
    rep_at s1 ctx r /\ mp s1 = mp s /\
    (rightChild <- get_right (Some a) ;
     parent <- get_parent (Some a) ;
     set_parent rightChild parent ;;;
     (if bool_decide (parent <> None) then
        il <- isLeft (Some a) ;
        if il then set_left parent rightChild
        else set_right parent rightChild
      else ret tt) ;;;
     nb <- isBlack (Some a) ;
     if nb then ret (Some rightChild) else ret None) s
    = Ok (if negb c then Some (Some (addr r)) else None, s1).
Proof.
  intros V.
  exec (get_right_focus _ _ _ V). exec (get_parent_focus _ _ _ V).
  destruct V as [Ht Hc Hn]. simpl in *.
  destruct Ht as (Ha & Hl & Hr).
  pose proof (rep_root_cell _ _ _ Hr) as Hx.
  pose proof (nodup_right_kid _ _ _ _ Hn) as Hn'.
  assert (kept (NoDup (addrs r ++ ctx_addrs ctx))) as Hn'' by exact Hn'. clear Hn'.
  unfold cell in Ha, Hx; simpl in Ha, Hx.
  destruct ctx as [|f ctx]; simpl in *.
  - sep_facts.
    unfold set_parent, isBlack, get_color, modify, load, bind, ret.
    rewrite Hx. heap_run. rewrite Ha. heap_run.
    destruct c; simpl.
    all: eexists; (split; [|split]); cycle 2; [reflexivity| |reflexivity].
    all: match goal with |- rep_at (mkStore _ ?h') _ _ =>
      assert (agree_off [addr r] (nodes s) h') as Hag by agree_tac end.
    all: split; simpl; [|done|exact Hn''].
    all: eapply rep_reroot; [exact Hag| |done|exact Hr|by heap_run].
    all: in_D ltac:(by left).
  - destruct Hc as (Hf & Hs & Hc). unfold frame_addrs in *. simpl in *.
    sep_facts.
    assert (a <> addr (f_sib f)) by sep.
    unfold isLeft, get_parent, get_left, set_left, set_right, set_parent,
      isBlack, get_color, modify, load, bind, ret.
    unfold frame_cell in Hf.
    destruct (f_isLeft f) eqn:EL.
    all: rewrite Hx; heap_run; rewrite Ha; heap_run; rewrite Hf; heap_run.
    all: rewrite ?bool_decide_eq_true_2 by done;
         rewrite ?bool_decide_eq_false_2 by congruence;
         heap_run; rewrite ?Hf; heap_run; rewrite ?Ha; heap_run.
    all: destruct c; simpl.
    all: eexists; (split; [|split]); cycle 2; [reflexivity| |reflexivity].
    all: match goal with |- rep_at (mkStore _ ?h') _ _ =>
      assert (agree_off [f_addr f; addr r] (nodes s) h') as Hag by agree_tac end.
    all: split; simpl; [| |exact Hn''].
    all: try (eapply rep_reroot; [exact Hag| |done|exact Hr|by heap_run];
              in_D ltac:(first [by left|right; sep])).
    all: heap_run; unfold frame_cell; rewrite EL; (split; [done|]); split;
      [ eapply rep_agree; [exact Hag| |done]; in_D sep
      | eapply rep_ctx_agree; [exact Hag| |done]; in_D sep ].
Qed.

Lemma splice_left s ctx a c l k v r :
  rep_at s ctx (PNode a c l k v r) ->
  exists s1,
    rep_at s1 ctx l /\ mp s1 = mp s /\
    (leftChild <- get_left (Some a) ;
     parent <- get_parent (Some a) ;
     set_parent leftChild parent ;;;
     (if bool_decide (parent <> None) then
        il <- isLeft (Some a) ;
        if il then set_left parent leftChild
        else set_right parent leftChild
      else ret tt) ;;;
     nb <- isBlack (Some a) ;
     if nb then ret (Some leftChild) else ret None) s
    = Ok (if negb c then Some (Some (addr l)) else None, s1).
Proof.
  intros V.
  exec (get_left_focus _ _ _ V). exec (get_parent_focus _ _ _ V).
  destruct V as [Ht Hc Hn]. simpl in *.
  destruct Ht as (Ha & Hl & Hr).
  pose proof (rep_root_cell _ _ _ Hl) as Hx.
  pose proof (nodup_left_kid _ _ _ _ Hn) as Hn'.
  assert (kept (NoDup (addrs l ++ ctx_addrs ctx))) as Hn'' by exact Hn'. clear Hn'.
  unfold cell in Ha, Hx; simpl in Ha, Hx.
  destruct ctx as [|f ctx]; simpl in *.
  - sep_facts.
    unfold set_parent, isBlack, get_color, modify, load, bind, ret.
    rewrite Hx. heap_run. rewrite Ha. heap_run.
    destruct c; simpl.
    all: eexists; (split; [|split]); cycle 2; [reflexivity| |reflexivity].
    all: match goal with |- rep_at (mkStore _ ?h') _ _ =>
      assert (agree_off [addr l] (nodes s) h') as Hag by agree_tac end.
    all: split; simpl; [|done|exact Hn''].
    all: eapply rep_reroot; [exact Hag| |done|exact Hl|by heap_run].
    all: in_D ltac:(by left).
  - destruct Hc as (Hf & Hs & Hc). unfold frame_addrs in *. simpl in *.
    sep_facts.
    assert (a <> addr (f_sib f)) by sep.
    unfold isLeft, get_parent, get_left, set_left, set_right, set_parent,
      isBlack, get_color, modify, load, bind, ret.
    unfold frame_cell in Hf.
    destruct (f_isLeft f) eqn:EL.
    all: rewrite Hx; heap_run; rewrite Ha; heap_run; rewrite Hf; heap_run.
    all: rewrite ?bool_decide_eq_true_2 by done;
         rewrite ?bool_decide_eq_false_2 by congruence;
         heap_run; rewrite ?Hf; heap_run; rewrite ?Ha; heap_run.
    all: destruct c; simpl.
    all: eexists; (split; [|split]); cycle 2; [reflexivity| |reflexivity].
    all: match goal with |- rep_at (mkStore _ ?h') _ _ =>
      assert (agree_off [f_addr f; addr l] (nodes s) h') as Hag by agree_tac end.
    all: split; simpl; [| |exact Hn''].
    all: try (eapply rep_reroot; [exact Hag| |done|exact Hl|by heap_run];
              in_D ltac:(first [by left|right; sep])).
    all: heap_run; unfold frame_cell; rewrite EL; (split; [done|]); split;
      [ eapply rep_agree; [exact Hag| |done]; in_D sep
      | eapply rep_ctx_agree; [exact Hag| |done]; in_D sep ].
Qed.

(** ** Deleting a node *)

(** The frames from the rightmost sentinel of [t] up to the root of [t],
    innermost first, and that sentinel. *)
Fixpoint rightpath (t : ptree) : list frame * ptree :=
  match t with
  | PLeaf _ _ => ([], t)
  | PNode a c l k v r =>
      ((rightpath r).1 ++ [Frame false a c k v l], (rightpath r).2)
  end.

(** A node with a sentinel child is replaced by its other child; the
    flag tells that the node was BLACK, so that a fix-up follows. *)
Definition z_splice1 (ctx : list frame) (t : ptree)
    : option (list frame * ptree * bool) :=
  match t with
  | PLeaf _ _ => None
  | PNode a c l k v r =>
      if is_leaf l then Some (ctx, r, negb c)
      else if is_leaf r then Some (ctx, l, negb c)
      else None
  end.

Definition z_eraseNode_splice (ctx : list frame) (t : ptree)
    : option (list frame * ptree * bool) :=
  match t with
  | PLeaf _ _ => None
  | PNode a c l k v r =>
      if is_leaf l then Some (ctx, r, negb c)
      else if is_leaf r then Some (ctx, l, negb c)
      else
        match rightpath l with
        | (f :: p, leaf) =>
            z_splice1 (p ++ Frame true a c (f_key f) (f_val f) r :: ctx)
                      (plug1 f leaf)
        | ([], _) => None
        end
  end.

Lemma key_plug1 f t : key_of (plug1 f t) = f_key f.
Proof. unfold plug1. by destruct (f_isLeft f). Qed.

Lemma val_plug1 f t : val_of (plug1 f t) = f_val f.
Proof. unfold plug1. by destruct (f_isLeft f). Qed.

Lemma getLeftMostChild_loop_spec fuel s ctx t :
  rep_at s ctx t -> height t < fuel ->
  getLeftMostChild_loop fuel (Some (addr t)) s
    = Ok (Some (addr (rightpath t).2), s) /\
  rep_at s ((rightpath t).1 ++ ctx) (rightpath t).2.
Proof.
  revert ctx t. induction fuel as [|fuel IH]; intros ctx t V Hf; [lia|].
  simpl. exec (isLeaf_focus _ _ _ V).
  destruct t as [a c|a c l k v r]; simpl in *; [done|].
  exec (get_right_focus _ _ _ V).
  rewrite <- app_assoc. simpl.
  apply (IH (Frame false a c k v l :: ctx) r); [by apply rep_at_go_down|lia].
Qed.

Lemma eraseNode_splice1_spec fuel s ctx t ctx' t' b :
  rep_at s ctx t ->
  z_splice1 ctx t = Some (ctx', t', b) ->
  exists s',
    eraseNode_splice (S fuel) (Some (addr t)) s
      = Ok (if b then Some (Some (addr t')) else None, s') /\
    rep_at s' ctx' t' /\ mp s' = mp s.
Proof.
  intros V Hz. destruct t as [|a c l k v r]; [done|]. simpl in *.
  exec (get_left_focus _ _ _ V).
  pose proof (rep_at_go_down _ (Frame true a c k v r) _ _ V) as Vl.
  pose proof (rep_at_go_down _ (Frame false a c k v l) _ _ V) as Vr.
  exec (isLeaf_focus _ _ _ Vl).
  destruct (is_leaf l).
  { simplify_eq. destruct (splice_right _ _ _ _ _ _ _ _ V) as (s1 & V1 & Hm1 & E1).
    exists s1. split; [exact E1|done]. }
  exec (get_right_focus _ _ _ V). exec (isLeaf_focus _ _ _ Vr).
  destruct (is_leaf r); [|done].
  simplify_eq. destruct (splice_left _ _ _ _ _ _ _ _ V) as (s1 & V1 & Hm1 & E1).
  exists s1. split; [exact E1|done].
Qed.

Lemma eraseNode_splice_spec fuel s ctx t ctx' t' b :
  rep_at s ctx t -> height t < fuel ->
  z_eraseNode_splice ctx t = Some (ctx', t', b) ->
  exists s',
    eraseNode_splice fuel (Some (addr t)) s
      = Ok (if b then Some (Some (addr t')) else None, s') /\
    rep_at s' ctx' t' /\ mp s' = mp s.
Proof.
  intros V Hf Hz. destruct fuel as [|fuel]; [lia|].
  destruct t as [|a c l k v r]; [done|].
  destruct (is_leaf l) eqn:ELl.
  { eapply eraseNode_splice1_spec; [exact V|]. simpl in *. by rewrite ELl in *. }
  destruct (is_leaf r) eqn:ELr.
  { eapply eraseNode_splice1_spec; [exact V|]. simpl in *. by rewrite ELl, ELr in *. }
  simpl in Hz. rewrite ELl, ELr in Hz. simpl in Hf |- *.
  exec (get_left_focus _ _ _ V).
  pose proof (rep_at_go_down _ (Frame true a c k v r) _ _ V) as Vl.
  pose proof (rep_at_go_down _ (Frame false a c k v l) _ _ V) as Vr.
  exec (isLeaf_focus _ _ _ Vl). rewrite ELl.
  exec (get_right_focus _ _ _ V). exec (isLeaf_focus _ _ _ Vr). rewrite ELr.
  unfold getLeftMostChild.
  exec (get_left_focus _ _ _ V).
  destruct (getLeftMostChild_loop_spec fuel _ _ _ Vl ltac:(lia)) as [El Vleaf].
  exec El.
  destruct (rightpath l) as [[|f p] leaf] eqn:Erp; [done|]. simpl in *.
  exec (get_parent_focus _ _ _ Vleaf).
  pose proof (rep_at_go_up _ _ _ _ Vleaf) as Vpred.
  exec (get_key_focus _ _ _ Vpred). rewrite key_plug1.
  exec (get_val_focus _ _ _ Vpred). rewrite val_plug1.
  exec_mod (set_key_focus _ _ _ _ _ _ _ _ (f_key f) V) s1 V1.
  exec_mod (set_val_focus _ _ _ _ _ _ _ _ (f_val f) V1) s2 V2.
  apply (rep_at_go_down _ (Frame true a c (f_key f) (f_val f) r)) in V2.
  destruct (getLeftMostChild_loop_spec (S (height l)) _ _ _ V2 ltac:(lia)) as [_ Vleaf2].
  rewrite Erp in Vleaf2. simpl in Vleaf2. apply rep_at_go_up in Vleaf2.
  destruct fuel as [|fuel]; [lia|].
  destruct (eraseNode_splice1_spec fuel _ _ _ _ _ _ Vleaf2 Hz) as (s3 & E3 & V3 & Hm3).
  rewrite addr_plug1 in E3.
  exists s3. split; [exact E3|]. split; [done|congruence].
Qed.

(** ** The public methods on trees

    [None] stands for a run that dereferences nil, runs out of fuel, or
    leaves the root pointer of the map on a node that was spliced out. *)

Definition z_Add (cmp : CompareFunc) (fuel : nat) (k : keyItem) (v : valItem)
    (l r : loc) (T : ptree) : option (ptree * option error) :=
  match z_findNode cmp k [] T with
  | (ctx, PLeaf a c) =>
      match z_insertSort fuel ctx (PNode a RED (PLeaf l BLACK) k v (PLeaf r BLACK)) with
      | Some (ctx', t') => Some (plug ctx' t', None)
      | None => None
      end
  | (ctx, PNode a c tl k' v' tr) =>
      Some (plug ctx (PNode a c tl k' v tr), Some ErrNodeAlreadyExists)
  end.

Definition z_Delete (cmp : CompareFunc) (fuel : nat) (k : keyItem) (T : ptree)
    : option (ptree * option error) :=
  match z_findNode cmp k [] T with
  | (ctx, PLeaf a c) => Some (T, Some ErrNodeNotExists)
  | (ctx, t) =>
      match z_eraseNode_splice ctx t with
      | Some (ctx1, t1, true) =>
          match z_eraseSort fuel ctx1 t1 with
          | Some (ctx2, t2) => Some (plug ctx2 t2, None)
          | None => None
          end
      | Some (f :: ctx1, t1, false) => Some (plug (f :: ctx1) t1, None)
      | _ => None
      end
  end.

Definition z_Set (cmp : CompareFunc) (k : keyItem) (v : valItem) (T : ptree)
    : ptree * bool :=
  match z_findNode cmp k [] T with
  | (ctx, PLeaf a c) => (T, false)
  | (ctx, PNode a c tl k' v' tr) => (plug ctx (PNode a c tl k' v tr), true)
  end.

Definition z_Get (cmp : CompareFunc) (k : keyItem) (T : ptree) : bool * valItem :=
  match z_findNode cmp k [] T with
  | (ctx, PLeaf a c) => (false, nilVal)
  | (ctx, PNode a c tl k' v' tr) => (true, v')
  end.

Lemma rep_store_plug s ctx t :
  rep_at s ctx t -> root (mp s) = Some (top_addr ctx t) -> rep_store s (plug ctx t).
Proof.
  intros V Hr. split; [by rewrite <- top_addr_plug|]. by apply (proj1 (rep_at_plug _ _ _)).
Qed.

Lemma z_findNode_plug cmp k ctx t :
  plug (z_findNode cmp k ctx t).1 (z_findNode cmp k ctx t).2 = plug ctx t.
Proof.
  revert ctx. induction t as [a c|a c l IHl k' v r IHr]; intros ctx; simpl; [done|].
  destruct (cmp k k' =? 1)%N; [by rewrite IHl|].
  destruct (cmp k k' =? 2)%N; [by rewrite IHr|done].
Qed.

Lemma Get_spec fuel s T k :
  rep_store s T -> height T < fuel ->
  Get fuel k s = Ok (z_Get (compareFunc (mp s)) k T, s).
Proof.
  intros [Hr V] Hf. unfold Get, z_Get.
  exec (eq_refl : get_root s = Ok (root (mp s), s)). rewrite Hr.
  destruct (findNode_spec fuel s [] T k V Hf) as [E V'].
  exec E. exec (isLeaf_focus _ _ _ V').
  destruct (z_findNode _ k [] T) as [ctx [a c|a c tl k' v' tr]]; simpl in *; [done|].
  by exec (get_val_focus _ _ _ V').
Qed.

Lemma Set_spec fuel s T k v :
  rep_store s T -> height T < fuel ->
  exists s', Set_ fuel k v s = Ok ((z_Set (compareFunc (mp s)) k v T).2, s') /\
             rep_store s' (z_Set (compareFunc (mp s)) k v T).1 /\
             (((z_Set (compareFunc (mp s)) k v T).2 = false -> s' = s) /\ mp s' = mp s).
Proof.
  intros [Hr V] Hf. unfold Set_, z_Set.
  exec (eq_refl : get_root s = Ok (root (mp s), s)). rewrite Hr.
  destruct (findNode_spec fuel s [] T k V Hf) as [E V'].
  exec E. exec (isLeaf_focus _ _ _ V').
  pose proof (z_findNode_plug (compareFunc (mp s)) k [] T) as Hp.
  destruct (z_findNode _ k [] T) as [ctx [a c|a c tl k' v' tr]]; simpl in *.
  { exists s. split; [done|]. split; [by split|]. by split. }
  exec_mod (set_val_focus _ _ _ _ _ _ _ _ v V') s1 V1.
  exists s1. split; [done|]. split; [|done].
  apply rep_store_plug; [done|]. rewrite Hm, Hr. f_equal.
  rewrite !top_addr_plug. rewrite <- Hp.
  rewrite <- !top_addr_plug. by apply top_addr_same.
Qed.

Lemma top_addr_root s T ctx t t' :
  root (mp s) = Some (addr T) -> plug ctx t = T -> addr t' = addr t ->
  root (mp s) = Some (top_addr ctx t').
Proof.
  intros -> <- E. f_equal. rewrite <- top_addr_plug. by apply top_addr_same.
Qed.

Lemma Add_spec fuel s T k v :
  rep_store s T -> height T < fuel ->
  exists l r,
    forall T' e,
      z_Add (compareFunc (mp s)) fuel k v l r T = Some (T', e) ->
      exists s', Add fuel k v s = Ok (e, s') /\
                 rep_store s' T' /\
                 compareFunc (mp s') = compareFunc (mp s) /\
                 size (mp s') = match e with
                                | None => wrap_int (size (mp s) + 1)
                                | Some _ => size (mp s)
                                end.
Proof.
  intros [Hr V] Hf. unfold Add, z_Add.
  destruct (findNode_spec fuel s [] T k V Hf) as [E V'].
  pose proof (z_findNode_plug (compareFunc (mp s)) k [] T) as Hp.
  destruct (z_findNode _ k [] T) as [ctx [a c|a c tl k' v' tr]]; simpl in *.
  - destruct (insertNode_prefix s ctx a c k v
                (insertSort fuel (Some a)) V') as (l & r & s1 & V1 & Hm1 & E1).
    change (insertNode fuel (Some a) k v s = insertSort fuel (Some a) s1) in E1.
    exists l, r. intros T' e Hz.
    destruct (z_insertSort _ _ _) as [[ctx' t']|] eqn:Ez; [|done]. simplify_eq.
    assert (ctx <> [] -> root (mp s1)
              = Some (top_addr ctx (PNode a RED (PLeaf l BLACK) k v (PLeaf r BLACK))))
      as Hroot1.
    { intros _. rewrite Hm1. by eapply top_addr_root. }
    destruct (insertSort_spec _ _ _ _ _ _ V1 Hroot1 Ez) as (s2 & E2 & V2 & Hr2 & Hm2).
    exec (eq_refl : get_root s = Ok (root (mp s), s)). rewrite Hr.
    exec E. exec (isLeaf_focus _ _ _ V'). simpl.
    unfold bind at 1. rewrite E1. simpl in E2. rewrite E2.
    exec (eq_refl : get_size s2 = Ok (size (mp s2), s2)).
    unfold set_size, bind, ret. simpl.
    eexists. split; [reflexivity|]. destruct Hm2 as [Hsz Hcmp].
    split; [|split]; simpl.
    + split; simpl; [by rewrite <- top_addr_plug|].
      apply (proj1 (rep_at_plug _ _ _)). by eapply rep_at_nodes; [|exact V2].
    + congruence.
    + congruence.
  - exists 1%positive, 1%positive. intros T' e Hz. simplify_eq.
    exec (eq_refl : get_root s = Ok (root (mp s), s)). rewrite Hr.
    exec E. exec (isLeaf_focus _ _ _ V'). simpl.
    exec_mod (set_val_focus _ _ _ _ _ _ _ _ v V') s1 V1.
    exists s1. split; [done|]. rewrite Hm. split; [|done].
    apply rep_store_plug; [done|]. rewrite Hm. by eapply top_addr_root.
Qed.

Lemma height_plug1 f t : height t < height (plug1 f t).
Proof. unfold plug1. destruct (f_isLeft f); simpl; lia. Qed.

Lemma height_plug ctx t : height t <= height (plug ctx t).
Proof.
  revert t. induction ctx as [|f ctx IH]; intros t; simpl; [done|].
  pose proof (height_plug1 f t). pose proof (IH (plug1 f t)). lia.
Qed.

Lemma height_found cmp k T :
  height (z_findNode cmp k [] T).2 <= height T.
Proof.
  rewrite <- (z_findNode_plug cmp k [] T) at 2. apply height_plug.
Qed.

Lemma top_addr_app p ctx t : top_addr (p ++ ctx) t = top_addr ctx (plug p t).
Proof. revert t. induction p as [|f p IH]; intros t; simpl; [done|apply IH]. Qed.

Lemma splice1_top ctx t ctx1 t1 b :
  z_splice1 ctx t = Some (ctx1, t1, b) -> ctx1 <> [] ->
  top_addr ctx1 t1 = top_addr ctx t.
Proof.
  destruct t as [|a c l k v r]; [done|]. simpl.
  destruct (is_leaf l); [|destruct (is_leaf r)]; intros ? Hne; simplify_eq.
  all: destruct ctx1; [done|apply top_addr_cons].
Qed.

Lemma splice_top ctx t ctx1 t1 b :
  z_eraseNode_splice ctx t = Some (ctx1, t1, b) -> ctx1 <> [] ->
  top_addr ctx1 t1 = top_addr ctx t.
Proof.
  destruct t as [|a c l k v r]; [done|]. unfold z_eraseNode_splice.
  destruct (is_leaf l) eqn:ELl.
  { intros ? Hne; simplify_eq. destruct ctx1; [done|apply top_addr_cons]. }
  destruct (is_leaf r) eqn:ELr.
  { intros ? Hne; simplify_eq. destruct ctx1; [done|apply top_addr_cons]. }
  destruct (rightpath l) as [[|f p] leaf]; [done|].
  intros Hs Hne. rewrite (splice1_top _ _ _ _ _ Hs Hne).
  rewrite top_addr_app. simpl. apply top_addr_same.
  by rewrite addr_plug1.
Qed.

Arguments z_eraseNode_splice : simpl never.

Lemma Delete_spec fuel s T k T' e :
  rep_store s T -> height T < fuel ->
  z_Delete (compareFunc (mp s)) fuel k T = Some (T', e) ->
  exists s', Delete fuel k s = Ok (e, s') /\
             rep_store s' T' /\ same_meta s s' /\
             (e = Some ErrNodeNotExists -> s' = s).
Proof.
  intros [Hr V] Hf Hz. unfold Delete, z_Delete in *.
  exec (eq_refl : get_root s = Ok (root (mp s), s)). rewrite Hr.
  destruct (findNode_spec fuel s [] T k V Hf) as [E V'].
  pose proof (z_findNode_plug (compareFunc (mp s)) k [] T) as Hp.
  pose proof (height_found (compareFunc (mp s)) k T) as Hh.
  exec E. exec (isLeaf_focus _ _ _ V').
  destruct (z_findNode _ k [] T) as [ctx t]; simpl in *.
  destruct t as [a c|a c tl k' v' tr]; simpl in *.
  { simplify_eq. exists s. split; [done|]. split; [by split|]. by split. }
  destruct (z_eraseNode_splice _ _) as [[[ctx1 t1] b]|] eqn:Es; [|done].
  destruct (eraseNode_splice_spec fuel _ _ _ _ _ _ V' ltac:(simpl; lia) Es)
    as (s1 & E1 & V1 & Hm1).
  unfold eraseNode. simpl in E1. exec E1.
  assert (root (mp s1) = Some (top_addr ctx (PNode a c tl k' v' tr))) as Hroot1.
  { rewrite Hm1. by eapply top_addr_root. }
  assert (ctx1 <> [] -> root (mp s1) = Some (top_addr ctx1 t1)) as Hroot1'.
  { intros Hne. rewrite Hroot1. f_equal. symmetry. by eapply splice_top. }
  destruct b; simpl in Hz.
  - destruct (z_eraseSort fuel ctx1 t1) as [[ctx2 t2]|] eqn:Ez; [|by destruct ctx1].
    assert (T' = plug ctx2 t2 /\ e = None) as [-> ->] by (destruct ctx1; by simplify_eq).
    destruct (eraseSort_spec _ _ _ _ _ _ V1 Hroot1' Ez) as (s2 & E2 & V2 & Hr2 & Hm2).
    simpl in E2. exec E2.
    exists s2. split; [done|]. split; [by apply rep_store_plug|]. split; [|done].
    eapply same_meta_trans; [|exact Hm2]. by apply same_meta_mp.
  - destruct ctx1 as [|f ctx1]; [done|]. simplify_eq.
    exec (ret_ok tt s1).
    exists s1. split; [done|]. split; [|split; [by apply same_meta_mp|done]].
    apply (rep_store_plug _ (f :: ctx1) t1); [done|]. by apply Hroot1'.
Qed.

(** * Red-black trees

    The five properties of the package comment, on the tree a store
    holds.  Every node has a colour by construction (property 1). *)

(** Property 3: the sentinels are BLACK. *)
Fixpoint leaves_black (t : ptree) : Prop :=
  match t with
  | PLeaf _ c => c = BLACK
  | PNode _ _ l _ _ r => leaves_black l /\ leaves_black r
  end.

(** Property 4: a RED node has BLACK children. *)
Fixpoint no_red_red (t : ptree) : Prop :=
  match t with
  | PLeaf _ _ => True
  | PNode _ c l _ _ r =>
      (c = RED -> color_of l = BLACK /\ color_of r = BLACK) /\
      no_red_red l /\ no_red_red r
  end.

(** Property 5: [black_height t n] holds when every path from the root
    of [t] down to a sentinel goes through [n] BLACK nodes, both ends
    counted; this is required at every node below as well. *)
Fixpoint black_height (t : ptree) (n : nat) : Prop :=
  match t with
  | PLeaf _ c => n = (if c then 0 else 1)
  | PNode _ c l _ _ r =>
      exists m, black_height l m /\ black_height r m /\
                n = (if c then m else S m)
  end.

(** Properties 2 to 5 together. *)
Definition is_rb (t : ptree) : Prop :=
  color_of t = BLACK /\ leaves_black t /\ no_red_red t /\
  exists n, black_height t n.

(** The same in one recursion, for the proofs. *)
Fixpoint rbt (n : nat) (t : ptree) : Prop :=
  match t with
  | PLeaf _ c => c = BLACK /\ n = 1
  | PNode _ c l _ _ r =>
      if c then color_of l = BLACK /\ color_of r = BLACK /\ rbt n l /\ rbt n r
      else match n with
           | O => False
           | S m => rbt m l /\ rbt m r
           end
  end.

Lemma rbt_iff n t :
  rbt n t <-> leaves_black t /\ no_red_red t /\ black_height t n.
Proof.
  revert n. induction t as [a c|a c l IHl k v r IHr]; intros n; simpl.
  - split.
    + intros [-> ->]. done.
    + intros (-> & _ & ->). done.
  - destruct c.
    + rewrite IHl, IHr. split.
      * intros (? & ? & (? & ? & ?) & (? & ? & ?)). repeat split; eauto.
      * intros ((? & ?) & (Hc & ? & ?) & (m & ? & ? & ->)).
        destruct (Hc eq_refl). tauto.
    + destruct n as [|m].
      * split; [done|]. intros (_ & _ & (m & _ & _ & ?)). done.
      * rewrite IHl, IHr. split.
        -- intros ((? & ? & ?) & (? & ? & ?)). repeat split; eauto; done.
        -- intros ((? & ?) & (Hc & ? & ?) & (m' & ? & ? & ?)). simplify_eq. tauto.
Qed.

Lemma is_rb_rbt t : is_rb t <-> color_of t = BLACK /\ exists n, rbt n t.
Proof.
  unfold is_rb. split.
  - intros (? & ? & ? & n & ?). split; [done|]. exists n. by apply rbt_iff.
  - intros (? & n & Hn). apply rbt_iff in Hn as (? & ? & ?). eauto 6.
Qed.

(** What a context expects of the subtree in its hole. *)
Definition top_black (ctx : list frame) : Prop :=
  match ctx with [] => False | f :: _ => f_color f = BLACK end.

Fixpoint rbc (n : nat) (ctx : list frame) : Prop :=
  match ctx with
  | [] => True
  | f :: ctx' =>
      rbt n (f_sib f) /\
      if f_color f
      then color_of (f_sib f) = BLACK /\ top_black ctx' /\ rbc n ctx'
      else rbc (S n) ctx'
  end.

Definition hole_ok (ctx : list frame) (t : ptree) : Prop :=
  match ctx with
  | [] => color_of t = BLACK
  | f :: _ => f_color f = RED -> color_of t = BLACK
  end.

Lemma rbt_plug1 n f t :
  rbt n t -> rbt n (f_sib f) ->
  (f_color f = RED -> color_of t = BLACK /\ color_of (f_sib f) = BLACK) ->
  rbt (if f_color f then n else S n) (plug1 f t).
Proof.
  intros Ht Hs Hc. unfold plug1.
  destruct (f_isLeft f), (f_color f); simpl; try tauto.
  all: destruct (Hc eq_refl); tauto.
Qed.

Lemma plug_rb n ctx t :
  rbc n ctx -> rbt n t -> hole_ok ctx t ->
  color_of (plug ctx t) = BLACK /\ exists m, rbt m (plug ctx t).
Proof.
  revert n t. induction ctx as [|f ctx IH]; intros n t Hc Ht Hh; simpl in *.
  - eauto.
  - destruct Hc as [Hs Hc].
    apply (IH (if f_color f then n else S n)).
    + by destruct (f_color f); [destruct Hc as (_ & _ & ?)|].
    + apply rbt_plug1; [done..|]. intros E. unfold RED in E. rewrite E in Hc.
      split; [by apply Hh|tauto].
    + unfold hole_ok. rewrite color_plug1.
      destruct ctx as [|f' ctx]; destruct (f_color f); simpl in *; try done.
      * tauto.
      * intros E. destruct Hc as (_ & ? & _). unfold RED, BLACK in *. congruence.
Qed.

Lemma rbt_plug1_inv n f t :
  rbt n (plug1 f t) ->
  exists m, n = (if f_color f then m else S m) /\ rbt m t /\ rbt m (f_sib f) /\
            (f_color f = RED -> color_of t = BLACK /\ color_of (f_sib f) = BLACK).
Proof.
  unfold plug1. destruct (f_isLeft f), (f_color f) eqn:Ec; simpl; rewrite ?Ec.
  - intros (? & ? & ? & ?). exists n. tauto.
  - destruct n as [|m]; [done|]. intros [? ?]. exists m. repeat split; done.
  - intros (? & ? & ? & ?). exists n. tauto.
  - destruct n as [|m]; [done|]. intros [? ?]. exists m. repeat split; done.
Qed.

Lemma unplug_rb ctx t :
  color_of (plug ctx t) = BLACK -> (exists m, rbt m (plug ctx t)) ->
  exists n, rbt n t /\ rbc n ctx /\ hole_ok ctx t.
Proof.
  revert t. induction ctx as [|f ctx IH]; intros t Hc Hm; simpl in *.
  - destruct Hm as [m Hm]. exists m. done.
  - destruct (IH _ Hc Hm) as (n & Hn & Hctx & Hh).
    apply rbt_plug1_inv in Hn as (m & -> & Ht & Hs & Hcol).
    exists m. split; [done|]. split; [|intros E; by apply Hcol].
    split; [done|]. destruct (f_color f) eqn:Ec; [|done].
    destruct (Hcol eq_refl) as [_ ?]. split; [done|]. split; [|done].
    unfold hole_ok in Hh. rewrite color_plug1, Ec in Hh.
    destruct ctx as [|f' ctx]; simpl in *; [done|].
    destruct (f_color f'); [|done]. by specialize (Hh eq_refl).
Qed.

(** ** The insertion fix-up restores the invariants *)

Definition is_red_node (t : ptree) : Prop :=
  match t with PNode _ c _ _ _ _ => c = RED | PLeaf _ _ => False end.

Definition rb_ok (t : ptree) : Prop := color_of t = BLACK /\ exists n, rbt n t.

Lemma z_insertSort_body_rb n ctx t :
  is_red_node t -> rbt n t -> rbc n ctx ->
  exists ctx' t' b,
    z_insertSort_body ctx t = Some (ctx', t', b) /\
    if b then is_red_node t' /\ (exists n', rbt n' t' /\ rbc n' ctx') /\
              S (S (length ctx')) = length ctx
    else rb_ok (plug ctx' t').
Proof.
  intros Hred Ht Hc. unfold rb_ok.
  destruct t as [|a c l k v r]; [done|]. simpl in Hred. subst c.
  unfold RED, BLACK in *.
  destruct ctx as [|[il1 a1 c1 k1 v1 s1] ctx1].
  { eexists _, _, _. split; [reflexivity|]. simpl in *. split; [done|].
    exists (S n). simpl. tauto. }
  destruct c1; cycle 1.
  { eexists _, _, _. split; [reflexivity|].
    apply (plug_rb n); [done|done|]. by simpl. }
  simpl in Hc. destruct Hc as (Hs1 & Hcs1 & Htop & Hc1).
  destruct ctx1 as [|[il2 a2 c2 k2 v2 s2] ctx2]; [done|].
  simpl in Htop. subst c2. simpl in Hc1. destruct Hc1 as (Hs2 & Hc2).
  simpl in Ht. destruct Ht as (Hcl & Hcr & Hl & Hr).
  unfold z_insertSort_body. cbn [f_color f_sib f_isLeft].
  destruct (color_of s2) eqn:Ecs2.
  - (* uncle RED *)
    eexists _, _, _. split; [reflexivity|]. simpl.
    split; [by unfold plug1; destruct il2|].
    split; [|done]. exists (S n). split; [|done].
    destruct s2 as [|sa sc sl sk sv sr]; simpl in *;
      [destruct Hs2 as [Hx _]; unfold BLACK in Hx; congruence|]. subst sc.
    unfold plug1; simpl. destruct il1, il2; simpl; tauto.
  - (* uncle BLACK *)
    assert (forall g, color_of g = false -> rbt (S n) g ->
              color_of (plug ctx2 g) = false /\ exists m, rbt m (plug ctx2 g)) as Hfin.
    { intros g Hg1 Hg2. apply (plug_rb (S n)); [done|done|].
      destruct ctx2; simpl; [done|by intros _]. }
    destruct il1, il2; simpl.
    all: eexists _, _, _; (split; [reflexivity|]).
    all: apply Hfin; simpl; tauto.
Qed.

Lemma z_insertSort_rb fuel n ctx t :
  is_red_node t -> rbt n t -> rbc n ctx -> length ctx < 2 * fuel ->
  exists ctx' t', z_insertSort fuel ctx t = Some (ctx', t') /\ rb_ok (plug ctx' t').
Proof.
  revert n ctx t. induction fuel as [|fuel IH]; intros n ctx t Hred Ht Hc Hf; [lia|].
  destruct (z_insertSort_body_rb n ctx t Hred Ht Hc) as (ctx1 & t1 & b & Ez & Hb).
  simpl. rewrite Ez. destruct b.
  - destruct Hb as (Hred1 & (n1 & Ht1 & Hc1) & Hlen).
    apply (IH n1); [done..|lia].
  - eauto.
Qed.

(** ** In-order sequences *)

Lemma inorder_recolor c t : inorder (recolor c t) = inorder t.
Proof. by destruct t. Qed.

Lemma inorder_plug1 f t :
  inorder (plug1 f t) =
  if f_isLeft f then inorder t ++ mkPair (f_key f) (f_val f) :: inorder (f_sib f)
  else inorder (f_sib f) ++ mkPair (f_key f) (f_val f) :: inorder t.
Proof. unfold plug1. by destruct (f_isLeft f). Qed.

Lemma inorder_plug_congr ctx t1 t2 :
  inorder t1 = inorder t2 -> inorder (plug ctx t1) = inorder (plug ctx t2).
Proof.
  revert t1 t2. induction ctx as [|f ctx IH]; intros t1 t2 E; simpl; [done|].
  apply IH. rewrite !inorder_plug1. by rewrite E.
Qed.

Lemma inorder_rotL t t' : rotL t = Some t' -> inorder t' = inorder t.
Proof.
  destruct t as [|a c l k v [|b cb rl kb vb rr]]; intros ?; simplify_eq/=.
  by rewrite <- app_assoc.
Qed.

Lemma inorder_rotR t t' : rotR t = Some t' -> inorder t' = inorder t.
Proof.
  destruct t as [|a c [|b cb ll kb vb lr] k v r]; intros ?; simplify_eq/=.
  by rewrite <- app_assoc.
Qed.

Lemma inorder_fcol c f t : inorder (plug1 (fcol c f) t) = inorder (plug1 f t).
Proof. by rewrite !inorder_plug1. Qed.

Ltac io := repeat (rewrite ?inorder_plug1, ?inorder_recolor; simpl).

Lemma z_insertSort_body_inorder ctx t ctx' t' b :
  z_insertSort_body ctx t = Some (ctx', t', b) ->
  inorder (plug ctx' t') = inorder (plug ctx t).
Proof.
  unfold z_insertSort_body.
  destruct ctx as [|f1 ctx1].
  { intros ?; simplify_eq. simpl. apply inorder_recolor. }
  destruct (f_color f1); [|by intros ?; simplify_eq].
  destruct ctx1 as [|f2 ctx2]; [done|].
  destruct (color_of (f_sib f2)).
  { intros ?; simplify_eq. simpl. apply inorder_plug_congr.
    rewrite !inorder_plug1. simpl. by rewrite inorder_recolor. }
  assert (forall g, inorder g = inorder (plug1 f2 (plug1 f1 t)) ->
            inorder (plug ctx2 g) = inorder (plug (f1 :: f2 :: ctx2) t)) as Hfin.
  { intros g Hg. simpl. by apply inorder_plug_congr. }
  destruct (f_isLeft f1 && f_isLeft f2).
  { destruct (rotR _) as [g|] eqn:Er; intros ?; simplify_eq. apply Hfin.
    rewrite (inorder_rotR _ _ Er). by io. }
  destruct (f_isLeft f1 && negb (f_isLeft f2)).
  { destruct (rotR _) as [p|] eqn:Er1; [|done].
    destruct (rotL _) as [g|] eqn:Er2; intros ?; simplify_eq. apply Hfin.
    rewrite (inorder_rotL _ _ Er2), inorder_plug1, (inorder_rotR _ _ Er1).
    by io. }
  destruct (negb (f_isLeft f1) && f_isLeft f2).
  { destruct (rotL _) as [p|] eqn:Er1; [|done].
    destruct (rotR _) as [g|] eqn:Er2; intros ?; simplify_eq. apply Hfin.
    rewrite (inorder_rotR _ _ Er2), inorder_plug1, (inorder_rotL _ _ Er1).
    by io. }
  destruct (rotL _) as [g|] eqn:Er; intros ?; simplify_eq. apply Hfin.
  rewrite (inorder_rotL _ _ Er). by io.
Qed.

Lemma z_insertSort_inorder fuel ctx t ctx' t' :
  z_insertSort fuel ctx t = Some (ctx', t') ->
  inorder (plug ctx' t') = inorder (plug ctx t).
Proof.
  revert ctx t. induction fuel as [|fuel IH]; intros ctx t Hz; [done|].
  simpl in Hz. destruct (z_insertSort_body ctx t) as [[[ctx1 t1] b]|] eqn:Ez; [|done].
  apply z_insertSort_body_inorder in Ez. destruct b.
  - rewrite <- Ez. by apply IH.
  - by simplify_eq.
Qed.

(** ** The deletion fix-up restores the invariants *)

(** The subtree in focus is one BLACK node short of what its context
    expects; a RED root will be painted BLACK. *)
Definition del_pre (n : nat) (ctx : list frame) (t : ptree) : Prop :=
  (if color_of t then rbt (S n) (recolor BLACK t) else rbt n t) /\
  rbc (S n) ctx.

(** A bound on the activations of [eraseSort] still to come. *)
Definition erase_measure (ctx : list frame) (t : ptree) : nat :=
  match ctx with
  | [] => 0
  | f :: _ =>
      if color_of t then 0
      else if color_of (f_sib f) then 3 * length ctx + 2
      else if f_color f then 1
      else 3 * length ctx
  end.

Lemma erase_measure_bound ctx t : erase_measure ctx t <= 3 * length ctx + 2.
Proof.
  unfold erase_measure. destruct ctx as [|f ctx]; [lia|].
  destruct (color_of t), (color_of (f_sib f)), (f_color f); simpl; lia.
Qed.

Lemma erase_finish n (pc : bool) ctx1 g :
  (if pc then top_black ctx1 /\ rbc (S n) ctx1 else rbc (S (S n)) ctx1) ->
  color_of g = pc -> rbt (if pc then S n else S (S n)) g ->
  rb_ok (plug ctx1 g).
Proof.
  intros Hc Hg Hr. destruct pc.
  - destruct Hc as (Htop & Hc). apply (plug_rb (S n)); [done..|].
    destruct ctx1 as [|f' ctx1]; [done|]. simpl in *. unfold RED, BLACK in *. congruence.
  - apply (plug_rb (S (S n))); [done..|]. destruct ctx1; simpl; [done|by intros _].
Qed.

Lemma rbt_black_pos n t : color_of t = BLACK -> rbt n t -> 0 < n.
Proof.
  destruct t as [a c|a c l k v r]; simpl; intros ->; [lia|]. destruct n; [done|lia].
Qed.

Lemma z_eraseSort_body_rb n ctx t :
  del_pre n ctx t ->
  exists ctx' t' b,
    z_eraseSort_body ctx t = Some (ctx', t', b) /\
    if b then (exists n', del_pre n' ctx' t') /\
              erase_measure ctx' t' < erase_measure ctx t
    else rb_ok (plug ctx' t').
Proof.
  intros [Ht Hc]. unfold z_eraseSort_body.
  destruct ctx as [|[il pa pc pk pv sib] ctx1].
  { eexists _, _, _. split; [reflexivity|]. simpl. unfold rb_ok.
    split; [by destruct t|]. destruct (color_of t) eqn:Ect; [eauto|].
    exists n. by destruct t; simpl in *; subst. }
  destruct (color_of t) eqn:Ect.
  { eexists _, _, _. split; [reflexivity|].
    apply (plug_rb (S n)); [done|done|]. simpl. by destruct t. }
  cbn [f_sib f_isLeft f_color f_addr f_key f_val].
  pose proof Hc as Hc0. simpl in Hc. destruct Hc as [Hsib Hc].
  pose proof (rbt_black_pos _ _ Ect Ht) as Hpos.
  destruct sib as [sa sc0|sa sc sl sk sv sr]; [simpl in Hsib; destruct Hsib; lia|].
  destruct sc.
  - (* sibling RED *)
    simpl in Hsib. destruct Hsib as (Hcl & Hcr & Hsl & Hsr).
    destruct pc; [simpl in Hc; unfold BLACK in Hc; destruct Hc; congruence|].
    destruct il.
    all: eexists _, _, _; (split; [reflexivity|]).
    all: split; [exists n; split; [by rewrite Ect|simpl; tauto]|].
    all: unfold erase_measure; simpl; rewrite Ect, ?Hcl, ?Hcr; simpl; lia.
  - simpl in Hsib. destruct Hsib as [Hsl Hsr].
    destruct (color_of sl) eqn:Ecl, (color_of sr) eqn:Ecr; simpl.
    4:{ (* both children of the sibling are BLACK *)
        eexists _, _, _. split; [reflexivity|]. split.
        - destruct pc.
          + exists n. unfold del_pre. rewrite color_plug1. simpl.
            split; [|simpl in Hc; tauto].
            unfold plug1; destruct il; simpl; unfold BLACK; tauto.
          + exists (S n). unfold del_pre. rewrite color_plug1. simpl.
            split; [|simpl in Hc; tauto].
            unfold plug1; destruct il; simpl; unfold BLACK; tauto.
        - rewrite Ect.
          unfold erase_measure. rewrite color_plug1. simpl.
          destruct ctx1 as [|f' ctx1]; [destruct pc; simpl; lia|].
          destruct pc; [lia|].
          destruct (color_of (f_sib f')), (f_color f'); simpl; lia. }
    all: destruct il; simpl.
    all: try (destruct sl as [?|la lc ll lk lv lr]; simpl in *;
              [destruct Hsl; unfold BLACK in *; congruence|]; subst lc).
    all: try (destruct sr as [?|ra rc rl rk rv rr]; simpl in *;
              [destruct Hsr; unfold BLACK in *; congruence|]; subst rc).
    all: eexists _, _, _; (split; [reflexivity|]).
    all: apply (erase_finish n pc ctx1); [destruct pc; tauto|done|].
    all: destruct pc; simpl in *; rewrite ?Ecl, ?Ecr; tauto.
Qed.

Lemma z_eraseSort_rb fuel n ctx t :
  del_pre n ctx t -> erase_measure ctx t < fuel ->
  exists ctx' t', z_eraseSort fuel ctx t = Some (ctx', t') /\ rb_ok (plug ctx' t').
Proof.
  revert n ctx t. induction fuel as [|fuel IH]; intros n ctx t Hp Hf; [lia|].
  destruct (z_eraseSort_body_rb n ctx t Hp) as (ctx1 & t1 & b & Ez & Hb).
  simpl. rewrite Ez. destruct b.
  - destruct Hb as ((n1 & Hp1) & Hlt). apply (IH n1); [done|lia].
  - eauto.
Qed.

Ltac lnorm := repeat (progress (rewrite <- ?app_assoc; simpl)).

Lemma z_eraseSort_body_inorder ctx t ctx' t' b :
  z_eraseSort_body ctx t = Some (ctx', t', b) ->
  inorder (plug ctx' t') = inorder (plug ctx t).
Proof.
  unfold z_eraseSort_body.
  destruct ctx as [|[il pa pc pk pv sib] ctx1].
  { intros ?; simplify_eq. simpl. apply inorder_recolor. }
  destruct (color_of t).
  { intros ?; simplify_eq. simpl. apply inorder_plug_congr. by io. }
  cbn [f_sib f_isLeft f_color f_addr f_key f_val].
  destruct sib as [|sa sc sl sk sv sr]; [done|].
  destruct sc.
  { destruct il; intros ?; simplify_eq; simpl; apply inorder_plug_congr; io;
      by lnorm. }
  destruct (negb (color_of sl) && negb (color_of sr)).
  { intros ?; simplify_eq. simpl. apply inorder_plug_congr. by io. }
  destruct il.
  - destruct (negb (color_of sr)).
    + destruct sl as [|la lc ll lk lv lr]; [done|]. simpl.
      intros ?; simplify_eq. simpl. apply inorder_plug_congr. io.
      by lnorm.
    + simpl. intros ?; simplify_eq. simpl. apply inorder_plug_congr. io.
      by lnorm.
  - destruct (negb (color_of sl)).
    + destruct sr as [|ra rc rl rk rv rr]; [done|]. simpl.
      intros ?; simplify_eq. simpl. apply inorder_plug_congr. io.
      by lnorm.
    + simpl. intros ?; simplify_eq. simpl. apply inorder_plug_congr. io.
      by lnorm.
Qed.

Lemma z_eraseSort_inorder fuel ctx t ctx' t' :
  z_eraseSort fuel ctx t = Some (ctx', t') ->
  inorder (plug ctx' t') = inorder (plug ctx t).
Proof.
  revert ctx t. induction fuel as [|fuel IH]; intros ctx t Hz; [done|].
  simpl in Hz. destruct (z_eraseSort_body ctx t) as [[[ctx1 t1] b]|] eqn:Ez; [|done].
  apply z_eraseSort_body_inorder in Ez. destruct b.
  - rewrite <- Ez. by apply IH.
  - by simplify_eq.
Qed.

(** ** Splicing a node out of a red-black tree *)

Lemma plug_app p ctx t : plug (p ++ ctx) t = plug ctx (plug p t).
Proof. revert t. induction p as [|f p IH]; intros t; simpl; [done|apply IH]. Qed.

Lemma rightpath_plug t : plug (rightpath t).1 (rightpath t).2 = t.
Proof.
  induction t as [a c|a c l IHl k v r IHr]; simpl; [done|].
  rewrite plug_app. simpl. unfold plug1. simpl. by rewrite IHr.
Qed.

Lemma rightpath_leaf t : is_leaf (rightpath t).2 = true.
Proof. induction t; simpl; done. Qed.

Lemma rightpath_right t f : f ∈ (rightpath t).1 -> f_isLeft f = false.
Proof.
  induction t as [a c|a c l IHl k v r IHr]; simpl; intros Hf.
  - by apply elem_of_nil in Hf.
  - apply elem_of_app in Hf as [Hf|Hf]; [by apply IHr|].
    by apply list_elem_of_singleton in Hf as ->.
Qed.

Lemma z_splice1_rb ctx t :
  rb_ok (plug ctx t) -> is_leaf t = false ->
  (match t with
   | PLeaf _ _ => False
   | PNode _ _ l _ _ r => is_leaf l = true \/ is_leaf r = true
   end) ->
  exists ctx1 t1 b,
    z_splice1 ctx t = Some (ctx1, t1, b) /\
    if b then exists n, del_pre n ctx1 t1
    else ctx1 <> [] /\ rb_ok (plug ctx1 t1).
Proof.
  intros [Hcol Hrb] _ Hleaf. destruct t as [|a c l k v r]; [done|].
  destruct (unplug_rb _ _ Hcol Hrb) as (n & Ht & Hc & Hh).
  assert (c = RED -> ctx <> []) as Hne.
  { intros -> ->. simpl in Hh. done. }
  unfold z_splice1, del_pre, rb_ok. unfold RED, BLACK in *.
  destruct (is_leaf l) eqn:ELl; [|destruct (is_leaf r) eqn:ELr; [|by destruct Hleaf]].
  all: eexists _, _, _; (split; [reflexivity|]).
  all: destruct c; simpl in *.
  - split; [by apply Hne|]. apply (plug_rb n); [done|tauto|].
    destruct ctx; simpl; [tauto|]. intros _; tauto.
  - destruct n as [|m]; [done|]. exists m. split; [|done].
    destruct r as [? []|? [] ? ? ? ?]; simpl in *; unfold BLACK in *; intuition congruence.
  - split; [by apply Hne|]. apply (plug_rb n); [done|tauto|].
    destruct ctx; simpl; [tauto|]. intros _; tauto.
  - destruct n as [|m]; [done|]. exists m. split; [|done].
    destruct l as [? []|? [] ? ? ? ?]; simpl in *; unfold BLACK in *; intuition congruence.
Qed.

Lemma rbt_rekey n a c l k v r k' v' :
  rbt n (PNode a c l k v r) -> rbt n (PNode a c l k' v' r).
Proof. done. Qed.

Lemma z_eraseNode_splice_rb ctx t :
  rb_ok (plug ctx t) -> is_leaf t = false ->
  exists ctx1 t1 b,
    z_eraseNode_splice ctx t = Some (ctx1, t1, b) /\
    if b then exists n, del_pre n ctx1 t1
    else ctx1 <> [] /\ rb_ok (plug ctx1 t1).
Proof.
  intros Hrb Hnl. destruct t as [|a c l k v r]; [done|].
  unfold z_eraseNode_splice.
  destruct (is_leaf l) eqn:ELl.
  { destruct (z_splice1_rb ctx (PNode a c l k v r) Hrb Hnl) as (? & ? & ? & E & ?);
      [by left|]. simpl in E. rewrite ELl in E. eauto. }
  destruct (is_leaf r) eqn:ELr.
  { destruct (z_splice1_rb ctx (PNode a c l k v r) Hrb Hnl) as (? & ? & ? & E & ?);
      [by right|]. simpl in E. rewrite ELl, ELr in E. eauto. }
  pose proof (rightpath_plug l) as Hpl.
  pose proof (rightpath_leaf l) as Hlf.
  pose proof (rightpath_right l) as Hrt.
  destruct (rightpath l) as [[|f p] leaf]; simpl in *.
  { subst. congruence. }
  apply z_splice1_rb.
  - rewrite plug_app. simpl. unfold plug1 at 1. simpl. rewrite Hpl.
    destruct Hrb as [Hcol Hrb].
    destruct (unplug_rb _ _ Hcol Hrb) as (n & Ht & Hc & Hh).
    apply (plug_rb n); [done|by eapply rbt_rekey|done].
  - unfold plug1. by destruct (f_isLeft f).
  - unfold plug1. rewrite (Hrt f) by left. by right.
Qed.

(** * Order

    The comparator answers 1 for "less" and 2 for "greater"; every other
    answer is read as "equal".  The map needs it to be a strict weak
    order. *)

Definition lt (cmp : CompareFunc) (a b : keyItem) : Prop := cmp a b = 1%N.

Definition eqv (cmp : CompareFunc) (a b : keyItem) : Prop :=
  cmp a b <> 1%N /\ cmp a b <> 2%N.

Record strict_weak_order (cmp : CompareFunc) : Prop := {
  cmp_flip : forall a b, cmp a b = 2%N <-> cmp b a = 1%N;
  cmp_trans : forall a b c, cmp a b = 1%N -> cmp b c = 1%N -> cmp a c = 1%N;
  cmp_neg_trans : forall a b c, cmp a c = 1%N -> cmp a b = 1%N \/ cmp b c = 1%N
}.

(** Strictly increasing, pairwise. *)
Fixpoint ordered (cmp : CompareFunc) (l : list keyItem) : Prop :=
  match l with
  | [] => True
  | a :: l' => Forall (lt cmp a) l' /\ ordered cmp l'
  end.

Definition keys (t : ptree) : list keyItem := map Key (inorder t).

Lemma ordered_app cmp l1 l2 :
  ordered cmp (l1 ++ l2) <->
  ordered cmp l1 /\ ordered cmp l2 /\
  forall a b, a ∈ l1 -> b ∈ l2 -> lt cmp a b.
Proof.
  induction l1 as [|x l1 IH]; simpl.
  - split; [intros ?; repeat split; [done|]|tauto].
    intros a b Ha. by apply elem_of_nil in Ha.
  - rewrite Forall_app, IH. split.
    + intros ((Hx1 & Hx2) & Ho1 & Ho2 & Hc). repeat split; try done.
      intros a b Ha Hb. apply elem_of_cons in Ha as [->|Ha]; [|by apply Hc].
      by eapply Forall_forall in Hx2.
    + intros ((Hx1 & Ho1) & Ho2 & Hc). repeat split; try done.
      * apply Forall_forall. intros b Hb. apply Hc; [left|done].
      * intros a b Ha Hb. apply Hc; [by right|done].
Qed.

Lemma ordered_irrefl cmp a : strict_weak_order cmp -> ~ lt cmp a a.
Proof.
  intros Ho Ha. unfold lt in *. pose proof (proj2 (cmp_flip _ Ho a a) Ha). congruence.
Qed.

(** The pairs before and after the hole of a context. *)
Fixpoint ctx_before (ctx : list frame) : list Pair :=
  match ctx with
  | [] => []
  | f :: ctx' =>
      ctx_before ctx' ++
      (if f_isLeft f then []
       else inorder (f_sib f) ++ [mkPair (f_key f) (f_val f)])
  end.

Fixpoint ctx_after (ctx : list frame) : list Pair :=
  match ctx with
  | [] => []
  | f :: ctx' =>
      (if f_isLeft f then mkPair (f_key f) (f_val f) :: inorder (f_sib f)
       else []) ++ ctx_after ctx'
  end.

Lemma inorder_plug ctx t :
  inorder (plug ctx t) = ctx_before ctx ++ inorder t ++ ctx_after ctx.
Proof.
  revert t. induction ctx as [|f ctx IH]; intros t; simpl.
  - by rewrite app_nil_r.
  - rewrite IH, inorder_plug1. destruct (f_isLeft f); simpl; by lnorm.
Qed.

Section Find.
Context (cmp : CompareFunc) (Hcmp : strict_weak_order cmp) (K : keyItem).

(** The search key lies strictly between what is before and what is
    after the position the search has reached. *)
Definition between (ctx : list frame) : Prop :=
  (forall x, x ∈ map Key (ctx_before ctx) -> lt cmp x K) /\
  (forall x, x ∈ map Key (ctx_after ctx) -> lt cmp K x).

Lemma z_findNode_between ctx t :
  ordered cmp (keys t) -> between ctx ->
  between (z_findNode cmp K ctx t).1.
Proof.
  revert ctx. induction t as [a c|a c l IHl k v r IHr]; intros ctx Ho Hb; simpl; [done|].
  unfold keys in Ho. simpl in Ho. rewrite map_app in Ho. simpl in Ho.
  apply ordered_app in Ho as (Hol & Hor & Hlr). simpl in Hor. destruct Hor as [Hkr Hor].
  destruct Hb as [Hb1 Hb2].
  destruct (cmp K k =? 1)%N eqn:E1.
  { apply N.eqb_eq in E1. apply IHl; [done|]. split; simpl.
    - intros x Hx. rewrite app_nil_r in Hx. by apply Hb1.
    - intros x Hx. rewrite map_app in Hx.
      apply elem_of_cons in Hx as [->|Hx]; [done|].
      apply elem_of_app in Hx as [Hx|Hx]; [|by apply Hb2].
      eapply (cmp_trans _ Hcmp); [exact E1|]. by eapply Forall_forall in Hkr. }
  destruct (cmp K k =? 2)%N eqn:E2; [|done].
  apply N.eqb_eq in E2. apply (cmp_flip _ Hcmp) in E2.
  apply IHr; [done|]. split; simpl.
  - intros x Hx. rewrite !map_app in Hx.
    apply elem_of_app in Hx as [Hx|Hx]; [by apply Hb1|].
    apply elem_of_app in Hx as [Hx|Hx].
    + eapply (cmp_trans _ Hcmp); [|exact E2]. apply Hlr; [done|left].
    + simpl in Hx. by apply list_elem_of_singleton in Hx as ->.
  - intros x Hx. by apply Hb2.
Qed.

Lemma z_findNode_eqv ctx t :
  match (z_findNode cmp K ctx t).2 with
  | PLeaf _ _ => True
  | PNode _ _ _ k _ _ => eqv cmp K k
  end.
Proof.
  revert ctx. induction t as [a c|a c l IHl k v r IHr]; intros ctx; simpl; [done|].
  destruct (cmp K k =? 1)%N eqn:E1; [apply IHl|].
  destruct (cmp K k =? 2)%N eqn:E2; [apply IHr|].
  simpl. apply N.eqb_neq in E1, E2. done.
Qed.

End Find.

(** ** What the operations do to the in-order sequence *)

Lemma ctx_before_app p q : ctx_before (p ++ q) = ctx_before q ++ ctx_before p.
Proof.
  induction p as [|f p IH]; simpl; [by rewrite app_nil_r|].
  rewrite IH. by rewrite <- app_assoc.
Qed.

Lemma ctx_after_app p q : ctx_after (p ++ q) = ctx_after p ++ ctx_after q.
Proof.
  induction p as [|f p IH]; simpl; [done|]. rewrite IH. by rewrite <- app_assoc.
Qed.

Lemma inorder_leaf t : is_leaf t = true -> inorder t = [].
Proof. by destruct t. Qed.

Lemma rightpath_after t : ctx_after (rightpath t).1 = [].
Proof.
  induction t as [a c|a c l IHl k v r IHr]; simpl; [done|].
  rewrite ctx_after_app, IHr. done.
Qed.

Lemma rightpath_length t : length (rightpath t).1 <= height t.
Proof.
  induction t as [a c|a c l IHl k v r IHr]; simpl; [done|].
  rewrite length_app. simpl. lia.
Qed.

Lemma depth_plug ctx t : length ctx + height t <= height (plug ctx t).
Proof.
  revert t. induction ctx as [|f ctx IH]; intros t; simpl; [done|].
  pose proof (height_plug1 f t). pose proof (IH (plug1 f t)). lia.
Qed.

Lemma z_splice1_inorder ctx a c l k v r ctx1 t1 b :
  z_splice1 ctx (PNode a c l k v r) = Some (ctx1, t1, b) ->
  ctx1 = ctx /\
  inorder (plug ctx1 t1) = ctx_before ctx ++ inorder l ++ inorder r ++ ctx_after ctx.
Proof.
  simpl. destruct (is_leaf l) eqn:ELl; [|destruct (is_leaf r) eqn:ELr; [|done]].
  all: intros ?; simplify_eq; (split; [done|]); rewrite inorder_plug.
  - by rewrite (inorder_leaf l).
  - by rewrite (inorder_leaf r).
Qed.

Lemma z_eraseNode_splice_inorder ctx a c l k v r ctx1 t1 b :
  z_eraseNode_splice ctx (PNode a c l k v r) = Some (ctx1, t1, b) ->
  length ctx1 <= length ctx + height l /\
  inorder (plug ctx1 t1) = ctx_before ctx ++ inorder l ++ inorder r ++ ctx_after ctx.
Proof.
  unfold z_eraseNode_splice.
  destruct (is_leaf l) eqn:ELl.
  { intros E. destruct (z_splice1_inorder ctx a c l k v r ctx1 t1 b) as [-> ?].
    - simpl. by rewrite ELl.
    - split; [lia|done]. }
  destruct (is_leaf r) eqn:ELr.
  { intros E. destruct (z_splice1_inorder ctx a c l k v r ctx1 t1 b) as [-> ?].
    - simpl. by rewrite ELl, ELr.
    - split; [lia|done]. }
  pose proof (rightpath_plug l) as Hpl.
  pose proof (rightpath_leaf l) as Hlf.
  pose proof (rightpath_right l) as Hrt.
  pose proof (rightpath_after l) as Haf.
  pose proof (rightpath_length l) as Hlen.
  destruct (rightpath l) as [[|f p] leaf]; [done|]. simpl in *.
  specialize (Hrt f ltac:(left)).
  unfold plug1 at 1. rewrite Hrt. intros E.
  apply z_splice1_inorder in E as [-> E]. split.
  { rewrite length_app. simpl. lia. }
  rewrite E, <- Hpl, (inorder_plug p), ctx_before_app, ctx_after_app.
  rewrite inorder_plug1, Hrt, (inorder_leaf leaf) by done.
  rewrite Hrt in Haf. simpl in Haf. rewrite Haf. simpl. by lnorm.
Qed.

(** ** The operations on red-black trees *)

Lemma rb_ok_found cmp K T :
  rb_ok T ->
  exists n, rbt n (z_findNode cmp K [] T).2 /\ rbc n (z_findNode cmp K [] T).1 /\
            hole_ok (z_findNode cmp K [] T).1 (z_findNode cmp K [] T).2.
Proof.
  intros Hrb. pose proof (z_findNode_plug cmp K [] T) as Hp. simpl in Hp.
  rewrite <- Hp in Hrb. destruct Hrb. by apply unplug_rb.
Qed.

Lemma depth_found cmp K T :
  length (z_findNode cmp K [] T).1 + height (z_findNode cmp K [] T).2 <= height T.
Proof.
  pose proof (depth_plug (z_findNode cmp K [] T).1 (z_findNode cmp K [] T).2) as Hd.
  by rewrite z_findNode_plug in Hd.
Qed.

Lemma z_Add_ok cmp fuel K V l r T :
  rb_ok T -> height T < fuel ->
  exists T' e, z_Add cmp fuel K V l r T = Some (T', e) /\ rb_ok T' /\
    match (z_findNode cmp K [] T).2 with
    | PLeaf _ _ =>
        e = None /\
        inorder T' = ctx_before (z_findNode cmp K [] T).1 ++
                     mkPair K V :: ctx_after (z_findNode cmp K [] T).1
    | PNode a c tl k' v' tr =>
        e = Some ErrNodeAlreadyExists /\
        T' = plug (z_findNode cmp K [] T).1 (PNode a c tl k' V tr)
    end.
Proof.
  intros Hrb Hf. unfold z_Add.
  destruct (rb_ok_found cmp K T Hrb) as (n & Ht & Hc & Hh).
  pose proof (depth_found cmp K T) as Hd.
  destruct (z_findNode cmp K [] T) as [ctx [a c|a c tl k' v' tr]]; simpl in *.
  - destruct Ht as [-> ->].
    destruct (z_insertSort_rb fuel 1 ctx (PNode a RED (PLeaf l BLACK) K V (PLeaf r BLACK)))
      as (ctx' & t' & Ez & Hok); [done|by simpl|done|lia|].
    rewrite Ez. eexists _, _. split; [reflexivity|]. split; [done|]. split; [done|].
    apply z_insertSort_inorder in Ez. rewrite Ez, inorder_plug. done.
  - eexists _, _. split; [reflexivity|]. split; [|done].
    apply (plug_rb n); done.
Qed.

Lemma z_Set_ok cmp K V T :
  rb_ok T -> rb_ok (z_Set cmp K V T).1.
Proof.
  intros Hrb. unfold z_Set.
  destruct (rb_ok_found cmp K T Hrb) as (n & Ht & Hc & Hh).
  destruct (z_findNode cmp K [] T) as [ctx [a c|a c tl k' v' tr]]; simpl in *; [done|].
  apply (plug_rb n); done.
Qed.

Lemma z_Delete_ok cmp fuel K T :
  rb_ok T -> 3 * height T + 2 < fuel ->
  exists T' e, z_Delete cmp fuel K T = Some (T', e) /\ rb_ok T' /\
    match (z_findNode cmp K [] T).2 with
    | PLeaf _ _ => e = Some ErrNodeNotExists /\ T' = T
    | PNode a c tl k' v' tr =>
        e = None /\
        inorder T' = ctx_before (z_findNode cmp K [] T).1 ++ inorder tl ++
                     inorder tr ++ ctx_after (z_findNode cmp K [] T).1
    end.
Proof.
  intros Hrb Hf. unfold z_Delete.
  pose proof (depth_found cmp K T) as Hd.
  pose proof (z_findNode_plug cmp K [] T) as Hp.
  destruct (z_findNode cmp K [] T) as [ctx [a c|a c tl k' v' tr]]; simpl in *.
  { eexists _, _. split; [reflexivity|]. done. }
  rewrite <- Hp in Hrb.
  destruct (z_eraseNode_splice_rb ctx _ Hrb eq_refl) as (ctx1 & t1 & b & Es & Hb).
  rewrite Es. apply z_eraseNode_splice_inorder in Es as [Hlen Hin].
  destruct b.
  - destruct Hb as [n Hpre].
    destruct (z_eraseSort_rb fuel n ctx1 t1 Hpre) as (ctx2 & t2 & Ez & Hok).
    { pose proof (erase_measure_bound ctx1 t1). lia. }
    rewrite Ez. apply z_eraseSort_inorder in Ez.
    exists (plug ctx2 t2), None. split; [by destruct ctx1|].
    split; [done|]. split; [done|]. by rewrite Ez.
  - destruct Hb as [Hne Hok]. destruct ctx1 as [|f ctx1]; [done|].
    eexists _, _. split; [reflexivity|]. done.
Qed.

(** ** The operations keep the keys in order *)

Section OrderOps.
Context (cmp : CompareFunc) (Hcmp : strict_weak_order cmp).

(** No pair of the sequence has a key the comparator equates with [K]. *)
Definition absent (K : keyItem) (L : list Pair) : Prop :=
  forall p, p ∈ L -> ~ eqv cmp K (Key p).

Lemma lt_not_eqv_l a b : lt cmp a b -> ~ eqv cmp b a.
Proof. intros Hab [_ H2]. apply H2. by apply (cmp_flip _ Hcmp). Qed.

Lemma lt_not_eqv_r a b : lt cmp a b -> ~ eqv cmp a b.
Proof. intros Hab [H1 _]. done. Qed.

Lemma lt_eqv_l x k K : lt cmp x k -> eqv cmp K k -> lt cmp x K.
Proof.
  intros Hx [H1 H2]. destruct (cmp_neg_trans _ Hcmp x K k Hx) as [?|?]; done.
Qed.

Lemma lt_eqv_r x k K : lt cmp k x -> eqv cmp K k -> lt cmp K x.
Proof.
  intros Hx [H1 H2]. destruct (cmp_neg_trans _ Hcmp k K x Hx) as [E|?]; [|done].
  by apply (cmp_flip _ Hcmp) in E.
Qed.

Lemma ordered_insert K l1 l2 :
  (forall x, x ∈ l1 -> lt cmp x K) -> (forall x, x ∈ l2 -> lt cmp K x) ->
  ordered cmp (l1 ++ l2) -> ordered cmp (l1 ++ K :: l2).
Proof.
  intros H1 H2 Ho. apply ordered_app in Ho as (Ho1 & Ho2 & Hc).
  apply ordered_app. split; [done|]. split.
  - simpl. split; [|done]. apply Forall_forall. done.
  - intros a b Ha Hb. apply elem_of_cons in Hb as [->|Hb]; [by apply H1|by apply Hc].
Qed.

Lemma ordered_remove l1 l l2 :
  ordered cmp (l1 ++ l ++ l2) -> ordered cmp (l1 ++ l2).
Proof.
  intros Ho. apply ordered_app in Ho as (Ho1 & Ho2 & Hc).
  apply ordered_app in Ho2 as (_ & Ho2 & _).
  apply ordered_app. split; [done|]. split; [done|].
  intros a b Ha Hb. apply Hc; [done|]. apply elem_of_app. by right.
Qed.

(** What the search knows when it stops. *)
Lemma found_facts K T :
  ordered cmp (keys T) ->
  inorder T = ctx_before (z_findNode cmp K [] T).1 ++
              inorder (z_findNode cmp K [] T).2 ++
              ctx_after (z_findNode cmp K [] T).1 /\
  between cmp K (z_findNode cmp K [] T).1 /\
  match (z_findNode cmp K [] T).2 with
  | PLeaf _ _ => True
  | PNode _ _ tl k' _ tr =>
      eqv cmp K k' /\
      (forall x, x ∈ keys tl -> lt cmp x K) /\
      (forall x, x ∈ keys tr -> lt cmp K x)
  end.
Proof.
  intros Ho.
  pose proof (z_findNode_plug cmp K [] T) as Hp. simpl in Hp.
  pose proof (z_findNode_between cmp Hcmp K [] T Ho) as Hb.
  pose proof (z_findNode_eqv cmp K [] T) as He.
  assert (inorder T = inorder (plug (z_findNode cmp K [] T).1 (z_findNode cmp K [] T).2))
    as Hi by (by rewrite Hp).
  rewrite inorder_plug in Hi.
  split; [done|]. split.
  { apply Hb. split; intros x Hx; simpl in Hx; by apply elem_of_nil in Hx. }
  unfold keys in Ho. rewrite Hi in Ho.
  destruct (z_findNode cmp K [] T).2 as [|a c tl k' v' tr]; [done|].
  split; [done|].
  rewrite !map_app in Ho. apply ordered_app in Ho as (_ & Ho & _).
  apply ordered_app in Ho as (Ho & _ & _). simpl in Ho.
  rewrite map_app in Ho. simpl in Ho.
  apply ordered_app in Ho as (_ & Hr & Hl). simpl in Hr. destruct Hr as [Hr _].
  split.
  - intros x Hx. eapply lt_eqv_l; [|done]. apply Hl; [done|left].
  - intros x Hx. eapply lt_eqv_r; [|done]. by eapply Forall_forall in Hr.
Qed.

Lemma absent_found K T :
  ordered cmp (keys T) ->
  is_leaf (z_findNode cmp K [] T).2 = true <-> absent K (inorder T).
Proof.
  intros Ho. destruct (found_facts K T Ho) as (Hi & [Hb1 Hb2] & Hn). split.
  - intros Hl p Hp. rewrite Hi, (inorder_leaf _ Hl) in Hp. simpl in Hp.
    apply elem_of_app in Hp as [Hp|Hp].
    + apply lt_not_eqv_l, Hb1. by apply list_elem_of_fmap_2.
    + apply lt_not_eqv_r, Hb2. by apply list_elem_of_fmap_2.
  - intros Ha. destruct (z_findNode cmp K [] T).2 as [|a c tl k' v' tr]; [done|].
    destruct (Ha (mkPair k' v')); [|tauto].
    rewrite Hi. simpl. apply elem_of_app. right. apply elem_of_app. left.
    apply elem_of_app. right. left.
Qed.

Lemma keys_plug_val ctx a c tl k v v' tr :
  keys (plug ctx (PNode a c tl k v' tr)) = keys (plug ctx (PNode a c tl k v tr)).
Proof.
  unfold keys. rewrite !inorder_plug. simpl. by rewrite !map_app.
Qed.

Lemma z_Add_ordered fuel K V l r T T' e :
  rb_ok T -> height T < fuel -> ordered cmp (keys T) ->
  z_Add cmp fuel K V l r T = Some (T', e) -> ordered cmp (keys T').
Proof.
  intros Hrb Hf Ho Hz.
  destruct (z_Add_ok cmp fuel K V l r T Hrb Hf) as (T1 & e1 & Ez & _ & Hm).
  rewrite Hz in Ez. simplify_eq.
  destruct (found_facts K T Ho) as (Hi & [Hb1 Hb2] & Hn).
  pose proof (z_findNode_plug cmp K [] T) as Hp. simpl in Hp.
  destruct (z_findNode cmp K [] T) as [ctx [a c|a c tl k' v' tr]]; simpl in *.
  - destruct Hm as [_ Hm]. unfold keys in *. rewrite Hm, Hi in *.
    rewrite map_app in *. simpl. by apply ordered_insert.
  - destruct Hm as [_ ->]. by rewrite (keys_plug_val _ _ _ _ _ v'), Hp.
Qed.

Lemma z_Set_ordered K V T :
  ordered cmp (keys T) -> ordered cmp (keys (z_Set cmp K V T).1).
Proof.
  intros Ho. unfold z_Set.
  pose proof (z_findNode_plug cmp K [] T) as Hp. simpl in Hp.
  destruct (z_findNode cmp K [] T) as [ctx [a c|a c tl k' v' tr]]; simpl in *; [done|].
  by rewrite (keys_plug_val _ _ _ _ _ v'), Hp.
Qed.

Lemma z_Delete_ordered fuel K T T' e :
  rb_ok T -> 3 * height T + 2 < fuel -> ordered cmp (keys T) ->
  z_Delete cmp fuel K T = Some (T', e) ->
  ordered cmp (keys T') /\ (e = None -> absent K (inorder T')).
Proof.
  intros Hrb Hf Ho Hz.
  destruct (z_Delete_ok cmp fuel K T Hrb Hf) as (T1 & e1 & Ez & _ & Hm).
  rewrite Hz in Ez. simplify_eq.
  destruct (found_facts K T Ho) as (Hi & [Hb1 Hb2] & Hn).
  destruct (z_findNode cmp K [] T) as [ctx [a c|a c tl k' v' tr]]; simpl in *.
  { destruct Hm as [-> ->]. done. }
  destruct Hm as [_ Hm]. destruct Hn as (He & Hl & Hr). split.
  - unfold keys in *. rewrite Hm, Hi in *.
    rewrite !map_app in *. simpl in Ho.
    rewrite <- !app_assoc in Ho. simpl in Ho.
    rewrite app_assoc. apply (ordered_remove _ [k']).
    rewrite <- app_assoc. exact Ho.
  - intros _ p Hp. rewrite Hm in Hp.
    apply elem_of_app in Hp as [Hp|Hp];
      [apply lt_not_eqv_l, Hb1; by apply list_elem_of_fmap_2|].
    apply elem_of_app in Hp as [Hp|Hp];
      [apply lt_not_eqv_l, Hl; by apply list_elem_of_fmap_2|].
    apply elem_of_app in Hp as [Hp|Hp];
      [apply lt_not_eqv_r, Hr; by apply list_elem_of_fmap_2|].
    apply lt_not_eqv_r, Hb2; by apply list_elem_of_fmap_2.
Qed.

End OrderOps.

(** * The map as a whole *)

Lemma Range_spec fuel s T :
  rep_store s T -> height T < fuel -> Range fuel s = Ok (inorder T, s).
Proof.
  intros [Hr V] Hf. unfold Range.
  exec (eq_refl : get_root s = Ok (root (mp s), s)). rewrite Hr.
  by apply (ran_spec fuel s [] T).
Qed.

(** The number of live nodes of a tree: sentinels do not count. *)
Fixpoint live (t : ptree) : nat :=
  match t with
  | PLeaf _ _ => 0
  | PNode _ _ l _ _ r => S (live l + live r)
  end.

Lemma live_inorder t : live t = length (inorder t).
Proof.
  induction t as [a c|a c l IHl k v r IHr]; simpl; [done|].
  rewrite length_app. simpl. lia.
Qed.

Lemma height_live t : height t <= live t.
Proof. induction t as [a c|a c l IHl k v r IHr]; simpl; lia. Qed.

(** What every public method keeps true of a map with comparator [cmp]. *)
Record Inv (cmp : CompareFunc) (s : store) (T : ptree) : Prop := {
  inv_rep : rep_store s T;
  inv_cmp : compareFunc (mp s) = cmp;
  inv_rb : rb_ok T;
  inv_ord : strict_weak_order cmp -> ordered cmp (keys T)
}.

Lemma NewMap_inv cmp :
  Inv cmp (NewMap cmp) (PLeaf (fresh (dom (∅ : gmap loc Node))) BLACK).
Proof.
  split; try done.
  - split; [done|]. split; simpl.
    + split; [|done]. unfold NewMap. simpl. by rewrite lookup_singleton_eq.
    + done.
    + apply NoDup_singleton.
  - split; [done|]. exists 1. done.
Qed.

Lemma Add_correct cmp fuel s T K V :
  Inv cmp s T -> height T < fuel ->
  exists s' T' e,
    Add fuel K V s = Ok (e, s') /\ Inv cmp s' T' /\
    match (z_findNode cmp K [] T).2 with
    | PLeaf _ _ =>
        e = None /\
        inorder T' = ctx_before (z_findNode cmp K [] T).1 ++
                     mkPair K V :: ctx_after (z_findNode cmp K [] T).1 /\
        size (mp s') = wrap_int (size (mp s) + 1)
    | PNode a c tl k' v' tr =>
        e = Some ErrNodeAlreadyExists /\
        T' = plug (z_findNode cmp K [] T).1 (PNode a c tl k' V tr) /\
        size (mp s') = size (mp s)
    end.
Proof.
  intros [Hrep Hcmp Hrb Hord] Hf.
  destruct (Add_spec fuel s T K V Hrep Hf) as (l & r & Hspec).
  rewrite Hcmp in Hspec.
  destruct (z_Add_ok cmp fuel K V l r T Hrb Hf) as (T' & e & Ez & Hrb' & Hm).
  destruct (Hspec T' e Ez) as (s' & E & Hrep' & Hcmp' & Hsz).
  exists s', T', e. split; [done|]. split.
  - split; [done|congruence|done|].
    intros Ho. exact (z_Add_ordered cmp Ho fuel K V l r T T' e Hrb Hf (Hord Ho) Ez).
  - destruct (z_findNode cmp K [] T).2; destruct Hm as [-> Hm]; done.
Qed.

Lemma Delete_correct cmp fuel s T K :
  Inv cmp s T -> 3 * height T + 2 < fuel ->
  exists s' T' e,
    Delete fuel K s = Ok (e, s') /\ Inv cmp s' T' /\ same_meta s s' /\
    (strict_weak_order cmp -> e = None -> absent cmp K (inorder T')) /\
    match (z_findNode cmp K [] T).2 with
    | PLeaf _ _ => e = Some ErrNodeNotExists /\ s' = s /\ T' = T
    | PNode a c tl k' v' tr =>
        e = None /\
        inorder T' = ctx_before (z_findNode cmp K [] T).1 ++ inorder tl ++
                     inorder tr ++ ctx_after (z_findNode cmp K [] T).1
    end.
Proof.
  intros [Hrep Hcmp Hrb Hord] Hf.
  destruct (z_Delete_ok cmp fuel K T Hrb Hf) as (T' & e & Ez & Hrb' & Hm).
  destruct (Delete_spec fuel s T K T' e Hrep ltac:(lia)) as (s' & E & Hrep' & Hmeta & Hsame).
  { by rewrite Hcmp. }
  exists s', T', e. split; [done|]. split; [|split; [done|split]].
  - split; [done|destruct Hmeta; congruence|done|].
    intros Ho. exact (proj1 (z_Delete_ordered cmp Ho fuel K T T' e Hrb Hf (Hord Ho) Ez)).
  - intros Ho. exact (proj2 (z_Delete_ordered cmp Ho fuel K T T' e Hrb Hf (Hord Ho) Ez)).
  - destruct (z_findNode cmp K [] T).2; destruct Hm as [-> Hm]; [|done].
    split; [done|]. split; [by apply Hsame|done].
Qed.

Lemma Set_correct cmp fuel s T K V :
  Inv cmp s T -> height T < fuel ->
  exists s',
    Set_ fuel K V s = Ok ((z_Set cmp K V T).2, s') /\
    Inv cmp s' (z_Set cmp K V T).1 /\ mp s' = mp s.
Proof.
  intros [Hrep Hcmp Hrb Hord] Hf.
  destruct (Set_spec fuel s T K V Hrep Hf) as (s' & E & Hrep' & _ & Hmp).
  rewrite Hcmp in *.
  exists s'. split; [done|]. split; [|done].
  split; [done|by rewrite Hmp|by apply z_Set_ok|].
  intros Ho. by apply z_Set_ordered; auto.
Qed.

Lemma Get_correct cmp fuel s T K :
  Inv cmp s T -> height T < fuel -> Get fuel K s = Ok (z_Get cmp K T, s).
Proof.
  intros [Hrep Hcmp Hrb Hord] Hf. rewrite <- Hcmp. by apply Get_spec.
Qed.

(** ** Sequences of operations *)

Inductive op :=
  | OpAdd (k : keyItem) (v : valItem)
  | OpDelete (k : keyItem)
  | OpSet (k : keyItem) (v : valItem).

Definition run_op (fuel : nat) (o : op) : M unit :=
  match o with
  | OpAdd k v => Add fuel k v ;;; ret tt
  | OpDelete k => Delete fuel k ;;; ret tt
  | OpSet k v => Set_ fuel k v ;;; ret tt
  end.

Fixpoint run_ops (fuel : nat) (ops : list op) : M unit :=
  match ops with
  | [] => ret tt
  | o :: ops' => run_op fuel o ;;; run_ops fuel ops'
  end.

Lemma inorder_found cmp K T :
  inorder T = ctx_before (z_findNode cmp K [] T).1 ++
              inorder (z_findNode cmp K [] T).2 ++
              ctx_after (z_findNode cmp K [] T).1.
Proof.
  pose proof (z_findNode_plug cmp K [] T) as Hp. simpl in Hp.
  rewrite <- Hp at 1. apply inorder_plug.
Qed.

Lemma live_plug_val ctx a c tl k v v' tr :
  live (plug ctx (PNode a c tl k v' tr)) = live (plug ctx (PNode a c tl k v tr)).
Proof.
  rewrite !live_inorder, !inorder_plug, !length_app. simpl.
  by rewrite ?length_app.
Qed.

Lemma run_op_inv cmp fuel o s T :
  Inv cmp s T -> 3 * live T + 2 < fuel ->
  exists s' T', run_op fuel o s = Ok (tt, s') /\ Inv cmp s' T' /\ live T' <= S (live T).
Proof.
  intros HI Hf. pose proof (height_live T) as Hh.
  pose proof (inorder_found cmp) as Hi.
  destruct o as [K V|K|K V]; unfold run_op.
  - destruct (Add_correct cmp fuel s T K V HI ltac:(lia)) as (s' & T' & e & E & HI' & Hm).
    exists s', T'. split; [by rewrite (bind_ok _ _ _ _ _ E)|]. split; [done|].
    specialize (Hi K T).
    pose proof (z_findNode_plug cmp K [] T) as Hp. simpl in Hp.
    destruct (z_findNode cmp K [] T) as [ctx [a c|a c tl k' v' tr]]; simpl in *.
    + destruct Hm as (_ & Hm & _). rewrite !live_inorder, Hm, Hi, !length_app.
      simpl. lia.
    + destruct Hm as (_ & -> & _). rewrite (live_plug_val _ _ _ _ _ v'), Hp. lia.
  - destruct (Delete_correct cmp fuel s T K HI ltac:(lia))
      as (s' & T' & e & E & HI' & _ & _ & Hm).
    exists s', T'. split; [by rewrite (bind_ok _ _ _ _ _ E)|]. split; [done|].
    specialize (Hi K T).
    destruct (z_findNode cmp K [] T) as [ctx [a c|a c tl k' v' tr]]; simpl in *.
    + destruct Hm as (_ & _ & ->). lia.
    + destruct Hm as (_ & Hm). rewrite !live_inorder, Hm, Hi, !length_app.
      simpl. rewrite ?length_app. simpl. lia.
  - destruct (Set_correct cmp fuel s T K V HI ltac:(lia)) as (s' & E & HI' & _).
    exists s', (z_Set cmp K V T).1. split; [by rewrite (bind_ok _ _ _ _ _ E)|].
    split; [done|]. unfold z_Set.
    pose proof (z_findNode_plug cmp K [] T) as Hp. simpl in Hp.
    destruct (z_findNode cmp K [] T) as [ctx [a c|a c tl k' v' tr]]; simpl in *; [lia|].
    rewrite (live_plug_val _ _ _ _ _ v'), Hp. lia.
Qed.

Lemma run_ops_inv cmp fuel ops s T :
  Inv cmp s T -> 3 * (live T + length ops) + 2 < fuel ->
  exists s' T', run_ops fuel ops s = Ok (tt, s') /\ Inv cmp s' T' /\
                live T' <= live T + length ops.
Proof.
  revert s T. induction ops as [|o ops IH]; intros s T HI Hf; simpl in *.
  - exists s, T. split; [done|]. split; [done|lia].
  - destruct (run_op_inv cmp fuel o s T HI ltac:(lia)) as (s1 & T1 & E1 & HI1 & Hl1).
    destruct (IH s1 T1 HI1 ltac:(lia)) as (s2 & T2 & E2 & HI2 & Hl2).
    exists s2, T2. split; [by rewrite (bind_ok _ _ _ _ _ E1)|]. split; [done|lia].
Qed.

(** The maps a client can hold: built by [NewMap] and the three methods
    that change a map; [fuel] bounds the depth of every recursion. *)
Definition reachable (cmp : CompareFunc) (fuel : nat) (s : store) : Prop :=
  exists ops, 3 * length ops + 2 < fuel /\ run_ops fuel ops (NewMap cmp) = Ok (tt, s).

Lemma reachable_inv cmp fuel s :
  reachable cmp fuel s -> exists T, Inv cmp s T /\ 3 * live T + 2 < fuel.
Proof.
  intros (ops & Hf & E).
  destruct (run_ops_inv cmp fuel ops _ _ (NewMap_inv cmp) ltac:(simpl; lia))
    as (s' & T & E' & HI & Hl).
  rewrite E in E'. simplify_eq. exists T. split; [done|]. simpl in Hl. lia.
Qed.

(** ** Height of a red-black tree *)

Lemma rbt_height n t :
  rbt n t -> height t + 2 <= 2 * n + (if color_of t then 1 else 0).
Proof.
  revert n. induction t as [a c|a c l IHl k v r IHr]; intros n; simpl.
  - intros [-> ->]. simpl. lia.
  - destruct c.
    + intros (Hcl & Hcr & Hl & Hr). apply IHl in Hl. apply IHr in Hr.
      unfold BLACK in *. rewrite Hcl in Hl. rewrite Hcr in Hr. lia.
    + destruct n as [|m]; [done|]. intros [Hl Hr]. apply IHl in Hl. apply IHr in Hr.
      destruct (color_of l), (color_of r); lia.
Qed.

Lemma rbt_live n t : rbt n t -> 2 ^ n <= 2 * (live t + 1).
Proof.
  revert n. induction t as [a c|a c l IHl k v r IHr]; intros n; simpl.
  - intros [_ ->]. simpl. lia.
  - destruct c.
    + intros (_ & _ & Hl & Hr). apply IHl in Hl. apply IHr in Hr. lia.
    + destruct n as [|m]; [done|]. intros [Hl Hr]. apply IHl in Hl. apply IHr in Hr.
      rewrite Nat.pow_succ_r'. lia.
Qed.

Lemma rb_ok_height T : rb_ok T -> height T <= 2 * Nat.log2 (live T + 1).
Proof.
  intros [Hc [n Hn]]. pose proof (rbt_height n T Hn) as Hh.
  pose proof (rbt_live n T Hn) as Hl. unfold BLACK in Hc. rewrite Hc in Hh.
  assert (n <= Nat.log2 (2 * (live T + 1))) as Hlog.
  { apply Nat.log2_le_pow2; [lia|done]. }
  rewrite Nat.log2_double in Hlog by lia. lia.
Qed.

(** * The properties of the specification *)

(** C1.  Take a new map and apply any finite sequence of [Add],
    [Delete] and [Set] to it.  Every call returns, and the map then holds
    a red-black tree: the root is BLACK (a lone sentinel when the map is
    empty), every sentinel is BLACK, no RED node has a RED child, and
    every node has the same number of BLACK nodes on all its paths down
    to sentinels.  [Range] yields the in-order sequence of that tree, and
    its keys are strictly increasing for the comparator (so no key occurs
    twice) when the comparator is a strict weak order.  Colours are
    booleans, so every node is RED or BLACK. *)
Theorem red_black_after_ops cmp fuel ops :
  3 * length ops + 2 < fuel ->
  exists s T,
    run_ops fuel ops (NewMap cmp) = Ok (tt, s) /\
    rep_store s T /\ is_rb T /\
    Range fuel s = Ok (inorder T, s) /\
    (strict_weak_order cmp -> ordered cmp (map Key (inorder T))).
Proof.
  intros Hf.
  destruct (run_ops_inv cmp fuel ops _ _ (NewMap_inv cmp) ltac:(simpl; lia))
    as (s & T & E & [Hrep Hcmp Hrb Hord] & Hl).
  exists s, T. split; [done|]. split; [done|]. split; [by apply is_rb_rbt|].
  split; [|done]. apply Range_spec; [done|].
  pose proof (height_live T). simpl in Hl. lia.
Qed.

(** C6.  A map a client can reach holds a tree whose height, the number
    of nodes on the longest path from the root down to a sentinel, is at
    most twice the binary logarithm of the number of live nodes plus one.
    The live nodes are the pairs [Range] yields. *)
Theorem height_bound cmp fuel s :
  reachable cmp fuel s ->
  exists T,
    rep_store s T /\ Range fuel s = Ok (inorder T, s) /\
    live T = length (inorder T) /\
    height T <= 2 * Nat.log2 (live T + 1).
Proof.
  intros Hr. destruct (reachable_inv cmp fuel s Hr) as (T & [Hrep Hcmp Hrb Hord] & Hf).
  exists T. split; [done|]. split; [|split].
  - apply Range_spec; [done|]. pose proof (height_live T). lia.
  - apply live_inorder.
  - by apply rb_ok_height.
Qed.

(** Keys no two of which the comparator equates. *)
Fixpoint pairwise_distinct (cmp : CompareFunc) (l : list keyItem) : Prop :=
  match l with
  | [] => True
  | a :: l' =>
      Forall (fun b => lt cmp a b \/ lt cmp b a) l' /\ pairwise_distinct cmp l'
  end.

Definition adds (kvs : list Pair) : list op :=
  map (fun p => OpAdd (Key p) (Val p)) kvs.

Lemma adds_inv cmp fuel kvs s T :
  strict_weak_order cmp -> Inv cmp s T ->
  (forall p, p ∈ kvs -> absent cmp (Key p) (inorder T)) ->
  pairwise_distinct cmp (map Key kvs) ->
  3 * (live T + length kvs) + 2 < fuel ->
  exists s' T', run_ops fuel (adds kvs) s = Ok (tt, s') /\ Inv cmp s' T' /\
                inorder T' ≡ₚ inorder T ++ kvs.
Proof.
  intros Hcmp. revert s T.
  induction kvs as [|[K V] kvs IH]; intros s T HI Habs Hd Hf; simpl in *.
  - exists s, T. split; [done|]. split; [done|]. by rewrite app_nil_r.
  - destruct Hd as [Hd1 Hd2]. pose proof (height_live T) as Hh.
    destruct (Add_correct cmp fuel s T K V HI ltac:(lia)) as (s1 & T1 & e & E & HI1 & Hm).
    pose proof (inorder_found cmp K T) as Hi.
    pose proof (proj2 (absent_found cmp Hcmp K T (inv_ord _ _ _ HI Hcmp))) as Hleaf.
    specialize (Hleaf (Habs (mkPair K V) ltac:(left))).
    destruct (z_findNode cmp K [] T) as [ctx [a c|a c tl k' v' tr]]; simpl in *; [|done].
    destruct Hm as (_ & Hm & _).
    assert (inorder T1 ≡ₚ mkPair K V :: inorder T) as Hperm.
    { rewrite Hm, Hi. by rewrite Permutation_middle. }
    destruct (IH s1 T1 HI1) as (s2 & T2 & E2 & HI2 & Hp2).
    + intros q Hq r Hr. rewrite Hperm in Hr.
      apply elem_of_cons in Hr as [->|Hr]; [|by apply (Habs q); [right|]].
      simpl. eapply Forall_forall in Hd1; [|apply list_elem_of_fmap_2; exact Hq].
      destruct Hd1 as [Hlt|Hlt].
      * by apply lt_not_eqv_l.
      * by apply lt_not_eqv_r.
    + done.
    + rewrite !live_inorder in *. rewrite Hperm. simpl. lia.
    + exists s2, T2. split; [by exec E|]. split; [done|].
      rewrite Hp2, Hperm. simpl. by rewrite Permutation_middle.
Qed.

(** C3.  Add pairs with pairwise distinct keys to a new map.  [Range]
    then yields exactly these pairs, each once and with the value it was
    added with, by strictly increasing key.  Sentinels contribute
    nothing: the sequence has as many pairs as were added. *)
Theorem Range_after_adds cmp fuel kvs :
  strict_weak_order cmp ->
  pairwise_distinct cmp (map Key kvs) ->
  3 * length kvs + 2 < fuel ->
  exists s out,
    run_ops fuel (adds kvs) (NewMap cmp) = Ok (tt, s) /\
    Range fuel s = Ok (out, s) /\
    out ≡ₚ kvs /\ ordered cmp (map Key out) /\ length out = length kvs.
Proof.
  intros Hcmp Hd Hf.
  destruct (adds_inv cmp fuel kvs _ _ Hcmp (NewMap_inv cmp)) as (s & T & E & HI & Hp).
  - intros p _ q Hq. by apply elem_of_nil in Hq.
  - done.
  - simpl. lia.
  - simpl in Hp. exists s, (inorder T). split; [done|].
    assert (length (inorder T) = length kvs) as Hlen by (by rewrite Hp).
    split; [|split; [done|split; [|done]]].
    + apply Range_spec; [apply HI|]. pose proof (height_live T).
      rewrite live_inorder in *. lia.
    + by apply (inv_ord _ _ _ HI).
Qed.

(** ** Present and absent keys *)

Lemma z_Get_absent cmp K T :
  absent cmp K (inorder T) -> z_Get cmp K T = (false, nilVal).
Proof.
  intros Ha. unfold z_Get.
  pose proof (inorder_found cmp K T) as Hi.
  pose proof (z_findNode_eqv cmp K [] T) as He.
  destruct (z_findNode cmp K [] T) as [ctx [a c|a c tl k' v' tr]]; simpl in *; [done|].
  destruct (Ha (mkPair k' v')); [|done].
  rewrite Hi. apply elem_of_app. right. apply elem_of_app. left.
  apply elem_of_app. right. left.
Qed.

(** In an ordered tree the search stops at the one pair whose key the
    comparator equates with [K], when there is one. *)
Lemma found_present cmp K T p :
  strict_weak_order cmp -> ordered cmp (keys T) ->
  p ∈ inorder T -> eqv cmp K (Key p) ->
  exists ctx a c tl tr,
    z_findNode cmp K [] T = (ctx, PNode a c tl (Key p) (Val p) tr) /\
    absent cmp K (ctx_before ctx ++ inorder tl) /\
    absent cmp K (inorder tr ++ ctx_after ctx).
Proof.
  intros Hcmp Ho Hp He.
  destruct (found_facts cmp Hcmp K T Ho) as (Hi & [Hb1 Hb2] & Hn).
  destruct (z_findNode cmp K [] T) as [ctx t] eqn:Ef. simpl in *.
  assert (forall q, q ∈ ctx_before ctx -> ~ eqv cmp K (Key q)) as H1.
  { intros q Hq. apply lt_not_eqv_l, Hb1; [done|]. by apply list_elem_of_fmap_2. }
  assert (forall q, q ∈ ctx_after ctx -> ~ eqv cmp K (Key q)) as H2.
  { intros q Hq. apply lt_not_eqv_r, Hb2. by apply list_elem_of_fmap_2. }
  rewrite Hi in Hp.
  destruct t as [a c|a c tl k' v' tr]; simpl in *.
  { apply elem_of_app in Hp as [Hp|Hp]; [by destruct (H1 p)|by destruct (H2 p)]. }
  destruct Hn as (_ & Hl & Hr).
  assert (forall q, q ∈ inorder tl -> ~ eqv cmp K (Key q)) as H3.
  { intros q Hq. apply lt_not_eqv_l, Hl; [done|]. by apply list_elem_of_fmap_2. }
  assert (forall q, q ∈ inorder tr -> ~ eqv cmp K (Key q)) as H4.
  { intros q Hq. apply lt_not_eqv_r, Hr. by apply list_elem_of_fmap_2. }
  assert (p = mkPair k' v') as ->.
  { apply elem_of_app in Hp as [Hp|Hp]; [by destruct (H1 p)|].
    apply elem_of_app in Hp as [Hp|Hp]; [|by destruct (H2 p)].
    apply elem_of_app in Hp as [Hp|Hp]; [by destruct (H3 p)|].
    apply elem_of_cons in Hp as [Hp|Hp]; [done|by destruct (H4 p)]. }
  exists ctx, a, c, tl, tr. split; [done|]. split.
  - intros q Hq. apply elem_of_app in Hq as [Hq|Hq]; auto.
  - intros q Hq. apply elem_of_app in Hq as [Hq|Hq]; auto.
Qed.

Lemma Add_found_heap fuel s T K V ctx a c tl k' v' tr :
  rep_store s T -> height T < fuel ->
  z_findNode (compareFunc (mp s)) K [] T = (ctx, PNode a c tl k' v' tr) ->
  exists n, nodes s !! a = Some n /\ key n = k' /\ val n = v' /\
    Add fuel K V s
      = Ok (Some ErrNodeAlreadyExists,
            mkStore (mp s) (<[a := with_val V n]> (nodes s))).
Proof.
  intros [Hr W] Hf Ef. unfold Add.
  exec (eq_refl : get_root s = Ok (root (mp s), s)). rewrite Hr.
  destruct (findNode_spec fuel s [] T K W Hf) as [E W'].
  exec E. exec (isLeaf_focus _ _ _ W'). rewrite Ef in *. simpl in *.
  pose proof (rep_root_cell _ _ _ (ra_tree _ _ _ W')) as Hc. simpl in Hc.
  eexists. split; [exact Hc|]. split; [done|]. split; [done|].
  unfold set_val, modify, bind, ret. by rewrite Hc.
Qed.

(** C4.  [Add] with a key the map already holds.  Exactly one node of the
    store changes and only in its value field, so the shape of the tree
    and every colour stay as they were and no fix-up runs; the call
    returns [ErrNodeAlreadyExists]; the root, the comparator and the size
    counter are untouched.  [Range] afterwards yields the former pairs
    with the one for that key now holding the new value, no other pair
    has that key, and [Get] finds the new value. *)
Theorem Add_existing_key cmp fuel s K V out p :
  strict_weak_order cmp -> reachable cmp fuel s ->
  Range fuel s = Ok (out, s) -> p ∈ out -> eqv cmp K (Key p) ->
  exists a n l1 l2 s',
    nodes s !! a = Some n /\ key n = Key p /\ val n = Val p /\
    s' = mkStore (mp s) (<[a := with_val V n]> (nodes s)) /\
    Add fuel K V s = Ok (Some ErrNodeAlreadyExists, s') /\
    Len s' = Ok (size (mp s), s') /\
    out = l1 ++ p :: l2 /\ absent cmp K (l1 ++ l2) /\
    Range fuel s' = Ok (l1 ++ mkPair (Key p) V :: l2, s') /\
    Get fuel K s' = Ok ((true, V), s').
Proof.
  intros Hcmp Hreach HR Hp He.
  destruct (reachable_inv cmp fuel s Hreach) as (T & HI & Hf).
  pose proof (height_live T) as Hh.
  rewrite (Range_spec fuel s T (inv_rep _ _ _ HI) ltac:(lia)) in HR. simplify_eq.
  destruct (found_present cmp K T p Hcmp (inv_ord _ _ _ HI Hcmp) Hp He)
    as (ctx & a & c & tl & tr & Ef & Ha1 & Ha2).
  destruct p as [k' v']. simpl in *.
  pose proof (inv_cmp _ _ _ HI) as Hc.
  destruct (Add_found_heap fuel s T K V ctx a c tl k' v' tr (inv_rep _ _ _ HI))
    as (n & Hn & Hk & Hv & E); [lia|by rewrite Hc|].
  destruct (Add_correct cmp fuel s T K V HI ltac:(lia)) as (s1 & T1 & e & E1 & HI1 & Hm).
  rewrite E in E1. pose proof (inorder_found cmp K T) as Hi.
  pose proof (z_findNode_plug cmp K [] T) as Hpl.
  rewrite Ef in Hm, Hi, Hpl. simpl in *. destruct Hm as (-> & -> & Hsz).
  injection E1 as <-.
  assert (inorder (plug ctx (PNode a c tl k' V tr))
          = (ctx_before ctx ++ inorder tl) ++ mkPair k' V :: inorder tr ++ ctx_after ctx)
    as Hi1 by (rewrite inorder_plug; simpl; by lnorm).
  assert (live (plug ctx (PNode a c tl k' V tr)) = live T) as Hlive
    by (by rewrite (live_plug_val _ _ _ _ _ v'), Hpl).
  pose proof (height_live (plug ctx (PNode a c tl k' V tr))) as Hh1.
  exists a, n, (ctx_before ctx ++ inorder tl), (inorder tr ++ ctx_after ctx).
  eexists. split; [done|]. split; [done|]. split; [done|]. split; [reflexivity|].
  split; [done|]. split; [done|]. split; [rewrite Hi; by lnorm|]. split.
  { intros q Hq. apply elem_of_app in Hq as [Hq|Hq]; auto. }
  split.
  - rewrite <- Hi1. apply Range_spec; [apply HI1|lia].
  - rewrite (Get_correct cmp fuel _ _ K HI1) by lia. do 2 f_equal.
    destruct (found_present cmp K _ (mkPair k' V) Hcmp (inv_ord _ _ _ HI1 Hcmp))
      as (ctx2 & a2 & c2 & tl2 & tr2 & Ef2 & _); [|done|].
    + rewrite Hi1. apply elem_of_app. right. left.
    + unfold z_Get. by rewrite Ef2.
Qed.

(** C5.  [Delete] of a key the map does not hold returns
    [ErrNodeNotExists] and leaves the store as it was.  [Delete] of a key
    the map holds returns no error and removes that pair from what
    [Range] yields.  After a [Delete] that returned no error, [Get] of
    the key reports absence and a second [Delete] returns
    [ErrNodeNotExists]. *)
Theorem Delete_then_lookup cmp fuel s K :
  strict_weak_order cmp -> reachable cmp fuel s ->
  (forall out, Range fuel s = Ok (out, s) -> absent cmp K out ->
     Delete fuel K s = Ok (Some ErrNodeNotExists, s)) /\
  (forall out p, Range fuel s = Ok (out, s) -> p ∈ out -> eqv cmp K (Key p) ->
     exists s' l1 l2, Delete fuel K s = Ok (None, s') /\
       out = l1 ++ p :: l2 /\ Range fuel s' = Ok (l1 ++ l2, s')) /\
  (forall s', Delete fuel K s = Ok (None, s') ->
     Get fuel K s' = Ok ((false, nilVal), s') /\
     Delete fuel K s' = Ok (Some ErrNodeNotExists, s')).
Proof.
  intros Hcmp Hreach.
  destruct (reachable_inv cmp fuel s Hreach) as (T & HI & Hf).
  pose proof (height_live T) as Hh.
  pose proof (Range_spec fuel s T (inv_rep _ _ _ HI) ltac:(lia)) as HR.
  destruct (Delete_correct cmp fuel s T K HI ltac:(lia))
    as (s1 & T1 & e & E1 & HI1 & _ & Habs & Hm).
  pose proof (inorder_found cmp K T) as Hi.
  split; [|split].
  - intros out HR' Ha. rewrite HR in HR'. simplify_eq.
    apply (absent_found cmp Hcmp K T (inv_ord _ _ _ HI Hcmp)) in Ha.
    destruct (z_findNode cmp K [] T).2; [|done].
    by destruct Hm as (-> & -> & _).
  - intros out p HR' Hp He. rewrite HR in HR'. simplify_eq.
    destruct (found_present cmp K T p Hcmp (inv_ord _ _ _ HI Hcmp) Hp He)
      as (ctx & a & c & tl & tr & Ef & _).
    rewrite Ef in Hm, Hi. simpl in *. destruct Hm as (-> & Hm).
    exists s1, (ctx_before ctx ++ inorder tl), (inorder tr ++ ctx_after ctx).
    split; [done|]. split; [rewrite Hi; destruct p; by lnorm|].
    replace ((ctx_before ctx ++ inorder tl) ++ inorder tr ++ ctx_after ctx)
      with (inorder T1) by (rewrite Hm; by lnorm).
    apply Range_spec; [apply HI1|].
    pose proof (height_live T1). rewrite !live_inorder in *.
    rewrite Hm, Hi, ?length_app in *. simpl in *. rewrite ?length_app in *. lia.
  - intros s' E. rewrite E in E1. simplify_eq.
    specialize (Habs Hcmp eq_refl).
    assert (live T1 <= live T) as Hlive.
    { destruct (z_findNode cmp K [] T) as [ctx [a c|a c tl k' v' tr]]; simpl in *.
      - by destruct Hm as (? & _).
      - destruct Hm as (_ & Hm). rewrite !live_inorder, Hm, Hi, ?length_app.
        simpl. rewrite ?length_app. simpl. lia. }
    pose proof (height_live T1) as Hh1.
    split.
    + rewrite (Get_correct cmp fuel _ _ K HI1) by lia. by rewrite z_Get_absent.
    + destruct (Delete_correct cmp fuel s1 T1 K HI1 ltac:(lia))
        as (s2 & T2 & e2 & E2 & _ & _ & _ & Hm2).
      apply (absent_found cmp Hcmp K T1 (inv_ord _ _ _ HI1 Hcmp)) in Habs.
      destruct (z_findNode cmp K [] T1).2; [|done].
      by destruct Hm2 as (-> & -> & _).
Qed.

(** C7.  A node of a tree the map holds, at any depth.  When its right
    child is not a sentinel, [rotateLeft] on it returns, and [Range]
    afterwards yields the pairs it yielded before; the same for
    [rotateRight] when the left child is not a sentinel. *)
Theorem rotations_keep_inorder fuel s ctx a c l k v r :
  rep_at s ctx (PNode a c l k v r) ->
  root (mp s) = Some (top_addr ctx (PNode a c l k v r)) ->
  live (plug ctx (PNode a c l k v r)) < fuel ->
  Range fuel s = Ok (inorder (plug ctx (PNode a c l k v r)), s) /\
  (is_leaf r = false ->
   exists s', rotateLeft (Some a) s = Ok (tt, s') /\
     Range fuel s' = Ok (inorder (plug ctx (PNode a c l k v r)), s')) /\
  (is_leaf l = false ->
   exists s', rotateRight (Some a) s = Ok (tt, s') /\
     Range fuel s' = Ok (inorder (plug ctx (PNode a c l k v r)), s')).
Proof.
  intros W Hroot Hf.
  assert (forall s' t', rep_at s' ctx t' -> root (mp s') = Some (top_addr ctx t') ->
            inorder t' = inorder (PNode a c l k v r) ->
            Range fuel s' = Ok (inorder (plug ctx (PNode a c l k v r)), s')) as Hrange.
  { intros s' t' W' Hr' Hi.
    pose proof (inorder_plug_congr ctx _ _ Hi) as Hi'.
    assert (live (plug ctx t') = live (plug ctx (PNode a c l k v r))) as Hl
      by (rewrite !live_inorder; by rewrite Hi').
    rewrite <- Hi'. apply Range_spec; [by apply rep_store_plug|].
    pose proof (height_live (plug ctx t')). lia. }
  split; [by apply (Hrange s _ W)|]. split.
  - intros Hl. destruct r as [|b cb rl kb vb rr]; [done|].
    destruct (rotateLeft_focus s ctx _ _ W eq_refl) as (s' & E & W' & Hr' & _).
    exists s'. split; [exact E|]. apply (Hrange s' _ W').
    + eapply root_after_rotate; [|exact Hr']. by intros _.
    + simpl. by lnorm.
  - intros Hl. destruct l as [|b cb ll kb vb lr]; [done|].
    destruct (rotateRight_focus s ctx _ _ W eq_refl) as (s' & E & W' & Hr' & _).
    exists s'. split; [exact E|]. apply (Hrange s' _ W').
    + eapply root_after_rotate; [|exact Hr']. by intros _.
    + simpl. by lnorm.
Qed.




(** C10.  One step of the lookup at a node that is not a sentinel: the
    comparator gets the key searched for first and the key of the node
    second; on 1 the lookup goes on in the left child, on 2 in the right
    child, and on any other answer it returns the node.  At a sentinel it
    returns the sentinel.  [Get], [Set], [Add] and [Delete] all decide by
    the node this lookup returns from the root. *)
Theorem findNode_compare fuel s a n K V :
  nodes s !! a = Some n ->
  (left n = None -> right n = None ->
     findNode (S fuel) (Some a) K s = Ok (Some a, s)) /\
  (left n <> None \/ right n <> None ->
     (compareFunc (mp s) K (key n) = 1%N ->
        findNode (S fuel) (Some a) K s = findNode fuel (left n) K s) /\
     (compareFunc (mp s) K (key n) = 2%N ->
        findNode (S fuel) (Some a) K s = findNode fuel (right n) K s) /\
     (compareFunc (mp s) K (key n) <> 1%N ->
      compareFunc (mp s) K (key n) <> 2%N ->
        findNode (S fuel) (Some a) K s = Ok (Some a, s))) /\
  (findNode fuel (root (mp s)) K s = Ok (Some a, s) ->
     if bool_decide (left n = None /\ right n = None) then
       Get fuel K s = Ok ((false, nilVal), s) /\
       Set_ fuel K V s = Ok (false, s) /\
       Delete fuel K s = Ok (Some ErrNodeNotExists, s) /\
       Add fuel K V s =
         (insertNode fuel (Some a) K V ;;;
          sz <- get_size ; set_size (wrap_int (sz + 1)) ;;; ret None) s
     else
       Get fuel K s = Ok ((true, val n), s) /\
       Set_ fuel K V s = Ok (true, mkStore (mp s) (<[a := with_val V n]> (nodes s))) /\
       Add fuel K V s = Ok (Some ErrNodeAlreadyExists,
                            mkStore (mp s) (<[a := with_val V n]> (nodes s))) /\
       Delete fuel K s = (eraseNode fuel (Some a) ;;; ret None) s).
Proof.
  intros Hn.
  assert (isLeaf (Some a) s = Ok (bool_decide (left n = None /\ right n = None), s)) as HL.
  { unfold isLeaf, get_left, get_right, load, bind, ret. simpl. rewrite Hn.
    destruct (left n) eqn:El, (right n) eqn:Er; simpl; rewrite ?Hn; simpl;
      rewrite ?Er; done. }
  assert (get_key (Some a) s = Ok (key n, s)) as HK.
  { unfold get_key, load, bind, ret. simpl. by rewrite Hn. }
  split; [|split].
  - intros El Er. simpl. rewrite (bind_ok _ _ _ _ _ HL).
    by rewrite bool_decide_eq_true_2.
  - intros Hnl.
    assert (findNode (S fuel) (Some a) K s =
            if (compareFunc (mp s) K (key n) =? 1)%N then findNode fuel (left n) K s
            else if (compareFunc (mp s) K (key n) =? 2)%N
                 then findNode fuel (right n) K s
                 else Ok (Some a, s)) as ->.
    { simpl. rewrite (bind_ok _ _ _ _ _ HL).
      rewrite bool_decide_eq_false_2 by (intros [? ?]; destruct Hnl; done).
      rewrite (bind_ok _ _ _ _ _ HK). unfold compare at 1. unfold bind at 1.
      destruct (_ =? 1)%N; [|destruct (_ =? 2)%N; [|done]].
      all: unfold get_left, get_right, load, bind, ret; simpl; by rewrite Hn. }
    split; [|split].
    + intros ->. done.
    + intros ->. done.
    + intros H1 H2. apply N.eqb_neq in H1, H2. by rewrite H1, H2.
  - intros Ef.
    assert (get_root s = Ok (root (mp s), s)) as HR by done.
    unfold Get, Set_, Add, Delete.
    rewrite !(bind_ok _ _ _ _ _ HR), !(bind_ok _ _ _ _ _ Ef), !(bind_ok _ _ _ _ _ HL).
    destruct (bool_decide _); [done|].
    unfold get_val, set_val, modify, load, bind, ret. simpl. by rewrite Hn.
Qed.

Lemma rightpath_last t f p leaf :
  rightpath t = (f :: p, leaf) ->
  f_isLeft f = false /\ is_leaf leaf = true /\
  (forall g, g ∈ p -> f_isLeft g = false) /\
  plug p (PNode (f_addr f) (f_color f) (f_sib f) (f_key f) (f_val f) leaf) = t /\
  last (inorder t) = Some (mkPair (f_key f) (f_val f)).
Proof.
  intros E.
  pose proof (rightpath_plug t) as Hpl.
  pose proof (rightpath_leaf t) as Hlf.
  pose proof (rightpath_right t) as Hrt.
  pose proof (rightpath_after t) as Haf.
  rewrite E in *. simpl in *.
  pose proof (Hrt f ltac:(left)) as Hf. rewrite Hf in Haf. simpl in Haf.
  unfold plug1 in Hpl. rewrite Hf in Hpl.
  split; [done|]. split; [done|]. split; [by intros g Hg; apply Hrt; right|].
  split; [done|].
  rewrite <- Hpl, inorder_plug, Haf. simpl. rewrite (inorder_leaf leaf) by done.
  rewrite app_nil_r, app_assoc. apply last_snoc.
Qed.

(** The splice of a node whose children are both not sentinels, step by
    step: [getLeftMostChild] returns the last node on the right spine of
    the left subtree, its key and value are written into the node, and
    the recursion goes on at that node, which is spliced out. *)
Lemma eraseNode_two_children fuel s ctx a c l k v r :
  rep_at s ctx (PNode a c l k v r) ->
  is_leaf l = false -> is_leaf r = false ->
  S (height l) < fuel ->
  exists f p leaf s1 s2 t1,
    rightpath l = (f :: p, leaf) /\
    f_isLeft f = false /\ is_leaf leaf = true /\
    (forall g, g ∈ p -> f_isLeft g = false) /\
    plug p (PNode (f_addr f) (f_color f) (f_sib f) (f_key f) (f_val f) leaf) = l /\
    last (inorder l) = Some (mkPair (f_key f) (f_val f)) /\
    getLeftMostChild fuel (Some a) s = Ok (Some (f_addr f), s) /\
    (set_key (Some a) (f_key f) ;;; set_val (Some a) (f_val f)) s = Ok (tt, s1) /\
    rep_at s1 (p ++ Frame true a c (f_key f) (f_val f) r :: ctx)
           (PNode (f_addr f) (f_color f) (f_sib f) (f_key f) (f_val f) leaf) /\
    eraseNode_splice (S fuel) (Some a) s
      = eraseNode_splice fuel (Some (f_addr f)) s1 /\
    eraseNode_splice fuel (Some (f_addr f)) s1
      = Ok (if f_color f then None else Some (Some (addr t1)), s2) /\
    rep_at s2 (p ++ Frame true a c (f_key f) (f_val f) r :: ctx) t1 /\
    inorder (plug (p ++ Frame true a c (f_key f) (f_val f) r :: ctx) t1)
      = ctx_before ctx ++ inorder l ++ inorder r ++ ctx_after ctx.
Proof.
  intros W ELl ELr Hf.
  pose proof (rep_at_go_down _ (Frame true a c k v r) _ _ W) as Wl.
  pose proof (rep_at_go_down _ (Frame false a c k v l) _ _ W) as Wr.
  destruct (getLeftMostChild_loop_spec fuel _ _ _ Wl ltac:(lia)) as [El Wleaf].
  destruct (rightpath l) as [[|f p] leaf] eqn:Erp.
  { pose proof (rightpath_plug l) as Hpl. pose proof (rightpath_leaf l) as Hlf.
    rewrite Erp in *. simpl in *. congruence. }
  destruct (rightpath_last l f p leaf Erp) as (HfL & Hleaf & Hp & Hpl & Hlast).
  simpl in *.
  pose proof (rep_at_go_up _ _ _ _ Wleaf) as Wpred.
  destruct (set_key_focus _ _ _ _ _ _ _ _ (f_key f) W) as (sk & Ek & Wk & Hmk).
  destruct (set_val_focus _ _ _ _ _ _ _ _ (f_val f) Wk) as (s1 & Ev & W1 & Hm1).
  pose proof (rep_at_go_down _ (Frame true a c (f_key f) (f_val f) r) _ _ W1) as W1l.
  destruct (getLeftMostChild_loop_spec (S (height l)) _ _ _ W1l ltac:(lia)) as [_ W2].
  rewrite Erp in W2. simpl in W2. apply rep_at_go_up in W2.
  assert (plug1 f leaf
          = PNode (f_addr f) (f_color f) (f_sib f) (f_key f) (f_val f) leaf) as Epl
    by (unfold plug1; by rewrite HfL).
  assert (z_splice1 (p ++ Frame true a c (f_key f) (f_val f) r :: ctx) (plug1 f leaf)
          = Some (p ++ Frame true a c (f_key f) (f_val f) r :: ctx,
                  (if is_leaf (f_sib f) then leaf else f_sib f),
                  negb (f_color f))) as Ez.
  { rewrite Epl. simpl. destruct (is_leaf (f_sib f)); [done|]. by rewrite Hleaf. }
  destruct fuel as [|fuel]; [lia|].
  destruct (eraseNode_splice1_spec fuel _ _ _ _ _ _ W2 Ez) as (s2 & E2 & Wt & _).
  rewrite addr_plug1 in E2. rewrite Epl in W2.
  exists f, p, leaf, s1, s2, (if is_leaf (f_sib f) then leaf else f_sib f).
  split; [done|]. split; [done|]. split; [done|]. split; [done|].
  split; [done|]. split; [done|]. split.
  { unfold getLeftMostChild. exec (get_left_focus _ _ _ W). exec El.
    exact (get_parent_focus _ _ _ Wleaf). }
  split; [by rewrite (bind_ok _ _ _ _ _ Ek)|]. split; [done|]. split.
  { cbn [eraseNode_splice].
    exec (get_left_focus _ _ _ W). exec (isLeaf_focus _ _ _ Wl). rewrite ELl.
    exec (get_right_focus _ _ _ W). exec (isLeaf_focus _ _ _ Wr). rewrite ELr.
    unfold getLeftMostChild. exec (get_left_focus _ _ _ W). exec El.
    exec (get_parent_focus _ _ _ Wleaf).
    exec (get_key_focus _ _ _ Wpred). rewrite key_plug1.
    exec (get_val_focus _ _ _ Wpred). rewrite val_plug1.
    exec Ek. exec Ev. done. }
  split; [by destruct (f_color f)|]. split; [done|].
  rewrite Epl in Ez. apply z_splice1_inorder in Ez as [_ Ez]. rewrite Ez.
  assert (inorder l
          = ctx_before p ++ inorder (f_sib f) ++ [mkPair (f_key f) (f_val f)]) as Hil.
  { rewrite <- Hpl, inorder_plug. simpl. rewrite (inorder_leaf leaf) by done.
    pose proof (rightpath_after l) as Haf. rewrite Erp in Haf. simpl in Haf.
    rewrite HfL in Haf. simpl in Haf. by rewrite Haf, app_nil_r. }
  pose proof (rightpath_after l) as Haf. rewrite Erp in Haf. simpl in Haf.
  rewrite HfL in Haf. simpl in Haf.
  rewrite Hil, ctx_before_app, ctx_after_app, Haf. simpl.
  rewrite (inorder_leaf leaf) by done. by lnorm.
Qed.

(** Splicing out a node that has a sentinel child takes one activation
    of [eraseNode], whatever the fuel left. *)
Lemma eraseNode_splice1_fuel f1 f2 s ctx t ctx' t' b :
  rep_at s ctx t ->
  z_splice1 ctx t = Some (ctx', t', b) ->
  eraseNode_splice (S f1) (Some (addr t)) s = eraseNode_splice (S f2) (Some (addr t)) s.
Proof.
  intros W Hz. destruct t as [|a c l k v r]; [done|]. simpl in Hz.
  pose proof (rep_at_go_down _ (Frame true a c k v r) _ _ W) as Wl.
  pose proof (rep_at_go_down _ (Frame false a c k v l) _ _ W) as Wr.
  pose proof (get_left_focus _ _ _ W) as E1. simpl in E1.
  pose proof (isLeaf_focus _ _ _ Wl) as E2.
  pose proof (get_right_focus _ _ _ W) as E3. simpl in E3.
  pose proof (isLeaf_focus _ _ _ Wr) as E4.
  cbn [eraseNode_splice addr].
  rewrite !(bind_ok _ _ _ _ _ E1), !(bind_ok _ _ _ _ _ E2).
  destruct (is_leaf l); [done|].
  rewrite !(bind_ok _ _ _ _ _ E3), !(bind_ok _ _ _ _ _ E4).
  by destruct (is_leaf r).
Qed.

(** C8.  [Delete] of a key whose node has two children that are not
    sentinels, in a red-black tree.  The lookup returns that node;
    [getLeftMostChild] returns the last node on the right spine of its
    left subtree, whose right child is a sentinel and whose pair is the
    last of the in-order sequence of the left subtree: the in-order
    predecessor.  Its key and value are written into the node, and both
    [eraseNode] and [Delete] go on as [eraseNode] on the predecessor in
    the store so changed.  [Delete] returns no error, and the tree the
    map then holds has lost the pair of the node and nothing else. *)
Theorem Delete_two_children fuel s T K ctx a c l k v r :
  rep_store s T -> is_rb T ->
  z_findNode (compareFunc (mp s)) K [] T = (ctx, PNode a c l k v r) ->
  is_leaf l = false -> is_leaf r = false ->
  3 * height T + 2 < fuel ->
  exists f p leaf s1 s' T',
    findNode fuel (root (mp s)) K s = Ok (Some a, s) /\
    rightpath l = (f :: p, leaf) /\
    f_isLeft f = false /\ is_leaf leaf = true /\
    (forall g, g ∈ p -> f_isLeft g = false) /\
    plug p (PNode (f_addr f) (f_color f) (f_sib f) (f_key f) (f_val f) leaf) = l /\
    last (inorder l) = Some (mkPair (f_key f) (f_val f)) /\
    getLeftMostChild (fuel - 1) (Some a) s = Ok (Some (f_addr f), s) /\
    (set_key (Some a) (f_key f) ;;; set_val (Some a) (f_val f)) s = Ok (tt, s1) /\
    rep_at s1 (p ++ Frame true a c (f_key f) (f_val f) r :: ctx)
           (PNode (f_addr f) (f_color f) (f_sib f) (f_key f) (f_val f) leaf) /\
    eraseNode fuel (Some a) s = eraseNode fuel (Some (f_addr f)) s1 /\
    Delete fuel K s = (eraseNode fuel (Some (f_addr f)) ;;; ret None) s1 /\
    Delete fuel K s = Ok (None, s') /\
    rep_store s' T' /\ is_rb T' /\
    inorder T = ctx_before ctx ++ inorder l ++ mkPair k v :: inorder r ++ ctx_after ctx /\
    inorder T' = ctx_before ctx ++ inorder l ++ inorder r ++ ctx_after ctx.
Proof.
  intros Hrep Hrb Ef ELl ELr Hf.
  apply is_rb_rbt in Hrb. fold (rb_ok T) in Hrb.
  pose proof (depth_found (compareFunc (mp s)) K T) as Hd.
  pose proof (inorder_found (compareFunc (mp s)) K T) as Hi.
  rewrite Ef in Hd, Hi. simpl in Hd, Hi.
  destruct Hrep as [Hr W0].
  destruct (findNode_spec fuel s [] T K W0 ltac:(lia)) as [Efn W].
  rewrite Ef in Efn, W. simpl in Efn, W.
  destruct fuel as [|fuel0]; [lia|].
  destruct fuel0 as [|fuel1]; [lia|].
  destruct (eraseNode_two_children (S fuel1) s ctx a c l k v r W ELl ELr ltac:(lia))
    as (f & p & leaf & s1 & s2 & t1 & Hrp & HfL & Hleaf & Hp & Hpl & Hlast & EG
        & Ecopy & W1 & Esp & Esp1 & W2 & Hi2).
  assert (eraseNode (S (S fuel1)) (Some a) s
          = eraseNode (S (S fuel1)) (Some (f_addr f)) s1) as Eer.
  { pose proof (eraseNode_splice1_fuel (S fuel1) fuel1 s1 _ _
                  (p ++ Frame true a c (f_key f) (f_val f) r :: ctx)
                  (if is_leaf (f_sib f) then leaf else f_sib f)
                  (negb (f_color f)) W1) as Efu.
    cbn [addr] in Efu. unfold eraseNode, bind. rewrite Esp, Efu; [done|]. simpl.
    destruct (is_leaf (f_sib f)); [done|]. by rewrite Hleaf. }
  assert (Delete (S (S fuel1)) K s
          = (eraseNode (S (S fuel1)) (Some (f_addr f)) ;;; ret None) s1) as Edel.
  { unfold Delete.
    rewrite (bind_ok _ _ _ _ _ (eq_refl : get_root s = Ok (root (mp s), s))), Hr.
    rewrite (bind_ok _ _ _ _ _ Efn). simpl.
    rewrite (bind_ok _ _ _ _ _ (isLeaf_focus _ _ _ W)). simpl.
    unfold bind at 1. rewrite Eer. reflexivity. }
  destruct (z_Delete_ok (compareFunc (mp s)) (S (S fuel1)) K T Hrb Hf)
    as (T' & e & Ez & Hrb' & Hm).
  destruct (Delete_spec (S (S fuel1)) s T K T' e (conj Hr W0) ltac:(lia) Ez)
    as (s' & Ed & Hrep' & _).
  rewrite Ef in Hm. simpl in Hm. destruct Hm as [-> Hi'].
  exists f, p, leaf, s1, s', T'.
  split; [by rewrite Hr|]. split; [done|]. split; [done|]. split; [done|].
  split; [done|]. split; [done|]. split; [done|].
  split; [by replace (S (S fuel1) - 1) with (S fuel1) by lia|].
  split; [done|]. split; [done|]. split; [done|]. split; [done|].
  split; [done|]. split; [done|]. split; [by apply is_rb_rbt|].
  split; [|done]. rewrite Hi. by lnorm.
Qed.

(** * Further properties of the methods *)

Section Equiv.
Context (cmp : CompareFunc) (Hcmp : strict_weak_order cmp).

Lemma eqv_refl K : eqv cmp K K.
Proof.
  split; intros E; [|apply (cmp_flip _ Hcmp) in E];
    by apply (ordered_irrefl cmp K Hcmp).
Qed.

Lemma eqv_sym a b : eqv cmp a b -> eqv cmp b a.
Proof.
  intros [H1 H2]. split; intros E.
  - apply H2. by apply (cmp_flip _ Hcmp).
  - apply H1. by apply (cmp_flip _ Hcmp).
Qed.

Lemma eqv_trans a b c : eqv cmp a b -> eqv cmp b c -> eqv cmp a c.
Proof.
  intros Hab Hbc. pose proof (eqv_sym _ _ Hab) as Hba.
  pose proof (eqv_sym _ _ Hbc) as Hcb. split; intros E.
  - destruct (cmp_neg_trans _ Hcmp a b c E) as [?|?]; [by destruct Hab|by destruct Hbc].
  - apply (cmp_flip _ Hcmp) in E.
    destruct (cmp_neg_trans _ Hcmp c b a E) as [?|?]; [by destruct Hcb|by destruct Hba].
Qed.

(** A sequence holds at most one pair for a key, and in one place. *)
Lemma split_unique K (l1 l2 l1' l2' : list Pair) p p' :
  l1 ++ p :: l2 = l1' ++ p' :: l2' ->
  eqv cmp K (Key p) -> eqv cmp K (Key p') ->
  absent cmp K l1 -> absent cmp K l1' ->
  l1 = l1' /\ p = p' /\ l2 = l2'.
Proof.
  revert l1'. induction l1 as [|x l1 IH]; intros [|x' l1'] E Hp Hp' Ha Ha'; simpl in E.
  - by simplify_eq.
  - injection E as E1 _. subst x'. destruct (Ha' p); [left|done].
  - injection E as E1 _. subst x. destruct (Ha p'); [left|done].
  - injection E as -> E. destruct (IH l1' E Hp Hp') as (-> & -> & ->); [| |done].
    + intros q Hq. apply Ha. by right.
    + intros q Hq. apply Ha'. by right.
Qed.

End Equiv.

(** The node the lookup stops at when the map holds the key: writing
    its value field is all that [Set], and [Add] on a key that exists,
    do to the store. *)
Lemma update_found cmp fuel s T K V p :
  strict_weak_order cmp -> Inv cmp s T -> height T < fuel ->
  p ∈ inorder T -> eqv cmp K (Key p) ->
  exists a n l1 l2 T',
    nodes s !! a = Some n /\ key n = Key p /\ val n = Val p /\
    inorder T = l1 ++ p :: l2 /\ absent cmp K (l1 ++ l2) /\
    inorder T' = l1 ++ mkPair (Key p) V :: l2 /\ live T' = live T /\
    Inv cmp (mkStore (mp s) (<[a := with_val V n]> (nodes s))) T' /\
    Add fuel K V s = Ok (Some ErrNodeAlreadyExists,
                         mkStore (mp s) (<[a := with_val V n]> (nodes s))) /\
    Set_ fuel K V s = Ok (true, mkStore (mp s) (<[a := with_val V n]> (nodes s))).
Proof.
  intros Hcmp HI Hf Hp He.
  destruct (found_present cmp K T p Hcmp (inv_ord _ _ _ HI Hcmp) Hp He)
    as (ctx & a & c & tl & tr & Ef & Ha1 & Ha2).
  destruct p as [k' v']. simpl in *.
  pose proof (inv_cmp _ _ _ HI) as Hc.
  destruct (Add_found_heap fuel s T K V ctx a c tl k' v' tr (inv_rep _ _ _ HI))
    as (n & Hn & Hk & Hv & E); [lia|by rewrite Hc|].
  destruct (Add_correct cmp fuel s T K V HI ltac:(lia)) as (s1 & T1 & e & E1 & HI1 & Hm).
  destruct (Set_correct cmp fuel s T K V HI ltac:(lia)) as (s2 & E2 & _).
  rewrite E in E1. pose proof (inorder_found cmp K T) as Hi.
  pose proof (z_findNode_plug cmp K [] T) as Hpl.
  unfold z_Set in E2. rewrite Ef in Hm, Hi, Hpl, E2. simpl in *.
  destruct Hm as (-> & -> & Hsz). injection E1 as <-.
  assert (s2 = mkStore (mp s) (<[a := with_val V n]> (nodes s))) as ->.
  { revert E2. unfold Set_.
    rewrite (bind_ok _ _ _ _ _ (eq_refl : get_root s = Ok (root (mp s), s))).
    destruct HI as [[Hr W] _ _ _]. rewrite Hr.
    destruct (findNode_spec fuel s [] T K W Hf) as [Efn W']. rewrite Hc in Efn, W'.
    rewrite (bind_ok _ _ _ _ _ Efn), Ef. simpl.
    rewrite Ef in W'. simpl in W'.
    rewrite (bind_ok _ _ _ _ _ (isLeaf_focus _ _ _ W')). simpl.
    unfold set_val, modify, bind, ret. rewrite Hn. intros ?; by simplify_eq. }
  exists a, n, (ctx_before ctx ++ inorder tl), (inorder tr ++ ctx_after ctx).
  exists (plug ctx (PNode a c tl k' V tr)).
  split; [done|]. split; [done|]. split; [done|].
  split; [rewrite Hi; by lnorm|]. split.
  { intros q Hq. apply elem_of_app in Hq as [Hq|Hq]; auto. }
  split; [rewrite inorder_plug; simpl; by lnorm|].
  split; [by rewrite (live_plug_val _ _ _ _ _ v'), Hpl|]. done.
Qed.

Lemma z_Get_present cmp K T p :
  strict_weak_order cmp -> ordered cmp (keys T) ->
  p ∈ inorder T -> eqv cmp K (Key p) -> z_Get cmp K T = (true, Val p).
Proof.
  intros Hcmp Ho Hp He.
  destruct (found_present cmp K T p Hcmp Ho Hp He) as (ctx & a & c & tl & tr & Ef & _).
  unfold z_Get. by rewrite Ef.
Qed.

(** X1.  [Get] answers by what [Range] yields and leaves the store as it
    is: absence, with the nil value, when no pair has a key the
    comparator equates with the one asked for, and otherwise presence
    with the value of the pair that has such a key. *)
Theorem Get_agrees_with_Range cmp fuel s K out :
  strict_weak_order cmp -> reachable cmp fuel s ->
  Range fuel s = Ok (out, s) ->
  (absent cmp K out -> Get fuel K s = Ok ((false, nilVal), s)) /\
  (forall p, p ∈ out -> eqv cmp K (Key p) ->
     Get fuel K s = Ok ((true, Val p), s)).
Proof.
  intros Hcmp Hreach HR.
  destruct (reachable_inv cmp fuel s Hreach) as (T & HI & Hf).
  pose proof (height_live T) as Hh.
  rewrite (Range_spec fuel s T (inv_rep _ _ _ HI) ltac:(lia)) in HR. simplify_eq.
  rewrite (Get_correct cmp fuel s T K HI) by lia. split.
  - intros Ha. by rewrite z_Get_absent.
  - intros p Hp He.
    by rewrite (z_Get_present cmp K T p Hcmp (inv_ord _ _ _ HI Hcmp) Hp He).
Qed.

(** X2.  [Set] never inserts: for a key the map does not hold it returns
    false and the store is as before.  For a key the map holds it returns
    true and has written the value field of one node, nothing else;
    [Range] then yields the former pairs with the value of that key
    replaced, and [Get] finds the new value. *)
Theorem Set_updates_or_refuses cmp fuel s K V out :
  strict_weak_order cmp -> reachable cmp fuel s ->
  Range fuel s = Ok (out, s) ->
  (absent cmp K out -> Set_ fuel K V s = Ok (false, s)) /\
  (forall p, p ∈ out -> eqv cmp K (Key p) ->
     exists a n l1 l2 s',
       nodes s !! a = Some n /\ key n = Key p /\ val n = Val p /\
       s' = mkStore (mp s) (<[a := with_val V n]> (nodes s)) /\
       Set_ fuel K V s = Ok (true, s') /\
       out = l1 ++ p :: l2 /\
       Range fuel s' = Ok (l1 ++ mkPair (Key p) V :: l2, s') /\
       Get fuel K s' = Ok ((true, V), s')).
Proof.
  intros Hcmp Hreach HR.
  destruct (reachable_inv cmp fuel s Hreach) as (T & HI & Hf).
  pose proof (height_live T) as Hh.
  rewrite (Range_spec fuel s T (inv_rep _ _ _ HI) ltac:(lia)) in HR. simplify_eq.
  split.
  - intros Ha.
    destruct (Set_spec fuel s T K V (inv_rep _ _ _ HI) ltac:(lia)) as (s' & E & _ & Hs & _).
    rewrite (inv_cmp _ _ _ HI) in *.
    apply (absent_found cmp Hcmp K T (inv_ord _ _ _ HI Hcmp)) in Ha.
    unfold z_Set in *.
    destruct (z_findNode cmp K [] T) as [ctx [a c|a c tl k' v' tr]]; [|done].
    simpl in *. by rewrite E, Hs.
  - intros p Hp He.
    destruct (update_found cmp fuel s T K V p Hcmp HI ltac:(lia) Hp He)
      as (a & n & l1 & l2 & T' & Hn & Hk & Hv & Hi & Ha & Hi' & Hl & HI' & _ & E).
    pose proof (height_live T') as Hh'.
    exists a, n, l1, l2. eexists.
    split; [done|]. split; [done|]. split; [done|]. split; [reflexivity|].
    split; [done|]. split; [done|]. split.
    + rewrite <- Hi'. apply Range_spec; [apply HI'|lia].
    + rewrite (Get_correct cmp fuel _ T' K HI') by lia.
      rewrite (z_Get_present cmp K T' (mkPair (Key p) V) Hcmp (inv_ord _ _ _ HI' Hcmp));
        [done| |done].
      rewrite Hi'. apply elem_of_app. right. left.
Qed.

(** X3.  [Add] of a key the map does not hold returns no error.  [Range]
    then yields the former pairs with the new pair put in its place by
    the order of the keys, the size counter has gone up by one, and
    [Get] finds the value. *)
Theorem Add_new_key cmp fuel s K V out :
  strict_weak_order cmp -> reachable cmp fuel s ->
  Range fuel s = Ok (out, s) -> absent cmp K out ->
  exists s' l1 l2,
    Add fuel K V s = Ok (None, s') /\
    out = l1 ++ l2 /\
    Range fuel s' = Ok (l1 ++ mkPair K V :: l2, s') /\
    ordered cmp (map Key (l1 ++ mkPair K V :: l2)) /\
    Len s' = Ok (wrap_int (size (mp s) + 1), s') /\
    Get fuel K s' = Ok ((true, V), s').
Proof.
  intros Hcmp Hreach HR Ha.
  destruct (reachable_inv cmp fuel s Hreach) as (T & HI & Hf).
  pose proof (height_live T) as Hh.
  rewrite (Range_spec fuel s T (inv_rep _ _ _ HI) ltac:(lia)) in HR. simplify_eq.
  destruct (Add_correct cmp fuel s T K V HI ltac:(lia)) as (s' & T' & e & E & HI' & Hm).
  pose proof (inorder_found cmp K T) as Hi.
  apply (absent_found cmp Hcmp K T (inv_ord _ _ _ HI Hcmp)) in Ha.
  destruct (z_findNode cmp K [] T) as [ctx [a c|a c tl k' v' tr]]; [|done].
  simpl in *. destruct Hm as (-> & Hi' & Hsz).
  assert (live T' = S (live T)) as Hl.
  { rewrite !live_inorder, Hi', Hi, !length_app. simpl. lia. }
  pose proof (height_live T') as Hh'.
  exists s', (ctx_before ctx), (ctx_after ctx).
  split; [done|]. split; [done|]. split; [|split; [|split]].
  - rewrite <- Hi'. apply Range_spec; [apply HI'|lia].
  - rewrite <- Hi'. by apply (inv_ord _ _ _ HI').
  - unfold Len, get_size in *. by rewrite Hsz.
  - rewrite (Get_correct cmp fuel _ T' K HI') by lia.
    rewrite (z_Get_present cmp K T' (mkPair K V) Hcmp (inv_ord _ _ _ HI' Hcmp));
      [done| |by apply eqv_refl].
    rewrite Hi'. apply elem_of_app. right. left.
Qed.

(** X4.  A new map is empty, whatever its comparator: [Range] yields
    nothing, [Len] is 0, [Get] reports absence, [Set] returns false and
    [Delete] returns [ErrNodeNotExists]; none of them changes the map. *)
Theorem NewMap_is_empty cmp fuel K V :
  2 < fuel ->
  Range fuel (NewMap cmp) = Ok ([], NewMap cmp) /\
  Len (NewMap cmp) = Ok (0%Z, NewMap cmp) /\
  Get fuel K (NewMap cmp) = Ok ((false, nilVal), NewMap cmp) /\
  Set_ fuel K V (NewMap cmp) = Ok (false, NewMap cmp) /\
  Delete fuel K (NewMap cmp) = Ok (Some ErrNodeNotExists, NewMap cmp).
Proof.
  intros Hf. pose proof (NewMap_inv cmp) as HI.
  split; [|split; [done|split; [|split]]].
  - by rewrite (Range_spec fuel _ _ (inv_rep _ _ _ HI)) by (simpl; lia).
  - by rewrite (Get_correct cmp fuel _ _ K HI) by (simpl; lia).
  - destruct (Set_spec fuel _ _ K V (inv_rep _ _ _ HI)) as (s' & E & _ & Hs & _);
      [simpl; lia|].
    simpl in *. rewrite E. by rewrite Hs.
  - destruct (Delete_correct cmp fuel _ _ K HI) as (s' & T' & e & E & _ & _ & _ & Hm);
      [simpl; lia|].
    simpl in Hm. by destruct Hm as (-> & -> & _).
Qed.

Lemma ordered_perm_unique cmp (l1 l2 : list Pair) :
  strict_weak_order cmp ->
  ordered cmp (map Key l1) -> ordered cmp (map Key l2) -> l1 ≡ₚ l2 -> l1 = l2.
Proof.
  intros Hcmp. revert l2.
  induction l1 as [|a l1 IH]; intros l2 Ho1 Ho2 Hp.
  { symmetry. by apply Permutation_nil. }
  destruct l2 as [|b l2]; [symmetry in Hp; by apply Permutation_nil_cons in Hp|].
  simpl in Ho1, Ho2. destruct Ho1 as [Ha Ho1], Ho2 as [Hb Ho2].
  assert (a = b) as ->.
  { assert (a ∈ b :: l2) as Hab by (rewrite <- Hp; left).
    assert (b ∈ a :: l1) as Hba by (rewrite Hp; left).
    apply elem_of_cons in Hab as [?|Hab]; [done|].
    apply elem_of_cons in Hba as [?|Hba]; [done|].
    eapply Forall_forall in Ha; [|apply list_elem_of_fmap_2; exact Hba].
    eapply Forall_forall in Hb; [|apply list_elem_of_fmap_2; exact Hab].
    destruct (ordered_irrefl cmp (Key a) Hcmp). by eapply (cmp_trans _ Hcmp). }
  f_equal. apply IH; [done..|]. by apply Permutation_cons_inv in Hp.
Qed.

Lemma pairwise_distinct_perm cmp (l l' : list keyItem) :
  l ≡ₚ l' -> pairwise_distinct cmp l -> pairwise_distinct cmp l'.
Proof.
  induction 1 as [|x l l' Hp IH|x y l|l l' l'' _ IH1 _ IH2]; simpl.
  - done.
  - intros [Hx Hd]. split; [by rewrite <- Hp|auto].
  - intros (Hy & Hx & Hd). apply Forall_cons in Hy as [Hyx Hy].
    split; [|done]. apply Forall_cons. split; [tauto|done].
  - auto.
Qed.

(** X5.  The order in which pairs with pairwise distinct keys are added
    to a new map does not show: [Range] yields the same sequence. *)
Theorem Range_insertion_order cmp fuel kvs1 kvs2 :
  strict_weak_order cmp ->
  pairwise_distinct cmp (map Key kvs1) -> kvs1 ≡ₚ kvs2 ->
  3 * length kvs1 + 2 < fuel ->
  exists s1 s2 out,
    run_ops fuel (adds kvs1) (NewMap cmp) = Ok (tt, s1) /\
    run_ops fuel (adds kvs2) (NewMap cmp) = Ok (tt, s2) /\
    Range fuel s1 = Ok (out, s1) /\ Range fuel s2 = Ok (out, s2).
Proof.
  intros Hcmp Hd Hp Hf.
  assert (pairwise_distinct cmp (map Key kvs2)) as Hd2.
  { eapply pairwise_distinct_perm; [|exact Hd]. by apply Permutation_map. }
  assert (length kvs2 = length kvs1) as Hlen by (by rewrite Hp).
  destruct (adds_inv cmp fuel kvs1 _ _ Hcmp (NewMap_inv cmp)) as (s1 & T1 & E1 & HI1 & Hp1);
    [by intros p _ q Hq; apply elem_of_nil in Hq|done|simpl; lia|].
  destruct (adds_inv cmp fuel kvs2 _ _ Hcmp (NewMap_inv cmp)) as (s2 & T2 & E2 & HI2 & Hp2);
    [by intros p _ q Hq; apply elem_of_nil in Hq|done|simpl; lia|].
  simpl in Hp1, Hp2.
  assert (inorder T1 = inorder T2) as Hi.
  { apply (ordered_perm_unique cmp); [done|by apply (inv_ord _ _ _ HI1)
      |by apply (inv_ord _ _ _ HI2)|by rewrite Hp1, Hp2]. }
  exists s1, s2, (inorder T1). split; [done|]. split; [done|]. split.
  - apply Range_spec; [apply HI1|]. pose proof (height_live T1).
    rewrite live_inorder, Hp1 in *. lia.
  - rewrite Hi. apply Range_spec; [apply HI2|]. pose proof (height_live T2).
    rewrite live_inorder, Hp2 in *. lia.
Qed.

(** X6.  [Add] of a key the map does not hold followed by [Delete] of
    that key: both return no error and [Range] yields what it yielded
    before the two calls. *)
Theorem Add_then_Delete cmp fuel fuel' s K V out :
  strict_weak_order cmp -> reachable cmp fuel s -> fuel + 3 <= fuel' ->
  Range fuel s = Ok (out, s) -> absent cmp K out ->
  exists s1 s2,
    Add fuel' K V s = Ok (None, s1) /\
    Delete fuel' K s1 = Ok (None, s2) /\
    Range fuel' s2 = Ok (out, s2).
Proof.
  intros Hcmp Hreach Hf' HR Ha.
  destruct (reachable_inv cmp fuel s Hreach) as (T & HI & Hf).
  pose proof (height_live T) as Hh.
  rewrite (Range_spec fuel s T (inv_rep _ _ _ HI) ltac:(lia)) in HR. simplify_eq.
  destruct (Add_correct cmp fuel' s T K V HI ltac:(lia)) as (s1 & T1 & e & E & HI1 & Hm).
  pose proof (inorder_found cmp K T) as Hi.
  pose proof Ha as Hleaf.
  apply (absent_found cmp Hcmp K T (inv_ord _ _ _ HI Hcmp)) in Hleaf.
  destruct (z_findNode cmp K [] T) as [ctx [a c|a c tl k' v' tr]]; [|done].
  simpl in *. destruct Hm as (-> & Hi1 & _).
  assert (live T1 = S (live T)) as Hl.
  { rewrite !live_inorder, Hi1, Hi, !length_app. simpl. lia. }
  pose proof (height_live T1) as Hh1.
  destruct (Delete_correct cmp fuel' s1 T1 K HI1 ltac:(lia))
    as (s2 & T2 & e2 & E2 & HI2 & _ & _ & Hm2).
  assert (mkPair K V ∈ inorder T1) as Hin
    by (rewrite Hi1; apply elem_of_app; right; left).
  destruct (found_present cmp K T1 (mkPair K V) Hcmp (inv_ord _ _ _ HI1 Hcmp) Hin
              (eqv_refl cmp Hcmp K))
    as (ctx1 & a1 & c1 & tl1 & tr1 & Ef & Hb1 & Hb2).
  pose proof (inorder_found cmp K T1) as Hi1'.
  rewrite Ef in Hm2, Hi1'. simpl in *. destruct Hm2 as (-> & Hi2).
  assert (ctx_before ctx = ctx_before ctx1 ++ inorder tl1 /\
          mkPair K V = mkPair K V /\
          ctx_after ctx = inorder tr1 ++ ctx_after ctx1) as (Hx & _ & Hy).
  { apply (split_unique cmp K); [|by apply eqv_refl..| |done].
    - rewrite <- Hi1, Hi1'. by lnorm.
    - intros q Hq. apply Ha. rewrite Hi. apply elem_of_app. by left. }
  assert (inorder T2 = inorder T) as Hi2'.
  { rewrite Hi2, Hi, Hx, Hy. by lnorm. }
  pose proof (height_live T2) as Hh2.
  exists s1, s2. split; [done|]. split; [done|].
  rewrite <- Hi2'. apply Range_spec; [apply HI2|].
  rewrite live_inorder, Hi2', <- live_inorder in Hh2. lia.
Qed.

Lemma wrap_int_small z :
  (- 2 ^ 63 <= z < 2 ^ 63)%Z -> wrap_int z = z.
Proof. intros Hz. unfold wrap_int. rewrite Z.mod_small; lia. Qed.

Lemma adds_inv_size cmp fuel kvs s T :
  strict_weak_order cmp -> Inv cmp s T ->
  (forall p, p ∈ kvs -> absent cmp (Key p) (inorder T)) ->
  pairwise_distinct cmp (map Key kvs) ->
  3 * (live T + length kvs) + 2 < fuel ->
  (0 <= size (mp s))%Z -> (size (mp s) + Z.of_nat (length kvs) < 2 ^ 63)%Z ->
  exists s', run_ops fuel (adds kvs) s = Ok (tt, s') /\
             size (mp s') = (size (mp s) + Z.of_nat (length kvs))%Z.
Proof.
  intros Hcmp. revert s T.
  induction kvs as [|[K V] kvs IH]; intros s T HI Habs Hd Hf Hs0 Hs1.
  - exists s. split; [done|]. simpl. lia.
  - cbn [length map adds pairwise_distinct run_ops] in *.
    destruct Hd as [Hd1 Hd2]. pose proof (height_live T) as Hh.
    destruct (Add_correct cmp fuel s T K V HI ltac:(lia)) as (s1 & T1 & e & E & HI1 & Hm).
    pose proof (inorder_found cmp K T) as Hi.
    pose proof (proj2 (absent_found cmp Hcmp K T (inv_ord _ _ _ HI Hcmp))) as Hleaf.
    specialize (Hleaf (Habs (mkPair K V) ltac:(left))).
    destruct (z_findNode cmp K [] T) as [ctx [a c|a c tl k' v' tr]]; simpl in *; [|done].
    destruct Hm as (_ & Hm & Hsz).
    rewrite wrap_int_small in Hsz by lia.
    assert (inorder T1 ≡ₚ mkPair K V :: inorder T) as Hperm.
    { rewrite Hm, Hi. by rewrite Permutation_middle. }
    destruct (IH s1 T1 HI1) as (s2 & E2 & Hs2).
    + intros q Hq r Hr. rewrite Hperm in Hr.
      apply elem_of_cons in Hr as [->|Hr]; [|by apply (Habs q); [right|]].
      simpl. eapply Forall_forall in Hd1; [|apply list_elem_of_fmap_2; exact Hq].
      destruct Hd1 as [Hlt|Hlt].
      * by apply lt_not_eqv_l.
      * by apply lt_not_eqv_r.
    + done.
    + rewrite !live_inorder in *. rewrite Hperm. simpl. lia.
    + lia.
    + lia.
    + exists s2. split; [by exec E|]. lia.
Qed.

(** X7.  As long as pairs are only added, and with pairwise distinct
    keys, [Len] is the number of pairs added (below 2^63, where the Go
    int would wrap). *)
Theorem Len_after_adds cmp fuel kvs :
  strict_weak_order cmp ->
  pairwise_distinct cmp (map Key kvs) ->
  3 * length kvs + 2 < fuel ->
  (Z.of_nat (length kvs) < 2 ^ 63)%Z ->
  exists s,
    run_ops fuel (adds kvs) (NewMap cmp) = Ok (tt, s) /\
    Len s = Ok (Z.of_nat (length kvs), s).
Proof.
  intros Hcmp Hd Hf Hn.
  destruct (adds_inv_size cmp fuel kvs _ _ Hcmp (NewMap_inv cmp)) as (s & E & Hs);
    [by intros p _ q Hq; apply elem_of_nil in Hq|done|simpl; lia|simpl; lia..|].
  exists s. split; [done|]. unfold Len, get_size. by rewrite Hs.
Qed.

Definition op_key (o : op) : keyItem :=
  match o with OpAdd k _ | OpDelete k | OpSet k _ => k end.

(** Two ordered trees that hold the same pairs for a key answer the
    lookup of that key alike. *)
Lemma z_Get_congr cmp K T T' :
  strict_weak_order cmp -> ordered cmp (keys T) -> ordered cmp (keys T') ->
  (forall p, eqv cmp K (Key p) -> p ∈ inorder T <-> p ∈ inorder T') ->
  z_Get cmp K T' = z_Get cmp K T.
Proof.
  intros Hcmp Ho Ho' Hiff.
  pose proof (inorder_found cmp K T) as Hi.
  pose proof (z_findNode_eqv cmp K [] T) as He.
  pose proof (proj1 (absent_found cmp Hcmp K T Ho)) as Hleaf.
  unfold z_Get at 2.
  destruct (z_findNode cmp K [] T) as [ctx [a c|a c tl k' v' tr]]; simpl in *.
  - apply z_Get_absent. intros p Hp Hq. apply (Hleaf eq_refl p); [|done].
    by apply Hiff.
  - apply (z_Get_present cmp K T' (mkPair k' v')); [done..| |done].
    apply Hiff; [done|]. rewrite Hi.
    apply elem_of_app. right. apply elem_of_app. left. apply elem_of_app. right. left.
Qed.

Ltac mem_cases :=
  rewrite ?elem_of_app, ?elem_of_cons, ?elem_of_nil;
  split; intros ?; intuition (subst; simpl in *; try done).

Lemma run_op_other_keys cmp fuel o s T :
  strict_weak_order cmp -> Inv cmp s T -> 3 * live T + 2 < fuel ->
  exists s' T', run_op fuel o s = Ok (tt, s') /\ Inv cmp s' T' /\
    live T' <= S (live T) /\
    forall p, ~ eqv cmp (op_key o) (Key p) -> p ∈ inorder T <-> p ∈ inorder T'.
Proof.
  intros Hcmp HI Hf. pose proof (height_live T) as Hh.
  pose proof (inorder_found cmp (op_key o) T) as Hi.
  pose proof (z_findNode_eqv cmp (op_key o) [] T) as He.
  pose proof (z_findNode_plug cmp (op_key o) [] T) as Hpl. simpl in Hpl.
  pose proof (eqv_refl cmp Hcmp (op_key o)) as Hrefl.
  destruct o as [K V|K|K V]; unfold run_op; simpl in *.
  - destruct (Add_correct cmp fuel s T K V HI ltac:(lia)) as (s1 & T1 & e & E1 & HI1 & Hm).
    exists s1, T1. split; [by rewrite (bind_ok _ _ _ _ _ E1)|]. split; [done|].
    destruct (z_findNode cmp K [] T) as [ctx [a c|a c tl k' v' tr]]; simpl in *.
    + destruct Hm as (_ & Hm & _). split.
      * rewrite !live_inorder, Hm, Hi, !length_app. simpl. lia.
      * intros p Hne. rewrite Hm, Hi. mem_cases.
    + destruct Hm as (_ & -> & _). split.
      * rewrite (live_plug_val _ _ _ _ _ v'), Hpl. lia.
      * intros p Hne. rewrite Hi, inorder_plug. simpl. mem_cases.
  - destruct (Delete_correct cmp fuel s T K HI ltac:(lia))
      as (s1 & T1 & e & E1 & HI1 & _ & _ & Hm).
    exists s1, T1. split; [by rewrite (bind_ok _ _ _ _ _ E1)|]. split; [done|].
    destruct (z_findNode cmp K [] T) as [ctx [a c|a c tl k' v' tr]]; simpl in *.
    + destruct Hm as (_ & _ & ->). split; [lia|done].
    + destruct Hm as (_ & Hm). split.
      * rewrite !live_inorder, Hm, Hi, !length_app. simpl.
        rewrite ?length_app. simpl. lia.
      * intros p Hne. rewrite Hm, Hi. mem_cases.
  - destruct (Set_correct cmp fuel s T K V HI ltac:(lia)) as (s1 & E1 & HI1 & _).
    exists s1, (z_Set cmp K V T).1. split; [by rewrite (bind_ok _ _ _ _ _ E1)|].
    split; [done|]. unfold z_Set.
    destruct (z_findNode cmp K [] T) as [ctx [a c|a c tl k' v' tr]]; simpl in *.
    + split; [lia|done].
    + split.
      * rewrite (live_plug_val _ _ _ _ _ v'), Hpl. lia.
      * intros p Hne. rewrite Hi, inorder_plug. simpl. mem_cases.
Qed.

(** X8.  [Add], [Delete] and [Set] of one key leave every other key
    alone: [Get] of a key the comparator does not equate with the one
    operated on answers after the call what it answered before. *)
Theorem other_keys_untouched cmp fuel s o K' :
  strict_weak_order cmp -> reachable cmp fuel s ->
  ~ eqv cmp (op_key o) K' ->
  exists s' r,
    run_op fuel o s = Ok (tt, s') /\
    Get fuel K' s = Ok (r, s) /\ Get fuel K' s' = Ok (r, s').
Proof.
  intros Hcmp Hreach Hne.
  destruct (reachable_inv cmp fuel s Hreach) as (T & HI & Hf).
  destruct (run_op_other_keys cmp fuel o s T Hcmp HI Hf) as (s' & T' & E & HI' & Hl & Hiff).
  pose proof (height_live T). pose proof (height_live T').
  exists s', (z_Get cmp K' T). split; [done|].
  split; [by apply Get_correct; [|lia]|].
  rewrite (Get_correct cmp fuel s' T' K' HI') by lia. do 2 f_equal.
  apply z_Get_congr; [done|by apply (inv_ord _ _ _ HI)|by apply (inv_ord _ _ _ HI')|].
  intros p Hp. apply Hiff. intros Hq. apply Hne.
  eapply eqv_trans; [done|exact Hq|by apply eqv_sym].
Qed.

(** ** Node methods and rotations on the store *)

(** X9.  [rotateRight] undoes [rotateLeft]: rotating a node left and then
    its former right child right returns twice and leaves the map holding
    the tree it held, with the root pointer, the comparator and the size
    as before. *)
Theorem rotateLeft_then_rotateRight s ctx a c l k v b cb rl kb vb rr :
  rep_at s ctx (PNode a c l k v (PNode b cb rl kb vb rr)) ->
  root (mp s) = Some (top_addr ctx (PNode a c l k v (PNode b cb rl kb vb rr))) ->
  exists s1 s2,
    rotateLeft (Some a) s = Ok (tt, s1) /\
    rotateRight (Some b) s1 = Ok (tt, s2) /\
    rep_at s1 ctx (PNode b cb (PNode a c l k v rl) kb vb rr) /\
    rep_at s2 ctx (PNode a c l k v (PNode b cb rl kb vb rr)) /\
    root (mp s2) = root (mp s) /\ same_meta s s2.
Proof.
  intros W Hr.
  destruct (rotateLeft_focus s ctx _ _ W eq_refl) as (s1 & E1 & W1 & Hr1 & Hm1).
  destruct (rotateRight_focus s1 ctx _ _ W1 eq_refl) as (s2 & E2 & W2 & Hr2 & Hm2).
  exists s1, s2. split; [exact E1|]. split; [exact E2|]. split; [exact W1|].
  split; [exact W2|]. split; [|by eapply same_meta_trans].
  rewrite Hr2. destruct ctx as [|f ctx]; [by rewrite Hr|by rewrite Hr1].
Qed.

(** X10.  The node methods do no nil checks.  On a node without a
    parent, [isRoot] answers true and [isLeft], [isRight],
    [getSibling], [getGrandParent] and [getUncle] dereference nil.  On
    a child of such a node [getGrandParent] returns nil and [getUncle]
    dereferences nil. *)
Theorem node_methods_at_root s a n :
  nodes s !! a = Some n -> parent n = None ->
  isRoot (Some a) s = Ok (true, s) /\
  isLeft (Some a) s = Panic /\ isRight (Some a) s = Panic /\
  getSibling (Some a) s = Panic /\
  getGrandParent (Some a) s = Panic /\ getUncle (Some a) s = Panic /\
  (forall b m, nodes s !! b = Some m -> parent m = Some a ->
     getGrandParent (Some b) s = Ok (None, s) /\ getUncle (Some b) s = Panic).
Proof.
  intros Hn Hp.
  assert (get_parent (Some a) s = Ok (None, s)) as Ep.
  { unfold get_parent, load, bind, ret. simpl. by rewrite Hn, Hp. }
  assert (isLeft (Some a) s = Panic) as EL.
  { unfold isLeft. by rewrite (bind_ok _ _ _ _ _ Ep). }
  assert (getSibling (Some a) s = Panic) as ES.
  { unfold getSibling, bind. by rewrite EL. }
  split; [unfold isRoot; by rewrite (bind_ok _ _ _ _ _ Ep)|].
  split; [done|]. split; [unfold isRight; by rewrite (bind_ok _ _ _ _ _ Ep)|].
  split; [done|].
  split; [unfold getGrandParent; by rewrite (bind_ok _ _ _ _ _ Ep)|].
  split; [unfold getUncle; by rewrite (bind_ok _ _ _ _ _ Ep)|].
  intros b m Hm Hpm.
  assert (get_parent (Some b) s = Ok (Some a, s)) as Eb.
  { unfold get_parent, load, bind, ret. simpl. by rewrite Hm, Hpm. }
  split.
  - unfold getGrandParent. by rewrite (bind_ok _ _ _ _ _ Eb).
  - unfold getUncle. by rewrite (bind_ok _ _ _ _ _ Eb).
Qed.

(** X11.  A node of a tree that has a parent is the left child or the
    right child of it, not both; its sibling is another node, and the
    sibling of its sibling is the node itself. *)
Theorem sibling_of_sibling s f ctx t :
  rep_at s (f :: ctx) t ->
  exists sib il,
    sib <> addr t /\
    getSibling (Some (addr t)) s = Ok (Some sib, s) /\
    getSibling (Some sib) s = Ok (Some (addr t), s) /\
    isLeft (Some (addr t)) s = Ok (il, s) /\
    isRight (Some (addr t)) s = Ok (negb il, s) /\
    isLeft (Some sib) s = Ok (negb il, s) /\
    isRight (Some sib) s = Ok (il, s).
Proof.
  intros W. pose proof (rep_at_to_sibling _ _ _ _ W) as Ws.
  exists (addr (f_sib f)), (f_isLeft f).
  split; [apply not_eq_sym; exact (sibling_addr_ne _ _ _ _ W)|].
  split; [exact (getSibling_focus _ _ _ _ W)|].
  split; [exact (getSibling_focus _ _ _ _ Ws)|].
  split; [exact (isLeft_focus _ _ _ _ W)|]. split; [exact (isRight_focus _ _ _ _ W)|].
  split; [exact (isLeft_focus _ _ _ _ Ws)|].
  pose proof (isRight_focus _ _ _ _ Ws) as E. simpl in E.
  by rewrite negb_involutive in E.
Qed.

(** X12.  The rotations need the child that moves up: [rotateLeft] on a
    node whose right child is a sentinel dereferences nil, and so does
    [rotateRight] on a node whose left child is a sentinel. *)
Theorem rotate_sentinel_child s ctx a c k v :
  (forall l b cb, rep_at s ctx (PNode a c l k v (PLeaf b cb)) ->
     rotateLeft (Some a) s = Panic) /\
  (forall r b cb, rep_at s ctx (PNode a c (PLeaf b cb) k v r) ->
     rotateRight (Some a) s = Panic).
Proof.
  split.
  - intros l b cb W. unfold rotateLeft.
    exec (get_right_focus _ _ _ W). exec (get_parent_focus _ _ _ W).
    destruct ctx as [|f ctx].
    + simpl. destruct W as [Ht Hc Hn]. simpl in *.
      destruct Ht as (Ha & Hl & Hb & _).
      unfold cell in *; simpl in *. sep_facts.
      unfold set_root, set_parent, set_right, set_left, get_left, get_right,
        modify, load, bind, ret.
      heap_run. rewrite Hb. heap_run. rewrite Ha. heap_run. done.
    + pose proof (isLeft_focus _ _ _ _ W) as HisL. simpl in HisL.
      destruct W as [Ht Hc Hn]. simpl in *.
      destruct Ht as (Ha & Hl & Hb & _). destruct Hc as (Hf & Hs & Hc).
      unfold cell, frame_addrs in *; simpl in *. sep_facts.
      rewrite bind_assoc, (bind_ok _ _ _ _ _ HisL).
      unfold frame_cell in Hf.
      unfold set_root, set_parent, set_right, set_left, get_left, get_right,
        modify, load, bind, ret.
      destruct (f_isLeft f) eqn:EL.
      all: heap_run; rewrite Hf; heap_run; rewrite Hb; heap_run; rewrite Ha;
        heap_run; done.
  - intros r b cb W. unfold rotateRight.
    exec (get_left_focus _ _ _ W). exec (get_parent_focus _ _ _ W).
    destruct ctx as [|f ctx].
    + simpl. destruct W as [Ht Hc Hn]. simpl in *.
      destruct Ht as (Ha & Hb & Hr).
      unfold cell in *; simpl in *. destruct Hb as [Hb _]. sep_facts.
      unfold set_root, set_parent, set_right, set_left, get_left, get_right,
        modify, load, bind, ret.
      heap_run. rewrite Hb. heap_run. rewrite Ha. heap_run. done.
    + pose proof (isLeft_focus _ _ _ _ W) as HisL. simpl in HisL.
      destruct W as [Ht Hc Hn]. simpl in *.
      destruct Ht as (Ha & Hb & Hr). destruct Hc as (Hf & Hs & Hc).
      unfold cell, frame_addrs in *; simpl in *. destruct Hb as [Hb _]. sep_facts.
      rewrite bind_assoc, (bind_ok _ _ _ _ _ HisL).
      unfold frame_cell in Hf.
      unfold set_root, set_parent, set_right, set_left, get_left, get_right,
        modify, load, bind, ret.
      destruct (f_isLeft f) eqn:EL.
      all: heap_run; rewrite Hf; heap_run; rewrite Hb; heap_run; rewrite Ha;
        heap_run; done.
Qed.

(** X13.  On a key the map holds, [Add] does to the store exactly what
    [Set] does; the two differ in what they return only. *)
Theorem Add_existing_is_Set cmp fuel s K V out p :
  strict_weak_order cmp -> reachable cmp fuel s ->
  Range fuel s = Ok (out, s) -> p ∈ out -> eqv cmp K (Key p) ->
  exists s',
    Add fuel K V s = Ok (Some ErrNodeAlreadyExists, s') /\
    Set_ fuel K V s = Ok (true, s').
Proof.
  intros Hcmp Hreach HR Hp He.
  destruct (reachable_inv cmp fuel s Hreach) as (T & HI & Hf).
  pose proof (height_live T) as Hh.
  rewrite (Range_spec fuel s T (inv_rep _ _ _ HI) ltac:(lia)) in HR. simplify_eq.
  destruct (update_found cmp fuel s T K V p Hcmp HI ltac:(lia) Hp He)
    as (a & n & l1 & l2 & T' & _ & _ & _ & _ & _ & _ & _ & _ & EA & ES).
  eauto.
Qed.

(** X14.  Lookups are logarithmic: on a map that holds [n] pairs the
    search of [Get] is never deeper than [2 * log2 (n + 1) + 1] calls of
    [findNode]. *)
Theorem lookup_is_logarithmic cmp fuel s K out :
  reachable cmp fuel s -> Range fuel s = Ok (out, s) ->
  exists r, Get (2 * Nat.log2 (length out + 1) + 1) K s = Ok (r, s) /\
            Get fuel K s = Ok (r, s).
Proof.
  intros Hreach HR.
  destruct (reachable_inv cmp fuel s Hreach) as (T & HI & Hf).
  pose proof (height_live T) as Hh.
  rewrite (Range_spec fuel s T (inv_rep _ _ _ HI) ltac:(lia)) in HR. simplify_eq.
  pose proof (rb_ok_height T (inv_rb _ _ _ HI)) as Hlog.
  rewrite live_inorder in Hlog.
  exists (z_Get cmp K T). split; apply Get_correct; try done; lia.
Qed.

Lemma isLeft_no_parent s a n :
  nodes s !! a = Some n -> parent n = None -> isLeft (Some a) s = Panic.
Proof.
  intros Hn Hp. unfold isLeft, get_parent, get_left, load, bind, ret. simpl.
  by rewrite Hn, Hp.
Qed.

(** X15.  The edges of the insertion fix-up.  On the root [insertSort]
    paints the node BLACK and makes it the root of the map; on a node
    with a BLACK parent it changes nothing; on a child of a RED root,
    which a red-black tree never has, it dereferences nil when it asks
    for the uncle. *)
Theorem insertSort_edges fuel s ctx t :
  rep_at s ctx t ->
  (ctx = [] ->
     exists s', insertSort (S fuel) (Some (addr t)) s = Ok (tt, s') /\
       rep_at s' [] (recolor BLACK t) /\ root (mp s') = Some (addr t)) /\
  (forall f rest, ctx = f :: rest -> f_color f = BLACK ->
     insertSort (S fuel) (Some (addr t)) s = Ok (tt, s)) /\
  (forall f, ctx = [f] -> f_color f = RED ->
     insertSort (S fuel) (Some (addr t)) s = Panic).
Proof.
  intros W. split; [|split].
  - intros ->.
    destruct (insertSort_body_spec s [] t [] (recolor BLACK t) false W)
      as (s' & E & W' & Hr & _); [done..|].
    exists s'. cbn [insertSort]. rewrite (bind_ok _ _ _ _ _ E).
    split; [done|]. split; [done|]. simpl in Hr. by rewrite addr_recolor in Hr.
  - intros f rest -> Hc. cbn [insertSort]. unfold insertSort_body.
    exec (isRoot_focus _ _ _ W). rewrite ?bool_decide_eq_false_2 by done.
    exec (get_parent_focus _ _ _ W).
    pose proof (rep_at_go_up _ _ _ _ W) as Wp.
    exec (isRed_focus _ _ _ Wp). by rewrite Hc.
  - intros f -> Hc. cbn [insertSort]. unfold insertSort_body.
    exec (isRoot_focus _ _ _ W). rewrite ?bool_decide_eq_false_2 by done.
    exec (get_parent_focus _ _ _ W).
    pose proof (rep_at_go_up _ _ _ _ W) as Wp.
    exec (isRed_focus _ _ _ Wp). rewrite Hc. unfold RED. cbv iota.
    unfold getUncle. rewrite !bind_assoc.
    rewrite (bind_ok _ _ _ _ _ (get_parent_focus _ _ _ W)). simpl.
    pose proof (rep_root_cell _ _ _ (ra_tree _ _ _ Wp)) as En.
    rewrite addr_plug1 in En.
    unfold getSibling. rewrite !bind_assoc. unfold bind at 1.
    by rewrite (isLeft_no_parent s (f_addr f) _ En eq_refl).
Qed.

(** X16.  [getLeftMostChild] on a node whose left child is a sentinel
    returns the node itself: the loop stops at once and the parent of
    the sentinel is returned. *)
Theorem getLeftMostChild_no_left fuel s ctx a c b cb k v r :
  rep_at s ctx (PNode a c (PLeaf b cb) k v r) ->
  getLeftMostChild (S fuel) (Some a) s = Ok (Some a, s).
Proof.
  intros W. unfold getLeftMostChild.
  exec (get_left_focus _ _ _ W).
  pose proof (rep_at_go_down _ (Frame true a c k v r) _ _ W) as Wl.
  destruct (getLeftMostChild_loop_spec (S fuel) _ _ _ Wl ltac:(simpl; lia)) as [E _].
  simpl in E. exec E. exact (get_parent_focus _ _ _ Wl).
Qed.

End Rbmap.

(** * A concrete map: the test of the repository

    Keys and values are Go [interface{}] values holding an [int] or nil.
    The comparator is the one of [Test/rbtree_test.go] on ints; the test
    never passes nil, which is put before every int here. *)

Definition intCompare (a b : option Z) : N :=
  match a, b with
  | Some c, Some d => if (c <? d)%Z then 1 else if (c >? d)%Z then 2 else 0
  | None, Some _ => 1
  | Some _, None => 2
  | None, None => 0
  end.

Ltac int_cases :=
  rewrite ?Z.gtb_ltb;
  repeat match goal with
         | |- context [(?a <? ?b)%Z] => destruct (Z.ltb_spec a b)
         end.

Lemma intCompare_order : strict_weak_order intCompare.
Proof.
  split.
  - intros [a|] [b|]; simpl; int_cases; split; intros ?; first [done | lia].
  - intros [a|] [b|] [c|]; simpl; int_cases; intros ? ?; first [done | lia].
  - intros [a|] [b|] [c|]; simpl; int_cases; intros ?;
      first [done | by left | by right | lia].
Qed.

Definition int_store : Type := @store (option Z) (option Z).

Definition new_int_map : int_store := NewMap None None intCompare.

Definition int_add (i : Z) : op := OpAdd (Some i) (Some (i + 1)%Z).
Definition int_delete (i : Z) : @op (option Z) (option Z) := OpDelete (Some i).

(** The scenario of the test: keys 1 to 10 are added with values 2 to 11,
    then keys 1 to 9 are deleted. *)
Definition test_ops : list op :=
  map int_add [1; 2; 3; 4; 5; 6; 7; 8; 9; 10]%Z ++
  map int_delete [1; 2; 3; 4; 5; 6; 7; 8; 9]%Z.

(** C2.  On the scenario of the test every call returns; [Range] then
    yields the single pair (10, 11) and [Get] of 2 reports absence, but
    [Len] answers 10, not 1: [Add] increments the size counter and
    [Delete] never decrements it. *)
Theorem Len_after_deletes :
  exists s,
    run_ops None None 100 test_ops new_int_map = Ok (tt, s) /\
    Range 100 s = Ok ([mkPair (Some 10%Z) (Some 11%Z)], s) /\
    Get None 100 (Some 2%Z) s = Ok ((false, None), s) /\
    Len s = Ok (10%Z, s).
Proof.
  eexists. split; [vm_compute; reflexivity|].
  split; [|split]; vm_compute; reflexivity.
Qed.

(** ** The theorems at concrete maps *)

Definition store_of (r : res (unit * int_store)) : int_store :=
  match r with Ok (_, s) => s | _ => new_int_map end.

(** The map after adding 1, 2 and 3, and the tree it holds. *)
Definition demo_ops : list op := map int_add [1; 2; 3]%Z.

Definition demo_store : int_store :=
  store_of (run_ops None None 100 demo_ops new_int_map).

Definition demo_left : ptree :=
  PNode 1%positive RED (PLeaf 2%positive BLACK) (Some 1%Z) (Some 2%Z)
        (PLeaf 4%positive BLACK).

Definition demo_right : ptree :=
  PNode 5%positive RED (PLeaf 6%positive BLACK) (Some 3%Z) (Some 4%Z)
        (PLeaf 7%positive BLACK).

Definition demo_tree : ptree :=
  PNode 3%positive BLACK demo_left (Some 2%Z) (Some 3%Z) demo_right.

Definition demo_pairs : list Pair :=
  [mkPair (Some 1%Z) (Some 2%Z); mkPair (Some 2%Z) (Some 3%Z);
   mkPair (Some 3%Z) (Some 4%Z)].

Lemma demo_reachable : reachable None None intCompare 100 demo_store.
Proof. exists demo_ops. split; [simpl; lia|vm_compute; reflexivity]. Qed.

Lemma demo_range : Range 100 demo_store = Ok (demo_pairs, demo_store).
Proof. vm_compute; reflexivity. Qed.

Lemma demo_rep : rep_at None None demo_store [] demo_tree.
Proof.
  split.
  - repeat split; vm_compute; reflexivity.
  - exact I.
  - simpl. repeat (apply NoDup_cons_2;
      [rewrite ?elem_of_cons, elem_of_nil; intuition discriminate|]).
    apply NoDup_nil_2.
Qed.

Lemma red_black_after_ops_witness :
  3 * length test_ops + 2 < 100 /\
  exists s T,
    run_ops None None 100 test_ops new_int_map = Ok (tt, s) /\
    rep_store None None s T /\ is_rb T /\
    Range 100 s = Ok (inorder T, s) /\
    (strict_weak_order intCompare -> ordered intCompare (map Key (inorder T))).
Proof.
  split; [simpl; lia|].
  apply (red_black_after_ops None None intCompare 100 test_ops). simpl; lia.
Defined.

Lemma Range_after_adds_witness :
  strict_weak_order intCompare /\
  pairwise_distinct intCompare (map Key (rev demo_pairs)) /\
  3 * length (rev demo_pairs) + 2 < 100 /\
  exists s out,
    run_ops None None 100 (adds (rev demo_pairs)) (NewMap None None intCompare)
      = Ok (tt, s) /\
    Range 100 s = Ok (out, s) /\
    out ≡ₚ rev demo_pairs /\ ordered intCompare (map Key out) /\
    length out = length (rev demo_pairs).
Proof.
  assert (pairwise_distinct intCompare (map Key (rev demo_pairs))) as Hd.
  { simpl. repeat split; repeat constructor; by (left + right). }
  split; [exact intCompare_order|]. split; [exact Hd|]. split; [simpl; lia|].
  apply (Range_after_adds None None intCompare 100 (rev demo_pairs)
           intCompare_order Hd).
  simpl; lia.
Defined.

Lemma Add_existing_key_witness :
  exists a n l1 l2 s',
    nodes demo_store !! a = Some n /\ key n = Some 2%Z /\ val n = Some 3%Z /\
    s' = mkStore (mp demo_store) (<[a := with_val (Some 99%Z) n]> (nodes demo_store)) /\
    Add None None 100 (Some 2%Z) (Some 99%Z) demo_store
      = Ok (Some ErrNodeAlreadyExists, s') /\
    Len s' = Ok (size (mp demo_store), s') /\
    demo_pairs = l1 ++ mkPair (Some 2%Z) (Some 3%Z) :: l2 /\
    absent intCompare (Some 2%Z) (l1 ++ l2) /\
    Range 100 s' = Ok (l1 ++ mkPair (Some 2%Z) (Some 99%Z) :: l2, s') /\
    Get None 100 (Some 2%Z) s' = Ok ((true, Some 99%Z), s').
Proof.
  apply (Add_existing_key None None intCompare 100 demo_store (Some 2%Z) (Some 99%Z)
           demo_pairs (mkPair (Some 2%Z) (Some 3%Z))
           intCompare_order demo_reachable demo_range).
  - apply list_elem_of_further, list_elem_of_here.
  - split; vm_compute; discriminate.
Defined.

Lemma Delete_then_lookup_witness :
  Delete 100 (Some 7%Z) demo_store = Ok (Some ErrNodeNotExists, demo_store) /\
  exists s',
    Delete 100 (Some 2%Z) demo_store = Ok (None, s') /\
    Range 100 s' = Ok ([mkPair (Some 1%Z) (Some 2%Z); mkPair (Some 3%Z) (Some 4%Z)], s') /\
    Get None 100 (Some 2%Z) s' = Ok ((false, None), s') /\
    Delete 100 (Some 2%Z) s' = Ok (Some ErrNodeNotExists, s').
Proof.
  split.
  - apply (Delete_then_lookup None None intCompare 100 demo_store (Some 7%Z)
             intCompare_order demo_reachable) with (out := demo_pairs);
      [exact demo_range|].
    intros p Hp [_ H2]. unfold demo_pairs in Hp.
    rewrite !elem_of_cons, elem_of_nil in Hp.
    destruct Hp as [->|[->|[->|[]]]]; apply H2; vm_compute; reflexivity.
  - destruct (Delete_then_lookup None None intCompare 100 demo_store (Some 2%Z)
                intCompare_order demo_reachable) as (_ & H2 & H3).
    destruct (H2 demo_pairs (mkPair (Some 2%Z) (Some 3%Z)) demo_range)
      as (s' & l1 & l2 & E & Hl & HR).
    + apply list_elem_of_further, list_elem_of_here.
    + split; vm_compute; discriminate.
    + assert (l1 = [mkPair (Some 1%Z) (Some 2%Z)] /\
              l2 = [mkPair (Some 3%Z) (Some 4%Z)]) as [-> ->].
      { clear -Hl. unfold demo_pairs in Hl.
        destruct l1 as [|p1 [|p2 [|p3 [|p4 l1]]]]; simpl in Hl;
          inversion Hl; done. }
      exists s'. split; [exact E|]. split; [exact HR|exact (H3 s' E)].
Defined.

Lemma height_bound_witness :
  exists T,
    rep_store None None demo_store T /\
    Range 100 demo_store = Ok (inorder T, demo_store) /\
    live T = length (inorder T) /\
    height T <= 2 * Nat.log2 (live T + 1).
Proof. exact (height_bound None None intCompare 100 demo_store demo_reachable). Defined.

Lemma rotations_keep_inorder_witness :
  Range 100 demo_store = Ok (demo_pairs, demo_store) /\
  (exists s', rotateLeft (Some 3%positive) demo_store = Ok (tt, s') /\
              Range 100 s' = Ok (demo_pairs, s')) /\
  (exists s', rotateRight (Some 3%positive) demo_store = Ok (tt, s') /\
              Range 100 s' = Ok (demo_pairs, s')).
Proof.
  destruct (rotations_keep_inorder None None 100 demo_store [] 3%positive BLACK
              demo_left (Some 2%Z) (Some 3%Z) demo_right demo_rep)
    as (H1 & H2 & H3).
  - vm_compute; reflexivity.
  - simpl; lia.
  - split; [exact H1|]. split; [exact (H2 eq_refl)|exact (H3 eq_refl)].
Defined.

Lemma demo_rb : is_rb demo_tree.
Proof.
  apply is_rb_rbt. split; [reflexivity|]. exists 2. simpl. repeat split; reflexivity.
Qed.

Lemma demo_rep_store : rep_store None None demo_store demo_tree.
Proof. split; [vm_compute; reflexivity|exact demo_rep]. Qed.

Lemma Delete_two_children_witness :
  exists pred s1 s',
    findNode 100 (root (mp demo_store)) (Some 2%Z) demo_store
      = Ok (Some 3%positive, demo_store) /\
    getLeftMostChild 99 (Some 3%positive) demo_store = Ok (Some pred, demo_store) /\
    eraseNode 100 (Some 3%positive) demo_store = eraseNode 100 (Some pred) s1 /\
    Delete 100 (Some 2%Z) demo_store
      = bind (eraseNode 100 (Some pred)) (fun _ => ret None) s1 /\
    Delete 100 (Some 2%Z) demo_store = Ok (None, s').
Proof.
  destruct (Delete_two_children None None 100 demo_store demo_tree (Some 2%Z) []
              3%positive BLACK demo_left (Some 2%Z) (Some 3%Z) demo_right
              demo_rep_store demo_rb)
    as (f & p & leaf & s1 & s' & T' & H1 & _ & _ & _ & _ & _ & _ & H2 & _ & _
        & H3 & H4 & H5 & _).
  - vm_compute; reflexivity.
  - reflexivity.
  - reflexivity.
  - simpl; lia.
  - exists (f_addr f), s1, s'.
    split; [exact H1|]. split; [exact H2|]. split; [exact H3|].
    split; [exact H4|exact H5].
Defined.





Definition demo_root_node : @Node (option Z) (option Z) :=
  mkNode (Some 2%Z) (Some 3%Z) (Some 1%positive) (Some 5%positive) None BLACK.

Lemma findNode_compare_witness :
  findNode 3 (Some 3%positive) (Some 1%Z) demo_store
    = findNode 2 (Some 1%positive) (Some 1%Z) demo_store /\
  findNode 3 (Some 3%positive) (Some 3%Z) demo_store
    = findNode 2 (Some 5%positive) (Some 3%Z) demo_store /\
  findNode 3 (Some 3%positive) (Some 2%Z) demo_store
    = Ok (Some 3%positive, demo_store).
Proof.
  assert (nodes demo_store !! 3%positive = Some demo_root_node) as Hn
    by (vm_compute; reflexivity).
  assert (left demo_root_node <> None \/ right demo_root_node <> None) as Hnl
    by (by left).
  split; [|split].
  - apply (findNode_compare None None 2 demo_store 3%positive demo_root_node
             (Some 1%Z) None Hn); [exact Hnl|vm_compute; reflexivity].
  - apply (findNode_compare None None 2 demo_store 3%positive demo_root_node
             (Some 3%Z) None Hn); [exact Hnl|vm_compute; reflexivity].
  - apply (findNode_compare None None 2 demo_store 3%positive demo_root_node
             (Some 2%Z) None Hn); [exact Hnl|vm_compute; discriminate..].
Defined.

(** ** The further properties at concrete maps *)

Definition demo_frame : frame :=
  Frame true 3%positive BLACK (Some 2%Z) (Some 3%Z) demo_right.

Lemma demo_rep_left : rep_at None None demo_store [demo_frame] demo_left.
Proof. apply rep_at_go_down. exact demo_rep. Qed.

Lemma demo_absent : absent intCompare (Some 7%Z) demo_pairs.
Proof.
  intros p Hp [_ H2]. unfold demo_pairs in Hp.
  rewrite !elem_of_cons, elem_of_nil in Hp.
  destruct Hp as [->|[->|[->|[]]]]; apply H2; vm_compute; reflexivity.
Qed.

Lemma demo_present : mkPair (Some 2%Z) (Some 3%Z) ∈ demo_pairs.
Proof. apply list_elem_of_further, list_elem_of_here. Qed.

Lemma demo_eqv : eqv intCompare (Some 2%Z) (Some 2%Z).
Proof. split; vm_compute; discriminate. Qed.

Lemma Get_agrees_with_Range_witness :
  Get None 100 (Some 7%Z) demo_store = Ok ((false, None), demo_store) /\
  Get None 100 (Some 2%Z) demo_store = Ok ((true, Some 3%Z), demo_store).
Proof.
  split.
  - apply (Get_agrees_with_Range None None intCompare 100 demo_store (Some 7%Z)
             demo_pairs intCompare_order demo_reachable demo_range).
    exact demo_absent.
  - exact (proj2 (Get_agrees_with_Range None None intCompare 100 demo_store (Some 2%Z)
                    demo_pairs intCompare_order demo_reachable demo_range)
                 (mkPair (Some 2%Z) (Some 3%Z)) demo_present demo_eqv).
Defined.

Lemma Set_updates_or_refuses_witness :
  Set_ 100 (Some 7%Z) (Some 0%Z) demo_store = Ok (false, demo_store) /\
  exists s' l1 l2,
    Set_ 100 (Some 2%Z) (Some 99%Z) demo_store = Ok (true, s') /\
    demo_pairs = l1 ++ mkPair (Some 2%Z) (Some 3%Z) :: l2 /\
    Range 100 s' = Ok (l1 ++ mkPair (Some 2%Z) (Some 99%Z) :: l2, s') /\
    Get None 100 (Some 2%Z) s' = Ok ((true, Some 99%Z), s').
Proof.
  split.
  - apply (Set_updates_or_refuses None None intCompare 100 demo_store (Some 7%Z)
             (Some 0%Z) demo_pairs intCompare_order demo_reachable demo_range).
    exact demo_absent.
  - destruct (Set_updates_or_refuses None None intCompare 100 demo_store (Some 2%Z)
                (Some 99%Z) demo_pairs intCompare_order demo_reachable demo_range)
      as [_ H].
    destruct (H (mkPair (Some 2%Z) (Some 3%Z)) demo_present demo_eqv)
      as (a & n & l1 & l2 & s' & _ & _ & _ & _ & E & Hl & HR & HG).
    exists s', l1, l2. tauto.
Defined.

Lemma Add_new_key_witness :
  exists s' l1 l2,
    Add None None 100 (Some 7%Z) (Some 8%Z) demo_store = Ok (None, s') /\
    demo_pairs = l1 ++ l2 /\
    Range 100 s' = Ok (l1 ++ mkPair (Some 7%Z) (Some 8%Z) :: l2, s') /\
    ordered intCompare (map Key (l1 ++ mkPair (Some 7%Z) (Some 8%Z) :: l2)) /\
    Len s' = Ok (wrap_int (size (mp demo_store) + 1), s') /\
    Get None 100 (Some 7%Z) s' = Ok ((true, Some 8%Z), s').
Proof.
  exact (Add_new_key None None intCompare 100 demo_store (Some 7%Z) (Some 8%Z)
           demo_pairs intCompare_order demo_reachable demo_range demo_absent).
Defined.

Lemma NewMap_is_empty_witness :
  Range 3 new_int_map = Ok ([], new_int_map) /\
  Len new_int_map = Ok (0%Z, new_int_map) /\
  Get None 3 (Some 1%Z) new_int_map = Ok ((false, None), new_int_map) /\
  Set_ 3 (Some 1%Z) (Some 2%Z) new_int_map = Ok (false, new_int_map) /\
  Delete 3 (Some 1%Z) new_int_map = Ok (Some ErrNodeNotExists, new_int_map).
Proof.
  apply (NewMap_is_empty None None intCompare 3 (Some 1%Z) (Some 2%Z)). lia.
Defined.

Lemma demo_distinct : pairwise_distinct intCompare (map Key (rev demo_pairs)).
Proof. simpl. repeat split; repeat constructor; by (left + right). Qed.

Lemma Range_insertion_order_witness :
  exists s1 s2 out,
    run_ops None None 100 (adds (rev demo_pairs)) (NewMap None None intCompare)
      = Ok (tt, s1) /\
    run_ops None None 100 (adds demo_pairs) (NewMap None None intCompare)
      = Ok (tt, s2) /\
    Range 100 s1 = Ok (out, s1) /\ Range 100 s2 = Ok (out, s2).
Proof.
  apply (Range_insertion_order None None intCompare 100 (rev demo_pairs) demo_pairs
           intCompare_order demo_distinct).
  - symmetry. apply Permutation_rev.
  - simpl; lia.
Defined.

Lemma Add_then_Delete_witness :
  exists s1 s2,
    Add None None 103 (Some 7%Z) (Some 8%Z) demo_store = Ok (None, s1) /\
    Delete 103 (Some 7%Z) s1 = Ok (None, s2) /\
    Range 103 s2 = Ok (demo_pairs, s2).
Proof.
  apply (Add_then_Delete None None intCompare 100 103 demo_store (Some 7%Z) (Some 8%Z)
           demo_pairs intCompare_order demo_reachable);
    [lia|exact demo_range|exact demo_absent].
Defined.

Lemma Len_after_adds_witness :
  exists s,
    run_ops None None 100 (adds (rev demo_pairs)) (NewMap None None intCompare)
      = Ok (tt, s) /\
    Len s = Ok (Z.of_nat (length (rev demo_pairs)), s).
Proof.
  apply (Len_after_adds None None intCompare 100 (rev demo_pairs)
           intCompare_order demo_distinct); simpl; lia.
Defined.

Lemma other_keys_untouched_witness :
  exists s' r,
    run_op None None 100 (int_delete 2) demo_store = Ok (tt, s') /\
    Get None 100 (Some 3%Z) demo_store = Ok (r, demo_store) /\
    Get None 100 (Some 3%Z) s' = Ok (r, s').
Proof.
  apply (other_keys_untouched None None intCompare 100 demo_store (int_delete 2)
           (Some 3%Z) intCompare_order demo_reachable).
  intros [H1 _]. apply H1. vm_compute; reflexivity.
Defined.

Lemma rotateLeft_then_rotateRight_witness :
  exists s1 s2,
    rotateLeft (Some 3%positive) demo_store = Ok (tt, s1) /\
    rotateRight (Some 5%positive) s1 = Ok (tt, s2) /\
    rep_at None None s1 []
      (PNode 5%positive RED
         (PNode 3%positive BLACK demo_left (Some 2%Z) (Some 3%Z) (PLeaf 6%positive BLACK))
         (Some 3%Z) (Some 4%Z) (PLeaf 7%positive BLACK)) /\
    rep_at None None s2 [] demo_tree /\
    root (mp s2) = root (mp demo_store) /\ same_meta demo_store s2.
Proof.
  apply (rotateLeft_then_rotateRight None None demo_store [] 3%positive BLACK demo_left
           (Some 2%Z) (Some 3%Z) 5%positive RED (PLeaf 6%positive BLACK)
           (Some 3%Z) (Some 4%Z) (PLeaf 7%positive BLACK) demo_rep).
  vm_compute; reflexivity.
Defined.

Lemma demo_root_lookup : nodes demo_store !! 3%positive = Some demo_root_node.
Proof. vm_compute; reflexivity. Qed.

Lemma node_methods_at_root_witness :
  isRoot (Some 3%positive) demo_store = Ok (true, demo_store) /\
  isLeft (Some 3%positive) demo_store = Panic /\
  isRight (Some 3%positive) demo_store = Panic /\
  getSibling (Some 3%positive) demo_store = Panic /\
  getGrandParent (Some 3%positive) demo_store = Panic /\
  getUncle (Some 3%positive) demo_store = Panic.
Proof.
  destruct (node_methods_at_root demo_store 3%positive demo_root_node
              demo_root_lookup eq_refl) as (H1 & H2 & H3 & H4 & H5 & H6 & _).
  tauto.
Defined.

Lemma sibling_of_sibling_witness :
  exists sib il,
    sib <> 1%positive /\
    getSibling (Some 1%positive) demo_store = Ok (Some sib, demo_store) /\
    getSibling (Some sib) demo_store = Ok (Some 1%positive, demo_store) /\
    isLeft (Some 1%positive) demo_store = Ok (il, demo_store) /\
    isRight (Some 1%positive) demo_store = Ok (negb il, demo_store) /\
    isLeft (Some sib) demo_store = Ok (negb il, demo_store) /\
    isRight (Some sib) demo_store = Ok (il, demo_store).
Proof.
  exact (sibling_of_sibling None None demo_store demo_frame [] demo_left demo_rep_left).
Defined.

Lemma rotate_sentinel_child_witness :
  rotateLeft (Some 1%positive) demo_store = Panic /\
  rotateRight (Some 1%positive) demo_store = Panic.
Proof.
  destruct (rotate_sentinel_child None None demo_store [demo_frame] 1%positive RED
              (Some 1%Z) (Some 2%Z)) as [HL HR].
  split.
  - exact (HL (PLeaf 2%positive BLACK) 4%positive BLACK demo_rep_left).
  - exact (HR (PLeaf 4%positive BLACK) 2%positive BLACK demo_rep_left).
Defined.

Lemma Add_existing_is_Set_witness :
  exists s',
    Add None None 100 (Some 2%Z) (Some 99%Z) demo_store
      = Ok (Some ErrNodeAlreadyExists, s') /\
    Set_ 100 (Some 2%Z) (Some 99%Z) demo_store = Ok (true, s').
Proof.
  exact (Add_existing_is_Set None None intCompare 100 demo_store (Some 2%Z) (Some 99%Z)
           demo_pairs (mkPair (Some 2%Z) (Some 3%Z))
           intCompare_order demo_reachable demo_range demo_present demo_eqv).
Defined.

Lemma lookup_is_logarithmic_witness :
  exists r,
    Get None (2 * Nat.log2 (length demo_pairs + 1) + 1) (Some 3%Z) demo_store
      = Ok (r, demo_store) /\
    Get None 100 (Some 3%Z) demo_store = Ok (r, demo_store).
Proof.
  exact (lookup_is_logarithmic None None intCompare 100 demo_store (Some 3%Z)
           demo_pairs demo_reachable demo_range).
Defined.

Lemma insertSort_edges_witness :
  insertSort 1 (Some 1%positive) demo_store = Ok (tt, demo_store) /\
  exists s', insertSort 1 (Some 3%positive) demo_store = Ok (tt, s') /\
    rep_at None None s' [] (recolor BLACK demo_tree) /\
    root (mp s') = Some 3%positive.
Proof.
  split.
  - destruct (insertSort_edges None None 0 demo_store [demo_frame] demo_left
                demo_rep_left) as (_ & H & _).
    exact (H demo_frame [] eq_refl eq_refl).
  - destruct (insertSort_edges None None 0 demo_store [] demo_tree demo_rep)
      as (H & _).
    exact (H eq_refl).
Defined.

Lemma getLeftMostChild_no_left_witness :
  getLeftMostChild 1 (Some 1%positive) demo_store = Ok (Some 1%positive, demo_store).
Proof.
  exact (getLeftMostChild_no_left None None 0 demo_store [demo_frame] 1%positive RED
           2%positive BLACK (Some 1%Z) (Some 2%Z) (PLeaf 4%positive BLACK)
           demo_rep_left).
Defined.

End rbmap.
